(** * screenshot.py: a survey-filling script, embedded and verified

    The script drives a browser through the pages of an online survey.
    On each page it scrolls and takes screenshots, stitches them into one
    image, asks a hosted chat-completion service for an answer to every
    question it finds, and writes the answers into the form.

    The embedding keeps the shape of the source.  Pure computations (the
    stitching arithmetic, [sorted], [int()], list indexing) are Rocq
    functions.  Everything the script asks of the outside (browser,
    files, HTTP) is an operation [Op] answered by a driver, an instance
    of the class [Driver]; a run threads the driver's world and a small
    heap of Python list objects, and emits the operations it performed,
    with their results, as a trace.  The two [while True] loops take
    fuel.

    Strings are sequences of code points below 256, and a reply of the
    service is modelled as far as it is one: [int()] also reads the
    decimal digits of other scripts, which such a string cannot hold.
    Calls to [logger.info],
    [logger.debug] and [print] only write to the console and are left
    out; [logger.error] is kept.  The API key only travels in the request
    headers and is left out too.  A library call that polls or makes
    several requests of its own ([WebDriverWait(...).until],
    [Select(...).select_by_value], [open] with [read] and [b64encode]) is
    one operation; the reply of a chat request is the [content] string
    of its first choice, and a reply without one counts as the call
    raising. *)

From stdpp Require Import base list strings pretty.
From Stdlib Require Import ZArith NArith QArith.QArith_base Lia Permutation Sorted Ascii.

Local Open Scope string_scope.
Local Open Scope list_scope.
Local Open Scope Z_scope.

(** ** Python built-ins used by the script *)

Module Py.

(** The line feed of the [" \n\n "] in the prompts. *)
Definition LF : string := String (Ascii.ascii_of_nat 10) EmptyString.

(** [str(n)] for an [int], [f"{n}"] alike. *)
Definition str (n : Z) : string := pretty n.

(** The white space [int()] strips from a [str], on code points below 256.
    [int()] first turns the code points from 127 up that are
    [Py_UNICODE_ISSPACE] (here 133 and 160) into spaces and leaves the
    ASCII ones alone, then strips what is [Py_ISSPACE]: 9 to 13 and 32.
    The separators 28 to 31, white space for [str.isspace], are not
    stripped. *)
Definition isspace (c : Ascii.ascii) : bool :=
  let n := Ascii.nat_of_ascii c in
  ((9 <=? n) && (n <=? 13) || (n =? 32) || (n =? 133) || (n =? 160))%nat.

Definition digit (c : Ascii.ascii) : option Z :=
  let n := Ascii.nat_of_ascii c in
  if ((48 <=? n) && (n <=? 57))%nat then Some (Z.of_nat n - 48) else None.

Definition is_underscore (c : Ascii.ascii) : bool :=
  (Ascii.nat_of_ascii c =? 95)%nat.

Fixpoint lstrip (s : string) : string :=
  match s with
  | String c s' => if isspace c then lstrip s' else s
  | EmptyString => s
  end.

Fixpoint all_space (s : string) : bool :=
  match s with
  | String c s' => isspace c && all_space s'
  | EmptyString => true
  end.

(** The digits of a base-10 literal after the first one: more digits, each
    optionally preceded by one underscore.  Returns the value, the number
    of digits read and what is left. *)
Fixpoint more_digits (acc : Z) (cnt : nat) (s : string)
  : option (Z * nat * string) :=
  match s with
  | EmptyString => Some (acc, cnt, s)
  | String c s' =>
      match digit c with
      | Some d => more_digits (10 * acc + d) (S cnt) s'
      | None =>
          if is_underscore c then
            match s' with
            | String c2 s'' =>
                match digit c2 with
                | Some d => more_digits (10 * acc + d) (S cnt) s''
                | None => None
                end
            | EmptyString => None
            end
          else Some (acc, cnt, s)
      end
  end.

Definition digits (s : string) : option (Z * nat * string) :=
  match s with
  | String c s' =>
      match digit c with
      | Some d => more_digits d 1 s'
      | None => None
      end
  | EmptyString => None
  end.

(** [sys.get_int_max_str_digits()], CPython's default. *)
Definition int_max_str_digits : nat := 4300.

(** What [int(s)] makes of a [str]: white space around, an optional sign,
    then digits.  The limit on the number of digits is checked when the
    digits have been read, before what follows them is looked at. *)
Inductive Parsed :=
| value (n : Z)
| invalid_literal
| exceeds_limit (digits : nat).

Definition parse (s : string) : Parsed :=
  let s := lstrip s in
  let '(neg, s) :=
    match s with
    | String "-"%char s' => (true, s')
    | String "+"%char s' => (false, s')
    | _ => (false, s)
    end in
  match digits s with
  | Some (v, cnt, rest) =>
      if (int_max_str_digits <? cnt)%nat then exceeds_limit cnt
      else if all_space rest then value (if neg then - v else v)
      else invalid_literal
  | None => invalid_literal
  end.

(** [int(s)]; [None] stands for the [ValueError]. *)
Definition int (s : string) : option Z :=
  match parse s with
  | value n => Some n
  | _ => None
  end.

(** [repr(s)] for a [str] of code points below 256: single quotes, or
    double quotes when the string holds a single quote and no double one;
    the quote and the backslash escaped, [\t], [\n], [\r], and [\xhh] for
    what is not printable. *)
Definition quote1 : Ascii.ascii := Ascii.ascii_of_nat 39.
Definition quote2 : Ascii.ascii := Ascii.ascii_of_nat 34.
Definition backslash : Ascii.ascii := Ascii.ascii_of_nat 92.

Definition isprintable (c : Ascii.ascii) : bool :=
  let n := Ascii.nat_of_ascii c in
  ((32 <=? n) && (n <=? 126) || (161 <=? n) && negb (n =? 173))%nat.

Definition hexdigit (n : nat) : Ascii.ascii :=
  Ascii.ascii_of_nat (if (n <? 10)%nat then 48 + n else 87 + n).

Fixpoint contains (c : Ascii.ascii) (s : string) : bool :=
  match s with
  | EmptyString => false
  | String c' s' => Ascii.eqb c c' || contains c s'
  end.

Definition escaped (quote c : Ascii.ascii) : string :=
  let n := Ascii.nat_of_ascii c in
  if Ascii.eqb c quote || Ascii.eqb c backslash
  then String backslash (String c EmptyString)
  else if (n =? 9)%nat then String backslash "t"
  else if (n =? 10)%nat then String backslash "n"
  else if (n =? 13)%nat then String backslash "r"
  else if isprintable c then String c EmptyString
  else String backslash
         (String "x"%char (String (hexdigit (n / 16)) (String (hexdigit (n mod 16))
            EmptyString))).

Fixpoint escape_all (quote : Ascii.ascii) (s : string) : string :=
  match s with
  | EmptyString => EmptyString
  | String c s' => escaped quote c +:+ escape_all quote s'
  end.

Definition repr (s : string) : string :=
  let quote :=
    if contains quote1 s && negb (contains quote2 s) then quote2 else quote1 in
  String quote (escape_all quote s) +:+ String quote EmptyString.

(** [l[i]]: a negative index counts from the end; [None] stands for the
    [IndexError]. *)
Definition index {A} (l : list A) (i : Z) : option A :=
  if 0 <=? i then l !! Z.to_nat i
  else if 0 <=? Z.of_nat (length l) + i
       then l !! Z.to_nat (Z.of_nat (length l) + i)
       else None.

(** [sum(l)] and [max(l)] over sizes; [max] of an empty sequence raises. *)
Definition sum (l : list N) : N := fold_left N.add l 0%N.

Definition max (l : list N) : option N :=
  match l with
  | [] => None
  | x :: l' => Some (fold_left N.max l' x)
  end.

(** Tuples of two ints compare lexicographically. *)
Definition tuple_le (a b : Z * Z) : bool :=
  (a.1 <? b.1) || ((a.1 =? b.1) && (a.2 <=? b.2)).

(** [sorted(l, key=...)] on a list already decorated with its keys: a
    stable sort, so the result is the one stable arrangement whatever the
    algorithm; here by insertion. *)
Fixpoint insert_by {A} (x : (Z * Z) * A) (l : list ((Z * Z) * A))
  : list ((Z * Z) * A) :=
  match l with
  | [] => [x]
  | y :: l' => if tuple_le x.1 y.1 then x :: l else y :: insert_by x l'
  end.

Fixpoint sorted {A} (l : list ((Z * Z) * A)) : list ((Z * Z) * A) :=
  match l with
  | [] => []
  | x :: l' => insert_by x (sorted l')
  end.

End Py.

(** ** PIL images *)

Module PIL.

Definition RGB : Type := N * N * N.

(** An image in mode RGB: its size and its pixels. *)
Record Image := { width : N; height : N; getpixel : N -> N -> RGB }.

(** [Image.new('RGB', (w, h))]: a black canvas. *)
Definition new (w h : N) : Image :=
  {| width := w; height := h; getpixel := fun _ _ => (0, 0, 0)%N |}.

(** [canvas.paste(im, (x0, y0))]: the pixels of [im] replace those of the
    canvas in the box at [(x0, y0)]; the canvas keeps its size. *)
Definition paste (canvas im : Image) (box : N * N) : Image :=
  {| width := width canvas;
     height := height canvas;
     getpixel := fun x y =>
       if ((box.1 <=? x) && (x <? box.1 + width im)
           && (box.2 <=? y) && (y <? box.2 + height im))%N
       then getpixel im (x - box.1)%N (y - box.2)%N
       else getpixel canvas x y |}.

End PIL.

(** ** What the script asks of the outside *)

(** A [WebElement] is its id: [==] and [in] compare ids. *)
Definition WebElement : Type := string.

Inductive By :=
| CLASS_NAME (v : string)
| TAG_NAME (v : string)
| ID (v : string).

(** The parts a message's [content] list holds:
    [{"type": "image_url", "image_url": {"url": url}}] and
    [{"type": "text", "text": t}]. *)
Inductive Part :=
| image_url (url : string)
| text (t : string).

Inductive Role := system | user | assistant.

(** A message dict of the script: its [content] is a string or a reference
    to a list object, which lives in the heap and can be appended to in
    place while the dict holds it. *)
Inductive Content :=
| Str (s : string)
| Ref (l : nat).

Record Message := { role : Role; content : Content }.

(** A message as JSON, which is what leaves the process. *)
Inductive JContent :=
| JStr (s : string)
| JList (parts : list Part).

Record JMessage := { jrole : Role; jcontent : JContent }.

(** [requests.post] to the completions URL or the [OpenAI] client. *)
Inductive Transport := requests_post | openai_client.

Record ChatRequest := {
  via : Transport;
  model : string;
  messages : list JMessage;
  top_p : option Q;
  temperature : option Q
}.

(** The operations, each with the type of what it returns.  A chat
    operation returns the [content] string of the first choice. *)
Inductive Op : Type -> Type :=
| ChromeDriverManager_install : Op unit
| Chrome : Op unit
| get (url : string) : Op unit
| quit : Op unit
| sleep (secs : nat) : Op unit
| save_screenshot (filename : string) : Op bool
| execute_script_scrollBy : Op unit
| execute_script_pageYOffset : Op Z
| find_elements (by_ : By) : Op (list WebElement)
| wait_until_find_element (timeout : nat) (by_ : By) : Op WebElement
| element_find_elements (e : WebElement) (by_ : By) : Op (list WebElement)
| element_find_element (e : WebElement) (by_ : By) : Op WebElement
| location (e : WebElement) : Op (Z * Z)
| get_attribute (e : WebElement) (name : string) : Op string
| click (e : WebElement) : Op unit
| send_keys (e : WebElement) (keys : string) : Op unit
| select_by_value (e : WebElement) (value : string) : Op unit
| Image_open (path : string) : Op PIL.Image
| Image_save (im : PIL.Image) (path : string) : Op unit
| read_b64encode (path : string) : Op string
| chat_completions (req : ChatRequest) : Op string
| json_dump (msgs : list JMessage) (path : string) : Op unit.

(** An operation returns or raises inside the library. *)
Inductive Result (A : Type) :=
| Returned (a : A)
| Raised (what : string).
Arguments Returned {A} a.
Arguments Raised {A} what.

Inductive Level := ERROR.

(** What a run leaves behind, in order. *)
Inductive Event :=
| Call {A : Type} (op : Op A) (r : Result A)
| Log (level : Level) (msg : string).

(** The exceptions a run can end with: the script's own, and the
    libraries'. *)
Inductive Exn :=
| ValueError (msg : string)
| IndexError
| LibraryError (what : string).

Definition unpack_msg : string := "not enough values to unpack (expected 2, got 0)".
Definition max_msg : string := "max() arg is an empty sequence".

(** The message of the [ValueError] of [int(literal)], whose [%.200R]
    shows the first 200 characters of the [repr] of the argument. *)
Definition int_msg (literal : string) : string :=
  match Py.parse literal with
  | Py.exceeds_limit digits =>
      "Exceeds the limit (" +:+ pretty Py.int_max_str_digits
      +:+ " digits) for integer string conversion: value has "
      +:+ pretty digits
      +:+ " digits; use sys.set_int_max_str_digits() to increase the limit"
  | _ =>
      "invalid literal for int() with base 10: "
      +:+ String.substring 0 200 (Py.repr literal)
  end.

Inductive Outcome (A : Type) :=
| Ret (a : A)
| Exc (e : Exn)
| OutOfFuel.
Arguments Ret {A} a.
Arguments Exc {A} e.
Arguments OutOfFuel {A}.

(** The browser, the files and the API behind the operations. *)
Class Driver (W : Type) := perform : forall A, Op A -> W -> Result A * W.
Arguments perform {W _ A} op w.

(** ** Runs *)

Section Run.
Context {W : Type} `{!Driver W}.

Record Store := { world : W; heap : list (list Part) }.

Definition M (A : Type) : Type := Store -> Outcome A * Store * list Event.

Definition ret {A} (a : A) : M A := fun s => (Ret a, s, []).

Definition bind {A B} (m : M A) (k : A -> M B) : M B := fun s =>
  match m s with
  | (Ret a, s1, t1) =>
      match k a s1 with
      | (o, s2, t2) => (o, s2, t1 ++ t2)
      end
  | (Exc e, s1, t1) => (Exc e, s1, t1)
  | (OutOfFuel, s1, t1) => (OutOfFuel, s1, t1)
  end.

Definition raise {A} (e : Exn) : M A := fun s => (Exc e, s, []).

Definition out_of_fuel {A} : M A := fun s => (OutOfFuel, s, []).

(** [try: m  except: ...] with a bare [except]: every exception is
    caught. *)
Definition try_except {A} (m : M A) : M (Exn + A) := fun s =>
  match m s with
  | (Ret a, s1, t1) => (Ret (inr a), s1, t1)
  | (Exc e, s1, t1) => (Ret (inl e), s1, t1)
  | (OutOfFuel, s1, t1) => (OutOfFuel, s1, t1)
  end.

Definition call {A} (op : Op A) : M A := fun s =>
  match perform op (world s) with
  | (Returned a, w) => (Ret a, {| world := w; heap := heap s |}, [Call op (Returned a)])
  | (Raised what, w) =>
      (Exc (LibraryError what), {| world := w; heap := heap s |}, [Call op (Raised what)])
  end.

Definition log (level : Level) (msg : string) : M unit := fun s =>
  (Ret tt, s, [Log level msg]).

(** [[]]: a new list object. *)
Definition new_list : M nat := fun s =>
  (Ret (length (heap s)), {| world := world s; heap := heap s ++ [[]] |}, []).

(** [l.append(x)], in place. *)
Definition list_append (l : nat) (x : Part) : M unit := fun s =>
  (Ret tt, {| world := world s; heap := alter (fun c => c ++ [x]) l (heap s) |}, []).

Definition to_json (h : list (list Part)) (m : Message) : JMessage :=
  {| jrole := role m;
     jcontent := match content m with
                 | Str s => JStr s
                 | Ref l => JList (default [] (h !! l))
                 end |}.

(** The messages as they serialise now. *)
Definition dumps (msgs : list Message) : M (list JMessage) := fun s =>
  (Ret (map (to_json (heap s)) msgs), s, []).

End Run.

Arguments Store W : clear implicits.
Arguments M W A : clear implicits.

Notation "x <- m ;; k" := (bind m (fun x => k))
  (at level 100, m at next level, right associativity).

(** ** The script *)

Section Script.
Context {W : Type} `{!Driver W}.

(** [[f(x) for x in l]] and its like: [f] on each item, in order. *)
Fixpoint for_list {A B} (f : A -> M W B) (l : list A) : M W (list B) :=
  match l with
  | [] => ret []
  | x :: l' =>
      y <- f x ;;
      ys <- for_list f l' ;;
      ret (y :: ys)
  end.

(** [for i in range(...)] carrying the variables the body assigns. *)
Fixpoint for_range {S} (range : list nat) (body : nat -> S -> M W S) (s : S)
  : M W S :=
  match range with
  | [] => ret s
  | i :: range' =>
      s' <- body i s ;;
      for_range range' body s'
  end.

(** One turn of the [while True] of [take_screenshots_scroll], up to the
    reading of the new scroll position. *)
Definition scroll_round (filepath : string) (screenshots : list string)
  : M W (list string * Z) :=
  let filename := filepath +:+ "_" +:+ pretty (length screenshots) +:+ ".png" in
  _ <- call (save_screenshot filename) ;;
  let screenshots := screenshots ++ [filename] in
  _ <- call execute_script_scrollBy ;;
  _ <- call (sleep 2) ;;
  new_height <- call execute_script_pageYOffset ;;
  ret (screenshots, new_height).

Fixpoint scroll_loop (fuel : nat) (filepath : string)
    (screenshots : list string) (last_height : Z) : M W (list string) :=
  match fuel with
  | O => out_of_fuel
  | S fuel' =>
      r <- scroll_round filepath screenshots ;;
      let '(screenshots, new_height) := r in
      if new_height =? last_height then ret screenshots
      else scroll_loop fuel' filepath screenshots new_height
  end.

Definition take_screenshots_scroll (fuel : nat) (filepath : string)
  : M W (list string) :=
  scroll_loop fuel filepath [] 0.

(** The [for img in imgs] of [stitch_images_vertically]: the canvas and
    [y_offset] after the pastes. *)
Definition paste_all (imgs : list PIL.Image) (stitched_image : PIL.Image)
    (y_offset : N) : PIL.Image * N :=
  fold_left
    (fun st img => (PIL.paste st.1 img (0%N, st.2), (st.2 + PIL.height img)%N))
    imgs (stitched_image, y_offset).

(** [stitch_images_vertically] between the opening of the files and the
    saving of the result. *)
Definition stitched (imgs : list PIL.Image) : Exn + PIL.Image :=
  match imgs with
  | [] => inl (ValueError unpack_msg)
  | _ :: _ =>
      let widths := map PIL.width imgs in
      let heights := map PIL.height imgs in
      let total_height := Py.sum heights in
      match Py.max widths with
      | None => inl (ValueError max_msg)
      | Some max_width =>
          let stitched_image := PIL.new max_width total_height in
          inr (paste_all imgs stitched_image 0%N).1
      end
  end.

Definition stitch_images_vertically (images : list string)
    (output_filename : string) : M W unit :=
  imgs <- for_list (fun x => call (Image_open x)) images ;;
  match stitched imgs with
  | inl e => raise e
  | inr stitched_image => call (Image_save stitched_image output_filename)
  end.

Definition encode_image (image_path : string) : M W string :=
  call (read_b64encode image_path).

Definition answer_survey_choice (messages : list Message) : M W Z :=
  payload <- dumps messages ;;
  reply <- call (chat_completions
                   {| via := requests_post; model := "gpt-4o";
                      messages := payload;
                      top_p := Some (1 # 2)%Q; temperature := Some (1 # 2)%Q |}) ;;
  match Py.int reply with
  | Some n => ret n
  | None => raise (ValueError (int_msg reply))
  end.

Definition answer_survey_other (messages : list Message) : M W string :=
  payload <- dumps messages ;;
  call (chat_completions
          {| via := requests_post; model := "gpt-4o";
             messages := payload;
             top_p := Some (1 # 2)%Q; temperature := Some (1 # 2)%Q |}).

Definition summarize_system : string :=
  "You are a helpful assistant that summarizes the answer given to a survey question.           You will be given the html code of the question and the answer given by the respondent. You have to summarize the answer.".

(** [answer] arrives formatted, as the f-string has it. *)
Definition summarize_answer (html_question answer : string) : M W string :=
  call (chat_completions
          {| via := openai_client; model := "gpt-4o-mini";
             messages :=
               [ {| jrole := system; jcontent := JStr summarize_system |};
                 {| jrole := user;
                    jcontent := JStr (html_question +:+ " " +:+ Py.LF +:+ Py.LF
                      +:+ " I answered this question with the following answer: "
                      +:+ answer) |} ];
             top_p := None; temperature := None |}).

Definition question_text (html_question : string) : Part :=
  text (html_question +:+ " " +:+ Py.LF +:+ Py.LF
        +:+ " Answer this question as if you were the respondent. Only return your answer.").

(** The lines the five branches share, from [content.append] to the
    appending of the summary: [ask] is the branch's API function and [fmt]
    formats its answer.  Returns the answer, [messages] and [content]. *)
Definition exchange {A} (ask : list Message -> M W A) (fmt : A -> string)
    (html_question : string) (messages : list Message) (content : nat)
  : M W (A * list Message * nat) :=
  _ <- list_append content (question_text html_question) ;;
  let messages := messages ++ [ {| role := user; content := Ref content |} ] in
  answer <- ask messages ;;
  let messages := removelast messages in
  content <- new_list ;;
  answer_summary <- summarize_answer html_question (fmt answer) ;;
  let messages :=
    messages ++ [ {| role := assistant; content := Str answer_summary |} ] in
  ret (answer, messages, content).

Definition branch_cbc_task (element : WebElement)
    (messages : list Message) (content : nat) : M W (list Message * nat) :=
  html_question <- call (get_attribute element "innerHTML") ;;
  r <- exchange answer_survey_choice Py.str html_question messages content ;;
  let '(answer, messages, content) := r in
  buttons <- call (element_find_elements element (CLASS_NAME "task_select_button")) ;;
  match Py.index buttons (answer - 1) with
  | None => raise IndexError
  | Some button =>
      _ <- call (click button) ;;
      _ <- call (sleep 1) ;;
      ret (messages, content)
  end.

Definition branch_select (element : WebElement)
    (messages : list Message) (content : nat) : M W (list Message * nat) :=
  html_question <- call (get_attribute element "outerHTML") ;;
  r <- exchange answer_survey_choice Py.str html_question messages content ;;
  let '(answer, messages, content) := r in
  _ <- call (select_by_value element (Py.str answer)) ;;
  _ <- call (sleep 1) ;;
  ret (messages, content).

Definition branch_question_numeric (element : WebElement)
    (messages : list Message) (content : nat) : M W (list Message * nat) :=
  html_question <- call (get_attribute element "outerHTML") ;;
  r <- exchange answer_survey_other id html_question messages content ;;
  let '(answer, messages, content) := r in
  input <- call (element_find_element element (TAG_NAME "input")) ;;
  _ <- call (send_keys input answer) ;;
  _ <- call (sleep 1) ;;
  ret (messages, content).

Definition branch_response_column (element : WebElement)
    (messages : list Message) (content : nat) : M W (list Message * nat) :=
  html_question <- call (get_attribute element "innerHTML") ;;
  r <- exchange answer_survey_choice Py.str html_question messages content ;;
  let '(answer, messages, content) := r in
  _ <- call (click element) ;;
  _ <- call (sleep 1) ;;
  ret (messages, content).

Definition branch_textarea (element : WebElement)
    (messages : list Message) (content : nat) : M W (list Message * nat) :=
  html_question <- call (get_attribute element "innerHTML") ;;
  r <- exchange answer_survey_other id html_question messages content ;;
  let '(answer, messages, content) := r in
  _ <- call (send_keys element answer) ;;
  _ <- call (sleep 1) ;;
  ret (messages, content).

(** The [if]/[elif] chain of the question loop: each test asks the page
    again. *)
Definition answer_question (element : WebElement)
    (messages : list Message) (content : nat) : M W (list Message * nat) :=
  l <- call (find_elements (CLASS_NAME "cbc_task")) ;;
  if bool_decide (element ∈ l) then branch_cbc_task element messages content
  else
  l <- call (find_elements (TAG_NAME "select")) ;;
  if bool_decide (element ∈ l) then branch_select element messages content
  else
  l <- call (find_elements (CLASS_NAME "question.numeric")) ;;
  if bool_decide (element ∈ l) then branch_question_numeric element messages content
  else
  l <- call (find_elements (CLASS_NAME "response_column")) ;;
  if bool_decide (element ∈ l) then branch_response_column element messages content
  else
  l <- call (find_elements (TAG_NAME "textarea")) ;;
  if bool_decide (element ∈ l) then branch_textarea element messages content
  else ret (messages, content).

Definition get_position (element : WebElement) : M W (Z * Z) :=
  location <- call (location element) ;;
  ret (location.2, location.1).

Definition stitched_filename (page_index : nat) : string :=
  "stitched/survey_screenshot_" +:+ pretty page_index +:+ ".png".

(** The screenshots of the page and their stitching. *)
Definition capture (fuel : nat) (page_index : nat) : M W (list string) :=
  screenshots <- take_screenshots_scroll fuel "screenshots/screenshot" ;;
  _ <- stitch_images_vertically screenshots (stitched_filename page_index) ;;
  ret screenshots.

(** The questions of the page: [all_questions] and [sorted_elements]. *)
Definition gather (page_index : nat) (content : nat)
  : M W (list WebElement * list WebElement) :=
  q1 <- call (find_elements (CLASS_NAME "cbc_task")) ;;
  q2 <- call (find_elements (TAG_NAME "select")) ;;
  q3 <- call (find_elements (CLASS_NAME "question.numeric")) ;;
  q4 <- call (find_elements (CLASS_NAME "response_column")) ;;
  q5 <- call (find_elements (TAG_NAME "textarea")) ;;
  let all_questions := q1 ++ q2 ++ q3 ++ q4 ++ q5 in
  base64_image <- encode_image (stitched_filename page_index) ;;
  _ <- list_append content (image_url ("data:image/jpeg;base64," +:+ base64_image)) ;;
  keys <- for_list get_position all_questions ;;
  ret (all_questions, map snd (Py.sorted (zip keys all_questions))).

(** The [if total_questions == 0: ... else: for i in range(...)]. *)
Definition answer_all (all_questions sorted_elements : list WebElement)
    (messages : list Message) (content : nat) : M W (list Message) :=
  let total_questions := length all_questions in
  if (total_questions =? 0)%nat then
    ret (messages ++ [ {| role := user; content := Ref content |} ])
  else
    r <- for_range (seq 0 total_questions)
           (fun i st =>
              match sorted_elements !! i with
              | None => raise IndexError
              | Some element => answer_question element st.1 st.2
              end)
           (messages, content) ;;
    ret r.1.

(** The body of the page loop up to the dump of the thread. *)
Definition survey_page (fuel : nat) (page_index : nat)
    (messages : list Message) : M W (list string * list Message) :=
  content <- new_list ;;
  screenshots <- capture fuel page_index ;;
  qs <- gather page_index content ;;
  messages <- answer_all qs.1 qs.2 messages content ;;
  payload <- dumps messages ;;
  _ <- call (json_dump payload "messages.json") ;;
  ret (screenshots, messages).

(** The [try] block at the end of the page loop. *)
Definition next_page : M W (Exn + unit) :=
  try_except (next_button <- call (wait_until_find_element 10 (ID "next_button")) ;;
       call (click next_button)).

Fixpoint survey_loop (fuel : nat) (page_index : nat)
    (messages : list Message) : M W (list string) :=
  match fuel with
  | O => out_of_fuel
  | S fuel' =>
      r <- survey_page fuel page_index messages ;;
      let '(screenshots, messages) := r in
      n <- next_page ;;
      match n with
      | inl _ =>
          _ <- log ERROR ("Next button not found on page " +:+ pretty page_index +:+ ".") ;;
          ret screenshots
      | inr _ =>
          _ <- call (sleep 1) ;;
          survey_loop fuel' (S page_index) messages
      end
  end.

Definition system_prompt
    (age gender Country_origin ethnicity Country student_text work_status : string)
  : string :=
  "You are answering a survey. You will be given html code of the question.                     You have to answer the question as if you are a "
  +:+ age
  +:+ " year old "
  +:+ gender
  +:+ "                     born in "
  +:+ Country_origin
  +:+ " with ethnicity "
  +:+ ethnicity
  +:+ " who lives in "
  +:+ Country
  +:+ ", Nordrhein-Westfalen.                     "
  +:+ student_text
  +:+ " and your work status is: "
  +:+ work_status
  +:+ ". So:                     - Age: "
  +:+ age
  +:+ "                     - Gender: "
  +:+ gender
  +:+ "                     - Country of origin: "
  +:+ Country_origin
  +:+ "                     - German state: Nordrhein-Westfalen                     - Ethnicity: "
  +:+ ethnicity
  +:+ "                     - Country: "
  +:+ Country
  +:+ "                     - Student: "
  +:+ student_text
  +:+ "                     - Work status: "
  +:+ work_status
  +:+ "                     Only return your answer and nothing else.                    IF it is a multuple choise question, Only return the number of the answer you choose, like '1', '2', '3' or '4', etc.                    IF it is a text question, return the text you would write as a response.                    ONLY return the answer.                    ONLY return the answer on the html question provided.                    DO NOT answer any other questions that are in the screenshot, ONLY the html question provided.".

Definition fill_survey (fuel : nat)
    (age gender Country_origin ethnicity Country student_text work_status : string)
  : M W (list string) :=
  survey_loop fuel 0
    [ {| role := system;
         content := Str (system_prompt age gender Country_origin ethnicity
                           Country student_text work_status) |} ].

(** A row of [user_data.csv], each cell as it formats. *)
Record Row := {
  Age : string;
  Sex : string;
  Country_of_birth : string;
  Ethnicity : string;
  Country_of_residence : string;
  Student_status : string;
  Employment_status : string
}.

(** The body of the loop over the rows. *)
Definition survey_row (fuel : nat) (row : Row) : M W unit :=
  let student_text :=
    if String.eqb (Student_status row) "Yes" then "You are a student"
    else "You are not a student" in
  _ <- call ChromeDriverManager_install ;;
  _ <- call Chrome ;;
  _ <- call (get "https://sustainabilityde.sawtoothsoftware.com/") ;;
  _ <- call (sleep 3) ;;
  _ <- fill_survey fuel (Age row) (Sex row) (Country_of_birth row)
         (Ethnicity row) (Country_of_residence row) student_text
         (Employment_status row) ;;
  _ <- call quit ;;
  call (sleep 3).

Fixpoint survey_rows (fuel : nat) (data : list Row) : M W unit :=
  match data with
  | [] => ret tt
  | row :: data' =>
      _ <- survey_row fuel row ;;
      survey_rows fuel data'
  end.

End Script.

(** ** A scripted driver

    A driver for running the script on a concrete scenario: its world is
    the list of the values the outside will return, in the order they are
    asked for.  An operation that returns nothing succeeds and leaves the
    list alone, [save_screenshot] returns [True]; every other operation
    takes the next value, and raises when the value is [raises], of
    another kind, or missing. *)

Module Scripted.

Inductive Value :=
| number (z : Z)
| str (s : string)
| elements (l : list WebElement)
| element (e : WebElement)
| position (x y : Z)
| image (im : PIL.Image)
| raises (what : string).

Definition next {A} (pick : Value -> option A) (w : list Value)
  : Result A * list Value :=
  match w with
  | [] => (Raised "nothing scripted", [])
  | raises what :: w' => (Raised what, w')
  | v :: w' =>
      match pick v with
      | Some a => (Returned a, w')
      | None => (Raised "scripted value of another kind", w')
      end
  end.

Definition run {A} (op : Op A) : list Value -> Result A * list Value :=
  match op in Op A return list Value -> Result A * list Value with
  | ChromeDriverManager_install | Chrome | get _ | quit | sleep _
  | execute_script_scrollBy | click _ | send_keys _ _ | select_by_value _ _
  | Image_save _ _ | json_dump _ _ => fun w => (Returned tt, w)
  | save_screenshot _ => fun w => (Returned true, w)
  | execute_script_pageYOffset =>
      next (fun v => match v with number z => Some z | _ => None end)
  | find_elements _ | element_find_elements _ _ =>
      next (fun v => match v with elements l => Some l | _ => None end)
  | wait_until_find_element _ _ | element_find_element _ _ =>
      next (fun v => match v with element e => Some e | _ => None end)
  | location _ =>
      next (fun v => match v with position x y => Some (x, y) | _ => None end)
  | get_attribute _ _ | read_b64encode _ | chat_completions _ =>
      next (fun v => match v with str s => Some s | _ => None end)
  | Image_open _ =>
      next (fun v => match v with image im => Some im | _ => None end)
  end.

#[global] Instance driver : Driver (list Value) := @run.

Definition start (script : list Value) : Store (list Value) :=
  {| world := script; heap := [] |}.

(** A 4 x 3 screenshot, red all over. *)
Definition shot : PIL.Image :=
  {| PIL.width := 4; PIL.height := 3;
     PIL.getpixel := fun _ _ => (255, 0, 0)%N |}.

(** A page with one [cbc_task] question of three buttons and no next
    button; the page does not scroll and the model replies [reply]. *)
Definition cbc_page (reply : string) : list Value :=
  [ number 0; image shot;
    elements ["q1"]; elements []; elements []; elements []; elements [];
    str "iVBORw0KGgo="; position 10 20;
    elements ["q1"]; str "<div>Which one?</div>"; str reply;
    str "The respondent chose an option.";
    elements ["b1"; "b2"; "b3"];
    raises "TimeoutException" ].

(** A page whose one question is found when the page is gathered and is
    gone when its turn comes: the five queries then return nothing. *)
Definition vanishing_page : list Value :=
  [ number 0; image shot;
    elements ["q1"]; elements []; elements []; elements []; elements [];
    str "iVBORw0KGgo="; position 10 20;
    elements []; elements []; elements []; elements []; elements [];
    raises "TimeoutException" ].

(** What the page returns while two questions are gathered, a dropdown
    at (10, 200) and a text area above it at (10, 50). *)
Definition two_questions : list Value :=
  [ elements []; elements ["q1"]; elements []; elements []; elements ["q2"];
    str "iVBORw0KGgo="; position 10 200; position 10 50 ].

(** The thread a survey starts with, for some respondent. *)
Definition thread0 : list Message :=
  [ {| role := system;
       content := Str (system_prompt "34" "Female" "Germany" "White" "Germany"
                         "You are not a student" "Full-Time") |} ].

End Scripted.

(** ** Notions the properties are stated with *)

Section Notions.
Context {W : Type} `{!Driver W}.

(** Scrolling on and on: [n] turns of the loop of
    [take_screenshots_scroll] without its exit test, with the scroll
    positions read. *)
Fixpoint scroll_rounds (n : nat) (filepath : string)
    (screenshots : list string) : M W (list string * list Z) :=
  match n with
  | O => ret (screenshots, [])
  | S n' =>
      r <- scroll_round filepath screenshots ;;
      r' <- scroll_rounds n' filepath r.1 ;;
      ret (r'.1, r.2 :: r'.2)
  end.


End Notions.

(** The file name of the [i]-th screenshot. *)
Definition screenshot_name (filepath : string) (i : nat) : string :=
  filepath +:+ "_" +:+ pretty i +:+ ".png".

(** What one turn of the scroll loop leaves in the trace, given what
    [save_screenshot] and the reading of the position returned. *)
Definition round_events (filepath : string) (i : nat) (saved : bool) (h : Z)
  : list Event :=
  [ Call (save_screenshot (screenshot_name filepath i)) (Returned saved);
    Call execute_script_scrollBy (Returned tt);
    Call (sleep 2) (Returned tt);
    Call execute_script_pageYOffset (Returned h) ].

Fixpoint rounds_events (filepath : string) (i : nat) (saved : list bool)
    (hs : list Z) : list Event :=
  match saved, hs with
  | b :: saved', h :: hs' =>
      round_events filepath i b h ++ rounds_events filepath (S i) saved' hs'
  | _, _ => []
  end.

(** The first index at which a reading repeats the one before it, when
    the position before the first reading is [last]. *)
Fixpoint first_repeat (last : Z) (hs : list Z) : option nat :=
  match hs with
  | [] => None
  | h :: hs' =>
      if h =? last then Some O
      else option_map S (first_repeat h hs')
  end.

(** The key [sorted] is given: [(y, x)] of a location [(x, y)]. *)
Definition position_key (loc : Z * Z) : Z * Z := (loc.2, loc.1).

(** *** The order of the effects

    The stages a run of [fill_survey] goes through, page after page, and
    the events each stage admits.  A stage admits only what is listed;
    an operation that raises ends the run, except inside the [try] at
    the end of the page. *)
Inductive Stage :=
| Capturing (p : nat)   (** the screenshots of page [p] are being taken *)
| Stitching (p : nat)   (** the screenshots are being opened *)
| Questions (p : nat)   (** the stitched image is saved; between questions *)
| Asked (p : nat)       (** the request for an answer has been made *)
| Summarised (p : nat)  (** and the request for its summary *)
| Injected (p : nat)    (** the answer is in the form *)
| Dumped (p : nat)      (** the thread is in [messages.json] *)
| NextFound (p : nat)   (** the next button has been found *)
| Advanced (p : nat)    (** and clicked *)
| NextFailed (p : nat)  (** the [try] block raised *)
| Finished              (** the error is logged, the loop left *)
| Halted.               (** an exception is on its way out *)

Definition next_button_msg (p : nat) : string :=
  "Next button not found on page " +:+ pretty p +:+ ".".

(** Where [st'] is reached if the operation returned. *)
Definition unless_raised {A} (r : Result A) (st' : Stage) : option Stage :=
  match r with
  | Returned _ => Some st'
  | Raised _ => Some Halted
  end.

Definition in_try {A} (r : Result A) (p : nat) (st' : Stage) : option Stage :=
  match r with
  | Returned _ => Some st'
  | Raised _ => Some (NextFailed p)
  end.

Definition step (st : Stage) (ev : Event) : option Stage :=
  match ev with
  | Log ERROR msg =>
      match st with
      | NextFailed p =>
          if String.eqb msg (next_button_msg p) then Some Finished else None
      | _ => None
      end
  | @Call _ op r =>
      match st with
      | Capturing p =>
          match op with
          | save_screenshot _ | execute_script_scrollBy
          | execute_script_pageYOffset => unless_raised r (Capturing p)
          | sleep secs =>
              if (secs =? 2)%nat then unless_raised r (Capturing p) else None
          | Image_open _ => unless_raised r (Stitching p)
          | _ => None
          end
      | Stitching p =>
          match op with
          | Image_open _ => unless_raised r (Stitching p)
          | Image_save _ path =>
              if String.eqb path (stitched_filename p)
              then unless_raised r (Questions p) else None
          | _ => None
          end
      | Questions p =>
          match op with
          | find_elements _ | read_b64encode _ | location _
          | get_attribute _ _ => unless_raised r (Questions p)
          | chat_completions req =>
              match via req with
              | requests_post => unless_raised r (Asked p)
              | openai_client => None
              end
          | json_dump _ path =>
              if String.eqb path "messages.json"
              then unless_raised r (Dumped p) else None
          | _ => None
          end
      | Asked p =>
          match op with
          | chat_completions req =>
              match via req with
              | openai_client => unless_raised r (Summarised p)
              | requests_post => None
              end
          | _ => None
          end
      | Summarised p =>
          match op with
          | element_find_elements _ _
          | element_find_element _ _ => unless_raised r (Summarised p)
          | click _ | send_keys _ _
          | select_by_value _ _ => unless_raised r (Injected p)
          | _ => None
          end
      | Injected p =>
          match op with
          | sleep secs =>
              if (secs =? 1)%nat then unless_raised r (Questions p) else None
          | _ => None
          end
      | Dumped p =>
          match op with
          | wait_until_find_element _ (ID v) =>
              if String.eqb v "next_button" then in_try r p (NextFound p)
              else None
          | _ => None
          end
      | NextFound p =>
          match op with
          | click _ => in_try r p (Advanced p)
          | _ => None
          end
      | Advanced p =>
          match op with
          | sleep secs =>
              if (secs =? 1)%nat then unless_raised r (Capturing (S p)) else None
          | _ => None
          end
      | NextFailed _ | Finished | Halted => None
      end
  end.

Fixpoint walk (st : Stage) (t : list Event) : option Stage :=
  match t with
  | [] => Some st
  | ev :: t' =>
      match step st ev with
      | Some st' => walk st' t'
      | None => None
      end
  end.





(** *** What a trace shows *)

(** The writing of an answer into the form. *)
Inductive Injection :=
| Clicked (e : WebElement)
| Typed (e : WebElement) (keys : string)
| Selected (e : WebElement) (value : string).

Definition injection_of (ev : Event) : option Injection :=
  match ev with
  | Call (click e) _ => Some (Clicked e)
  | Call (send_keys e keys) _ => Some (Typed e keys)
  | Call (select_by_value e value) _ => Some (Selected e value)
  | _ => None
  end.

(** The requests for an answer, made through [requests.post]. *)
Definition answer_request_of (ev : Event) : option ChatRequest :=
  match ev with
  | Call (chat_completions req) _ =>
      match via req with
      | requests_post => Some req
      | openai_client => None
      end
  | _ => None
  end.

(** What a chat request got back, by transport. *)
Definition reply_of (tr : Transport) (ev : Event) : option string :=
  match ev with
  | @Call _ op r =>
      match op in Op A return Result A -> option string with
      | chat_completions req => fun r =>
          match r, via req, tr with
          | Returned reply, requests_post, requests_post => Some reply
          | Returned reply, openai_client, openai_client => Some reply
          | _, _, _ => None
          end
      | _ => fun _ => None
      end r
  | _ => None
  end.

(** A query of the page that returned. *)
Definition query_of (ev : Event) : option (By * list WebElement) :=
  match ev with
  | @Call _ op r =>
      match op in Op A return Result A -> option (By * list WebElement) with
      | find_elements by_ => fun r =>
          match r with
          | Returned l => Some (by_, l)
          | Raised _ => None
          end
      | _ => fun _ => None
      end r
  | _ => None
  end.

(** The children an element's query returned. *)
Definition children_of (ev : Event) : option (list WebElement) :=
  match ev with
  | @Call _ op r =>
      match op in Op A return Result A -> option (list WebElement) with
      | element_find_elements _ _ => fun r =>
          match r with
          | Returned l => Some l
          | Raised _ => None
          end
      | _ => fun _ => None
      end r
  | _ => None
  end.

(** A reading of an attribute that returned: the element, the attribute
    and its value. *)
Definition reading_of (ev : Event) : option (WebElement * string * string) :=
  match ev with
  | @Call _ op r =>
      match op in Op A return Result A -> option (WebElement * string * string) with
      | get_attribute e name => fun r =>
          match r with
          | Returned v => Some (e, name, v)
          | Raised _ => None
          end
      | _ => fun _ => None
      end r
  | _ => None
  end.

(** The requests for a summary, made through the client. *)
Definition summary_request_of (ev : Event) : option ChatRequest :=
  match ev with
  | Call (chat_completions req) _ =>
      match via req with
      | openai_client => Some req
      | requests_post => None
      end
  | _ => None
  end.

(** The searches below an element, for several and for one, each with
    what came of it. *)
Definition fetch_of (ev : Event)
  : option (WebElement * By * Result (list WebElement)) :=
  match ev with
  | @Call _ op r =>
      match op in Op A
            return Result A -> option (WebElement * By * Result (list WebElement))
      with
      | element_find_elements e by_ => fun r => Some (e, by_, r)
      | _ => fun _ => None
      end r
  | _ => None
  end.

Definition find_of (ev : Event) : option (WebElement * By * Result WebElement) :=
  match ev with
  | @Call _ op r =>
      match op in Op A
            return Result A -> option (WebElement * By * Result WebElement)
      with
      | element_find_element e by_ => fun r => Some (e, by_, r)
      | _ => fun _ => None
      end r
  | _ => None
  end.

(** What an operation raised. *)
Definition raised_of (ev : Event) : option string :=
  match ev with
  | Call _ (Raised what) => Some what
  | _ => None
  end.

Definition injections (t : list Event) : list Injection := omap injection_of t.
Definition readings (t : list Event) : list (WebElement * string * string) :=
  omap reading_of t.
Definition summary_requests (t : list Event) : list ChatRequest :=
  omap summary_request_of t.
Definition fetches (t : list Event)
  : list (WebElement * By * Result (list WebElement)) := omap fetch_of t.
Definition finds (t : list Event) : list (WebElement * By * Result WebElement) :=
  omap find_of t.
Definition raisings (t : list Event) : list string := omap raised_of t.
Definition answer_requests (t : list Event) : list ChatRequest :=
  omap answer_request_of t.
Definition answers (t : list Event) : list string := omap (reply_of requests_post) t.
Definition summaries (t : list Event) : list string := omap (reply_of openai_client) t.
Definition queries (t : list Event) : list (By * list WebElement) := omap query_of t.
Definition children (t : list Event) : list (list WebElement) := omap children_of t.

(** The five branches of the question loop. *)
Inductive Branch :=
| cbc_task
| select
| question_numeric
| response_column
| textarea.

Definition branch_of (by_ : By) : option Branch :=
  match by_ with
  | CLASS_NAME v =>
      if String.eqb v "cbc_task" then Some cbc_task
      else if String.eqb v "question.numeric" then Some question_numeric
      else if String.eqb v "response_column" then Some response_column
      else None
  | TAG_NAME v =>
      if String.eqb v "select" then Some select
      else if String.eqb v "textarea" then Some textarea
      else None
  | ID _ => None
  end.

(** The branches that get their answer from [answer_survey_choice]. *)
Definition uses_choice (b : Branch) : bool :=
  match b with
  | cbc_task | select | response_column => true
  | question_numeric | textarea => false
  end.

(** The branch of the first query of the trace that returned the
    element. *)
Fixpoint first_with (element : WebElement) (qs : list (By * list WebElement))
  : option Branch :=
  match qs with
  | [] => None
  | q :: qs' =>
      if bool_decide (element ∈ q.2) then branch_of q.1
      else first_with element qs'
  end.

Definition taken (element : WebElement) (t : list Event) : option Branch :=
  first_with element (queries t).

Definition data_url (base64_image : string) : string :=
  "data:image/jpeg;base64," +:+ base64_image.

(** A message that carries a question: a user message with a text
    part. *)
Definition is_text (x : Part) : bool :=
  match x with
  | text _ => true
  | image_url _ => false
  end.

Definition carries_question (m : JMessage) : bool :=
  match jrole m, jcontent m with
  | user, JList parts => existsb is_text parts
  | _, _ => false
  end.

(** What was written to [messages.json], dump after dump. *)
Definition dump_of (ev : Event) : option (list JMessage) :=
  match ev with
  | Call (json_dump msgs _) _ => Some msgs
  | _ => None
  end.

Definition dumped (t : list Event) : list (list JMessage) := omap dump_of t.

(** A dump without a question in it. *)
Definition clean (payload : list JMessage) : Prop :=
  Forall (fun m => carries_question m = false) payload.

(** An event that is neither a request for an answer nor a dump. *)
Definition silent (ev : Event) : Prop :=
  answer_request_of ev = None /\ dump_of ev = None.

(** The thread between questions: a message's content is a string, or a
    list object older than [bound] that holds one image and nothing
    else. *)
Definition thread_ok (bound : nat) (h : list (list Part))
    (msgs : list Message) : Prop :=
  Forall (fun m =>
            match content m with
            | Str _ => True
            | Ref l => (l < bound)%nat /\ exists url, h !! l = Some [image_url url]
            end) msgs.

(** The queries of the [if]/[elif] chain, in its order. *)
Definition question_queries : list By :=
  [ CLASS_NAME "cbc_task"; TAG_NAME "select"; CLASS_NAME "question.numeric";
    CLASS_NAME "response_column"; TAG_NAME "textarea" ].

(** The attribute a branch reads the question from. *)
Definition attribute_of (b : Branch) : string :=
  match b with
  | cbc_task | response_column | textarea => "innerHTML"
  | select | question_numeric => "outerHTML"
  end.

(** The answer a branch has when the reply is in, as it formats: the
    number [int()] makes of the reply, or the reply itself; [None] where
    [int()] raises. *)
Definition answer_of (b : Branch) (reply : string) : option string :=
  if uses_choice b then option_map Py.str (Py.int reply) else Some reply.

(** The two messages of a request for a summary. *)
Definition summary_messages (html_question answer : string) : list JMessage :=
  [ {| jrole := system; jcontent := JStr summarize_system |};
    {| jrole := user;
       jcontent := JStr (html_question +:+ " " +:+ Py.LF +:+ Py.LF
                         +:+ " I answered this question with the following answer: "
                         +:+ answer) |} ].

(** What a branch does to the form once the answer and its summary are
    in, as the trace [t] and the outcome [o] show it.  [cbc_task] fetches
    the buttons of the element and clicks the one at Python index
    [n - 1]; [question numeric] finds the input of the element and types
    the reply into it; the others act on the element itself. *)
Definition written {A} (b : Branch) (element : WebElement) (reply : string)
    (o : Outcome A) (t : list Event) : Prop :=
  match b with
  | cbc_task =>
      match fetches t with
      | [(e, by_, r)] =>
          e = element /\ by_ = CLASS_NAME "task_select_button"
          /\ match r, Py.int reply with
             | Returned buttons, Some n =>
                 match Py.index buttons (n - 1) with
                 | Some button => injections t = [Clicked button]
                 | None => injections t = [] /\ o = Exc IndexError
                 end
             | Raised what, _ => injections t = [] /\ o = Exc (LibraryError what)
             | _, None => False
             end
      | _ => False
      end
  | select =>
      match Py.int reply with
      | Some n => injections t = [Selected element (Py.str n)]
      | None => False
      end
  | response_column => injections t = [Clicked element]
  | question_numeric =>
      match finds t with
      | [(e, by_, r)] =>
          e = element /\ by_ = TAG_NAME "input"
          /\ match r with
             | Returned input => injections t = [Typed input reply]
             | Raised what => injections t = [] /\ o = Exc (LibraryError what)
             end
      | _ => False
      end
  | textarea => injections t = [Typed element reply]
  end.

(** The summary of an answer, in the thread and as JSON. *)
Definition summary_message (summary : string) : Message :=
  {| role := assistant; content := Str summary |}.

Definition summary_json (summary : string) : JMessage :=
  {| jrole := assistant; jcontent := JStr summary |}.

(** The user message a question is asked with: what the content buffer
    holds, then the question. *)
Definition question_json (parts : list Part) (html_question : string) : JMessage :=
  {| jrole := user; jcontent := JList (parts ++ [question_text html_question]) |}.

(** The messages of the [i]-th request for an answer made on a page:
    the thread as it serialised when the page began, the summaries of the
    answers given on the page so far, and the question; the page's image,
    at [url], goes with the first request only. *)
Definition page_request (thread : list JMessage) (url : string)
    (page_summaries : list string) (i : nat) (html_question : string)
  : list JMessage :=
  thread
  ++ map summary_json (take i page_summaries)
  ++ [ question_json (if (i =? 0)%nat then [image_url url] else [])
         html_question ].

(** The images a list of messages carries, in order. *)
Definition image_of (x : Part) : option string :=
  match x with
  | image_url url => Some url
  | text _ => None
  end.

Definition images_of (m : JMessage) : list string :=
  match jcontent m with
  | JList parts => omap image_of parts
  | JStr _ => []
  end.

Definition image_urls (payload : list JMessage) : list string :=
  concat (map images_of payload).

(** An event that reads no attribute, makes no chat request and no
    dump. *)
Definition plain (ev : Event) : Prop :=
  reading_of ev = None
  /\ answer_request_of ev = None /\ summary_request_of ev = None
  /\ reply_of openai_client ev = None /\ dump_of ev = None.

(** A run that an operation ended: the outcome is the library's
    exception, and the operation is the only one that raised. *)
Definition ended_by_library {A} (o : Outcome A) (t : list Event) : Prop :=
  exists what, o = Exc (LibraryError what) /\ raisings t = [what].

(** The order [sorted] puts decorated items in. *)
Definition key_le {A} (a b : (Z * Z) * A) : Prop := Py.tuple_le a.1 b.1 = true.

(** *** Scripted pages *)

(** What the outside returns while the questions of a page with a
    dropdown [q1] at (10, 200) and a text area [q2] above it at (10, 50)
    are answered, from the capture to the dump: [q2] first, with the
    reply typed in, then [q1], with the value 3 selected; no next
    button. *)
Definition two_question_page : list Scripted.Value :=
  [ Scripted.number 0; Scripted.image Scripted.shot ]
  ++ Scripted.two_questions
  ++ [ Scripted.elements []; Scripted.elements ["q1"]; Scripted.elements [];
       Scripted.elements []; Scripted.elements ["q2"];
       Scripted.str "<textarea></textarea>"; Scripted.str "None so far.";
       Scripted.str "The respondent has no remarks.";
       Scripted.elements []; Scripted.elements ["q1"];
       Scripted.str "<select></select>"; Scripted.str "3";
       Scripted.str "The respondent chose the third option.";
       Scripted.raises "TimeoutException" ].

(** A page without questions, with its next button. *)
Definition welcome_page : list Scripted.Value :=
  [ Scripted.number 0; Scripted.image Scripted.shot;
    Scripted.elements []; Scripted.elements []; Scripted.elements [];
    Scripted.elements []; Scripted.elements [];
    Scripted.str "V2VsY29tZQ=="; Scripted.element "next_button" ].

(** *** Reading runs *)

Section Reading.
Context {W : Type} `{!Driver W}.

(** The weakest-precondition reading of a run: [spec m s Q] says the run
    of [m] from [s] ends in an outcome, a store and a trace that [Q]
    accepts. *)
Definition spec {A} (m : M W A) (s : Store W)
    (Q : Outcome A -> Store W -> list Event -> Prop) : Prop :=
  Q (m s).1.1 (m s).1.2 (m s).2.

(** [follows m st P]: the events of any run of [m] are admitted from stage
    [st] on; if the run returns [a], the stage reached satisfies [P a],
    and if it raises, the exception is not the one of the empty unpack. *)
Definition follows {A} (m : M W A) (st : Stage) (P : A -> Stage -> Prop) : Prop :=
  forall s, spec m s (fun o _ t =>
    exists st', walk st t = Some st'
      /\ match o with
         | Ret a => P a st'
         | Exc e => e <> ValueError unpack_msg
         | OutOfFuel => True
         end).

(** [quiet m]: the runs of [m] leave the heap alone and make no request
    for an answer and no dump. *)
Definition quiet {A} (m : M W A) : Prop :=
  forall s, spec m s (fun _ s' t => heap s' = heap s /\ Forall silent t).


End Reading.

(** *** Further notions *)

(** The colour of a new canvas. *)
Definition black : PIL.RGB := (0, 0, 0)%N.

(** The path every page's screenshots are saved under. *)
Definition screenshots_path : string := "screenshots/screenshot".

(** The failure that ends the page loop: the wait for the next button, or
    the click on it, raised. *)
Definition next_step_failed (ev : Event) : Prop :=
  match ev with
  | @Call _ op r =>
      match r with
      | Raised _ =>
          match op with
          | wait_until_find_element _ (ID v) => v = "next_button"
          | click _ => True
          | _ => False
          end
      | Returned _ => False
      end
  | Log _ _ => False
  end.

(** How many dumps lie behind a stage: one per page before its page, and
    one more once the page's own dump is made. *)
Definition dumps_behind (st : Stage) : nat :=
  match st with
  | Capturing p | Stitching p | Questions p | Asked p | Summarised p
  | Injected p => p
  | Dumped p | NextFound p | Advanced p | NextFailed p => S p
  | Finished | Halted => 0
  end.

(** The operations of the loop over the rows. *)
Definition browser_op (ev : Event) : bool :=
  match ev with
  | Call ChromeDriverManager_install _ | Call Chrome _ | Call (get _) _
  | Call quit _ => true
  | _ => false
  end.

Definition started (ev : Event) : bool :=
  match ev with
  | Call Chrome (Returned _) => true
  | _ => false
  end.

Definition closed (ev : Event) : bool :=
  match ev with
  | Call quit (Returned _) => true
  | _ => false
  end.

Definition quit_called (ev : Event) : bool :=
  match ev with
  | Call quit _ => true
  | _ => false
  end.

Fixpoint count (f : Event -> bool) (t : list Event) : nat :=
  match t with
  | [] => 0
  | ev :: t' => (if f ev then 1 else 0) + count f t'
  end.

(** The files an event may touch: screenshots are saved and opened under
    the screenshot names, stitched images saved and read back under the
    stitched names, and the thread dumped to [messages.json]. *)
Definition file_ok (ev : Event) : Prop :=
  match ev with
  | Call (save_screenshot f) _ | Call (Image_open f) _ =>
      exists i, f = screenshot_name screenshots_path i
  | Call (Image_save _ f) _ | Call (read_b64encode f) _ =>
      exists p, f = stitched_filename p
  | Call (json_dump _ f) _ => f = "messages.json"
  | _ => True
  end.

(** The two kinds of chat request: for an answer, to gpt-4o with both
    sampling parameters at 0.5; for a summary, to gpt-4o-mini with the
    client's defaults and two messages, both plain strings. *)
Definition request_ok (ev : Event) : Prop :=
  match ev with
  | Call (chat_completions req) _ =>
      match via req with
      | requests_post =>
          model req = "gpt-4o"
          /\ top_p req = Some (1 # 2)%Q /\ temperature req = Some (1 # 2)%Q
      | openai_client =>
          model req = "gpt-4o-mini"
          /\ top_p req = None /\ temperature req = None
          /\ exists question_and_answer,
               messages req
               = [ {| jrole := system; jcontent := JStr summarize_system |};
                   {| jrole := user; jcontent := JStr question_and_answer |} ]
      end
  | _ => True
  end.

Definition disciplined (ev : Event) : Prop := file_ok ev /\ request_ok ev.

(** A list of names of screenshots. *)
Definition screenshot_names (l : list string) : Prop :=
  Forall (fun f => exists i, f = screenshot_name screenshots_path i) l.

Section Emitting.
Context {W : Type} `{!Driver W}.

(** [emits P m R]: every event of every run of [m] satisfies [P], and what
    [m] returns satisfies [R]. *)
Definition emits {A} (P : Event -> Prop) (m : M W A) (R : A -> Prop) : Prop :=
  forall s, spec m s (fun o _ t =>
    Forall P t /\ match o with Ret a => R a | _ => True end).

End Emitting.

(** An event that neither queries the page for questions nor writes into
    the form. *)
Definition mute (ev : Event) : Prop :=
  query_of ev = None /\ injection_of ev = None.

(** The message a page without questions leaves in the thread. *)
Definition image_message (content : nat) : Message :=
  {| role := user; content := Ref content |}.

(** A list of JSON messages that opens with [sys] and holds no other
    system message. *)
Definition opens_with (sys : JMessage) (payload : list JMessage) : Prop :=
  exists rest,
    payload = sys :: rest /\ Forall (fun m => jrole m <> system) rest.

(** The same for a thread of the script. *)
Definition thread_opens_with (sys : Message) (msgs : list Message) : Prop :=
  exists rest,
    msgs = sys :: rest /\ Forall (fun m => role m <> system) rest.

(** The system message of a respondent, in the thread and as JSON. *)
Definition system_message
    (age gender Country_origin ethnicity Country student_text work_status : string)
  : Message :=
  {| role := system;
     content := Str (system_prompt age gender Country_origin ethnicity Country
                       student_text work_status) |}.

Definition system_json
    (age gender Country_origin ethnicity Country student_text work_status : string)
  : JMessage :=
  {| jrole := system;
     jcontent := JStr (system_prompt age gender Country_origin ethnicity Country
                         student_text work_status) |}.

(** * Properties *)

(** ** The built-ins on small inputs *)

Example int_accepts :
  Py.int "2" = Some 2 /\ Py.int " 42 " = Some 42 /\ Py.int "-7" = Some (-7)
  /\ Py.int "+1_0" = Some 10 /\ Py.int "007" = Some 7.
Proof. repeat split; reflexivity. Qed.

Example int_rejects :
  Py.int "" = None /\ Py.int "3." = None /\ Py.int "Option 2" = None
  /\ Py.int "1__0" = None /\ Py.int "_1" = None /\ Py.int "- 3" = None.
Proof. repeat split; reflexivity. Qed.

(** The separators 28 to 31 are white space for [str.isspace] and not for
    [int()]; the next line (133) and the no-break space (160) are for
    both. *)
Example int_white_space :
  Py.int (String (Ascii.ascii_of_nat 28) "5") = None
  /\ Py.int ("5" +:+ String (Ascii.ascii_of_nat 31) "") = None
  /\ Py.int (String (Ascii.ascii_of_nat 133) "5" +:+ String (Ascii.ascii_of_nat 160) "")
     = Some 5
  /\ Py.int ("5" +:+ Py.LF) = Some 5.
Proof. repeat split; reflexivity. Qed.

Example int_messages :
  int_msg "Option 2" = "invalid literal for int() with base 10: 'Option 2'"
  /\ int_msg "" = "invalid literal for int() with base 10: ''"
  /\ int_msg "it's" = "invalid literal for int() with base 10: "
                      +:+ String Py.quote2 "it's" +:+ String Py.quote2 ""
  /\ int_msg ("3" +:+ Py.LF +:+ "x")
     = "invalid literal for int() with base 10: '3"
       +:+ String Py.backslash "nx'".
Proof. repeat split; reflexivity. Qed.

Lemma int_msg_not_unpack (literal : string) :
  ValueError (int_msg literal) <> ValueError unpack_msg.
Proof.
  unfold int_msg. destruct (Py.parse literal); intros [= H]; discriminate H.
Qed.

Example str_formats : Py.str 12 = "12" /\ Py.str 0 = "0" /\ Py.str (-5) = "-5".
Proof. repeat split; reflexivity. Qed.

Example index_counts_from_the_end :
  Py.index ["b1"; "b2"; "b3"] 2 = Some "b3"
  /\ Py.index ["b1"; "b2"; "b3"] (-1) = Some "b3"
  /\ Py.index ["b1"; "b2"; "b3"] (-3) = Some "b1"
  /\ Py.index ["b1"; "b2"; "b3"] 3 = None
  /\ Py.index ["b1"; "b2"; "b3"] (-4) = None.
Proof. repeat split; reflexivity. Qed.

Example sorted_is_stable :
  Py.sorted [ ((2, 1), "a"); ((1, 5), "b"); ((2, 1), "c"); ((1, 2), "d") ]
  = [ ((1, 2), "d"); ((1, 5), "b"); ((2, 1), "a"); ((2, 1), "c") ].
Proof. reflexivity. Qed.

(** A page with one question, from the first screenshot to the logging of
    the missing next button: the operations and their order. *)
Example one_page_run :
  let run := fill_survey 2 "34" "Female" "Germany" "White" "Germany"
               "You are not a student" "Full-Time"
               (Scripted.start (Scripted.cbc_page "2")) in
  run.1.1 = Ret ["screenshots/screenshot_0.png"]
  /\ length run.2 = 23%nat
  /\ head run.2
     = Some (Call (save_screenshot "screenshots/screenshot_0.png") (Returned true))
  /\ injections run.2 = [Clicked "b2"]
  /\ length (dumped run.2) = 1%nat
  /\ last run.2 = Some (Log ERROR "Next button not found on page 0.").
Proof. cbv zeta. repeat split; reflexivity. Qed.

(** ** Arithmetic of the stitching *)

Lemma fold_left_Nadd (l : list N) (a : N) :
  fold_left N.add l a = (a + fold_left N.add l 0)%N.
Proof.
  revert a. induction l as [|x l IH]; intros a; cbn [fold_left].
  - lia.
  - rewrite (IH (a + x)%N), (IH (0 + x)%N). lia.
Qed.

Lemma Py_sum_cons (x : N) (l : list N) : Py.sum (x :: l) = (x + Py.sum l)%N.
Proof. unfold Py.sum. simpl. apply fold_left_Nadd. Qed.

Lemma fold_left_Nmax_ge (l : list N) (a : N) :
  (a <= fold_left N.max l a)%N /\ Forall (fun x => (x <= fold_left N.max l a)%N) l.
Proof.
  revert a. induction l as [|x l IH]; intros a; simpl.
  - split; [lia | constructor].
  - destruct (IH (N.max a x)) as [H1 H2]. split; [lia|].
    constructor; [lia | exact H2].
Qed.

Lemma fold_left_Nmax_in (l : list N) (a : N) :
  fold_left N.max l a = a \/ In (fold_left N.max l a) l.
Proof.
  revert a. induction l as [|x l IH]; intros a; simpl.
  - now left.
  - destruct (IH (N.max a x)) as [H | H].
    + rewrite H. destruct (N.max_spec a x) as [[_ E] | [_ E]]; rewrite E; auto.
    + auto.
Qed.

(** [max] returns a greatest item of a non-empty list. *)
Lemma Py_max_spec (l : list N) (m : N) :
  Py.max l = Some m -> In m l /\ Forall (fun x => (x <= m)%N) l.
Proof.
  destruct l as [|a l]; simpl; [discriminate|].
  intros [= <-].
  destruct (fold_left_Nmax_ge l a) as [H1 H2].
  split.
  - destruct (fold_left_Nmax_in l a) as [-> | H]; auto.
  - constructor; assumption.
Qed.

Lemma paste_all_cons img imgs canvas y :
  paste_all (img :: imgs) canvas y
  = paste_all imgs (PIL.paste canvas img (0%N, y)) (y + PIL.height img)%N.
Proof. reflexivity. Qed.

Lemma paste_all_size imgs canvas y :
  PIL.width (paste_all imgs canvas y).1 = PIL.width canvas
  /\ PIL.height (paste_all imgs canvas y).1 = PIL.height canvas
  /\ (paste_all imgs canvas y).2 = (y + Py.sum (map PIL.height imgs))%N.
Proof.
  revert canvas y. induction imgs as [|img imgs IH]; intros canvas y.
  - simpl. unfold Py.sum. simpl. repeat split. lia.
  - rewrite paste_all_cons.
    destruct (IH (PIL.paste canvas img (0%N, y)) (y + PIL.height img)%N)
      as (Hw & Hh & Hy).
    rewrite Hw, Hh, Hy. simpl map. rewrite Py_sum_cons. simpl.
    repeat split. lia.
Qed.

(** Rows above the offset are out of reach of the pastes. *)
Lemma paste_all_above imgs canvas y0 x y :
  (y < y0)%N ->
  PIL.getpixel (paste_all imgs canvas y0).1 x y = PIL.getpixel canvas x y.
Proof.
  revert canvas y0. induction imgs as [|img imgs IH]; intros canvas y0 Hy.
  - reflexivity.
  - rewrite paste_all_cons, IH by lia. simpl.
    replace (y0 <=? y)%N with false by (symmetry; apply N.leb_gt; lia).
    now rewrite andb_false_r.
Qed.

(** Each image ends up with its left edge at [x = 0] and its top edge at
    the sum of the heights before it. *)
Lemma paste_all_pixel imgs canvas y0 i img x y :
  imgs !! i = Some img ->
  (x < PIL.width img)%N -> (y < PIL.height img)%N ->
  PIL.getpixel (paste_all imgs canvas y0).1 x
    (y0 + Py.sum (map PIL.height (take i imgs)) + y)%N
  = PIL.getpixel img x y.
Proof.
  revert canvas y0 i. induction imgs as [|im imgs IH]; intros canvas y0 i Hi Hx Hy.
  - destruct i; discriminate.
  - rewrite paste_all_cons. destruct i as [|i]; simpl in Hi.
    + injection Hi as ->. simpl take. simpl map.
      rewrite paste_all_above by (unfold Py.sum; simpl; lia).
      unfold Py.sum. simpl.
      replace (0 <=? x)%N with true by (symmetry; apply N.leb_le; lia).
      replace (x <? 0 + PIL.width img)%N with true
        by (symmetry; apply N.ltb_lt; lia).
      replace (y0 <=? y0 + 0 + y)%N with true
        by (symmetry; apply N.leb_le; lia).
      replace (y0 + 0 + y <? y0 + PIL.height img)%N with true
        by (symmetry; apply N.ltb_lt; lia).
      simpl. f_equal; lia.
    + simpl take. simpl map. rewrite Py_sum_cons.
      specialize (IH (PIL.paste canvas im (0%N, y0)) (y0 + PIL.height im)%N
                     i Hi Hx Hy).
      rewrite <- IH. f_equal. lia.
Qed.

(** ** Runs: how [bind], [call] and the loops unfold *)

Section Runs.
Context {W : Type} `{!Driver W}.

Lemma run_bind {A B} (m : M W A) (k : A -> M W B) s o s' t :
  bind m k s = (o, s', t) ->
  (exists a s1 t1 t2,
      m s = (Ret a, s1, t1) /\ k a s1 = (o, s', t2) /\ t = t1 ++ t2)
  \/ (exists e, m s = (Exc e, s', t) /\ o = Exc e)
  \/ (m s = (OutOfFuel, s', t) /\ o = OutOfFuel).
Proof.
  unfold bind. destruct (m s) as [[[a|e|] s1] t1].
  - destruct (k a s1) as [[o2 s2] t2] eqn:Hk. intros [= <- <- <-].
    left. now exists a, s1, t1, t2.
  - intros [= <- <- <-]. right. left. now exists e.
  - intros [= <- <- <-]. right. now right.
Qed.

Lemma bind_Ret {A B} (m : M W A) (k : A -> M W B) s a s1 t1 :
  m s = (Ret a, s1, t1) ->
  bind m k s = ((k a s1).1.1, (k a s1).1.2, t1 ++ (k a s1).2).
Proof. unfold bind. intros ->. now destruct (k a s1) as [[? ?] ?]. Qed.

(** What [m] emitted comes first in what [bind m k] emits. *)
Lemma bind_trace {A B} (m : M W A) (k : A -> M W B) s :
  exists rest, (bind m k s).2 = (m s).2 ++ rest.
Proof.
  unfold bind. destruct (m s) as [[[a|e|] s1] t1]; simpl.
  - destruct (k a s1) as [[o2 s2] t2]. now exists t2.
  - exists []. now rewrite app_nil_r.
  - exists []. now rewrite app_nil_r.
Qed.

Lemma run_call {A} (op : Op A) s o s' t :
  call op s = (o, s', t) ->
  heap s' = heap s
  /\ exists r, perform op (world s) = (r, world s')
       /\ t = [Call op r]
       /\ o = match r with
              | Returned a => Ret a
              | Raised what => Exc (LibraryError what)
              end.
Proof.
  unfold call. destruct (perform op (world s)) as [[a|what] w];
    intros [= <- <- <-]; (split; [reflexivity|]); eexists; eauto.
Qed.

(** A list comprehension over one operation: the calls are made in the
    order of the list, one per item. *)
Lemma for_list_call {A B} (op : A -> Op B) (l : list A) s ys s' t :
  for_list (fun x => call (op x)) l s = (Ret ys, s', t) ->
  length ys = length l
  /\ t = zip_with (fun x y => Call (op x) (Returned y)) l ys
  /\ heap s' = heap s.
Proof.
  revert s ys s' t. induction l as [|x l IH]; intros s ys s' t; simpl.
  - intros [= <- <- <-]. auto.
  - intros H0. apply run_bind in H0 as [(y & s1 & t1 & t2 & Hc & Hk & ->) | [(e & _ & [=]) | (_ & [=])]].
    apply run_bind in Hk as [(ys' & s2 & t3 & t4 & Hl & Hr & ->) | [(e & _ & [=]) | (_ & [=])]].
    injection Hr as <- <- <-.
    apply run_call in Hc as (Hh & r & _ & -> & Ho).
    destruct r as [b|]; [injection Ho as <- | discriminate].
    apply IH in Hl as (Hlen & -> & Hh').
    simpl. rewrite Hlen, app_nil_r. repeat split; congruence.
Qed.


Lemma spec_ret {A} (a : A) s (Q : Outcome A -> Store W -> list Event -> Prop) :
  Q (Ret a) s [] -> spec (ret a) s Q.
Proof. exact (fun H => H). Qed.

Lemma spec_raise {A} e s (Q : Outcome A -> Store W -> list Event -> Prop) :
  Q (Exc e) s [] -> spec (raise e) s Q.
Proof. exact (fun H => H). Qed.

Lemma spec_out_of_fuel {A} s (Q : Outcome A -> Store W -> list Event -> Prop) :
  Q OutOfFuel s [] -> spec out_of_fuel s Q.
Proof. exact (fun H => H). Qed.

Lemma spec_bind {A B} (m : M W A) (k : A -> M W B) s
    (Q : Outcome B -> Store W -> list Event -> Prop) :
  spec m s (fun o s1 t1 =>
    match o with
    | Ret a => spec (k a) s1 (fun o' s2 t2 => Q o' s2 (t1 ++ t2))
    | Exc e => Q (Exc e) s1 t1
    | OutOfFuel => Q OutOfFuel s1 t1
    end) ->
  spec (bind m k) s Q.
Proof.
  unfold spec, bind. destruct (m s) as [[[a|e|] s1] t1]; simpl; auto.
  now destruct (k a s1) as [[o2 s2] t2].
Qed.

Lemma spec_mono {A} (m : M W A) s (Q Q' : Outcome A -> Store W -> list Event -> Prop) :
  spec m s Q -> (forall o s' t, Q o s' t -> Q' o s' t) -> spec m s Q'.
Proof. unfold spec. auto. Qed.

Lemma spec_call {A} (op : Op A) s (Q : Outcome A -> Store W -> list Event -> Prop) :
  (forall a w, perform op (world s) = (Returned a, w) ->
     Q (Ret a) {| world := w; heap := heap s |} [Call op (Returned a)]) ->
  (forall what w, perform op (world s) = (Raised what, w) ->
     Q (Exc (LibraryError what)) {| world := w; heap := heap s |}
       [Call op (Raised what)]) ->
  spec (call op) s Q.
Proof.
  unfold spec, call. intros H1 H2.
  destruct (perform op (world s)) as [[a|what] w]; simpl; auto.
Qed.

Lemma spec_try_except {A} (m : M W A) s (Q : Outcome (Exn + A) -> Store W -> list Event -> Prop) :
  spec m s (fun o s1 t1 =>
    match o with
    | Ret a => Q (Ret (inr a)) s1 t1
    | Exc e => Q (Ret (inl e)) s1 t1
    | OutOfFuel => Q OutOfFuel s1 t1
    end) ->
  spec (try_except m) s Q.
Proof. unfold spec, try_except. now destruct (m s) as [[[a|e|] s1] t1]. Qed.

Lemma spec_run {A} (m : M W A) s (Q : Outcome A -> Store W -> list Event -> Prop) o s' t :
  spec m s Q -> m s = (o, s', t) -> Q o s' t.
Proof. unfold spec. intros H E. now rewrite E in H. Qed.

Lemma spec_dumps msgs s (Q : Outcome (list JMessage) -> Store W -> list Event -> Prop) :
  Q (Ret (map (to_json (heap s)) msgs)) s [] -> spec (dumps msgs) s Q.
Proof. exact (fun H => H). Qed.

Lemma spec_new_list s (Q : Outcome nat -> Store W -> list Event -> Prop) :
  Q (Ret (length (heap s))) {| world := world s; heap := heap s ++ [[]] |} [] ->
  spec new_list s Q.
Proof. exact (fun H => H). Qed.

Lemma spec_list_append l x s (Q : Outcome unit -> Store W -> list Event -> Prop) :
  Q (Ret tt) {| world := world s; heap := alter (fun c => c ++ [x]) l (heap s) |} [] ->
  spec (list_append l x) s Q.
Proof. exact (fun H => H). Qed.

Lemma spec_log level msg s (Q : Outcome unit -> Store W -> list Event -> Prop) :
  Q (Ret tt) s [Log level msg] -> spec (log level msg) s Q.
Proof. exact (fun H => H). Qed.

End Runs.

(** One step of a proof by weakest preconditions. *)
Ltac wp_step :=
  lazymatch goal with
  | |- spec (bind _ _) _ _ => apply spec_bind
  | |- spec (ret _) _ _ => apply spec_ret
  | |- spec (raise _) _ _ => apply spec_raise
  | |- spec out_of_fuel _ _ => apply spec_out_of_fuel
  | |- spec (call _) _ _ => apply spec_call; intros
  | |- spec (dumps _) _ _ => apply spec_dumps
  | |- spec new_list _ _ => apply spec_new_list
  | |- spec (list_append _ _) _ _ => apply spec_list_append
  | |- spec (log _ _) _ _ => apply spec_log
  | |- spec (try_except _) _ _ => apply spec_try_except
  | |- spec (match ?x with (_, _) => _ end) _ _ => destruct x
  | |- spec (if ?b then _ else _) _ _ => destruct b eqn:?
  end.

(** Runs a straight-line function to its ends, one goal per end. *)
Ltac wp :=
  repeat first
    [ wp_step
    | progress cbn beta iota zeta
    | lazymatch goal with
      | |- spec (match ?x with _ => _ end) _ _ => destruct x eqn:?
      end ].

(** ** Stitching *)

Section Stitching.
Context {W : Type} `{!Driver W}.

Lemma call_trace {A} (op : Op A) (s : Store W) :
  exists r, (call op s).2 = [Call op r].
Proof.
  unfold call. destruct (perform op (world s)) as [[a|what] w]; eexists; reflexivity.
Qed.

Lemma stitched_nonempty (imgs : list PIL.Image) :
  imgs <> [] ->
  exists stitched_image,
    stitched imgs = inr stitched_image
    /\ In (PIL.width stitched_image) (map PIL.width imgs)
    /\ Forall (fun im => (PIL.width im <= PIL.width stitched_image)%N) imgs
    /\ PIL.height stitched_image = Py.sum (map PIL.height imgs)
    /\ forall i img x y,
         imgs !! i = Some img ->
         (x < PIL.width img)%N -> (y < PIL.height img)%N ->
         PIL.getpixel stitched_image x
           (Py.sum (map PIL.height (take i imgs)) + y)%N
         = PIL.getpixel img x y.
Proof.
  intros Hne. destruct imgs as [|im imgs']; [congruence|].
  unfold stitched.
  destruct (Py.max (map PIL.width (im :: imgs'))) as [max_width|] eqn:Hmax;
    [|discriminate].
  apply Py_max_spec in Hmax as [Hin Hle].
  set (canvas := PIL.new max_width (Py.sum (map PIL.height (im :: imgs')))).
  destruct (paste_all_size (im :: imgs') canvas 0%N) as (Hw & Hh & _).
  eexists. split; [reflexivity|].
  rewrite Hw, Hh. simpl PIL.width. simpl PIL.height.
  repeat split.
  - exact Hin.
  - rewrite Forall_map in Hle. exact Hle.
  - intros i img x y Hi Hx Hy.
    rewrite <- (paste_all_pixel (im :: imgs') canvas 0%N i img x y Hi Hx Hy).
    f_equal.
Qed.

End Stitching.

(** C3.  Given a non-empty list of files that open, [stitch_images_vertically]
    opens them in the order of the list and saves one image: its width is
    the greatest of the widths, its height the sum of the heights, and the
    pixels of the i-th image lie in it from [x = 0] and from [y] = the sum
    of the heights of the images before. *)
Theorem stitch_images_vertically_spec {W : Type} `{!Driver W}
    (images : list string) (output_filename : string) (s : Store W)
    (imgs : list PIL.Image) (s1 : Store W) (t1 : list Event) :
  images <> [] ->
  for_list (fun x => call (Image_open x)) images s = (Ret imgs, s1, t1) ->
  exists stitched_image r,
    t1 = zip_with (fun x im => Call (Image_open x) (Returned im)) images imgs
    /\ length imgs = length images
    /\ (stitch_images_vertically images output_filename s).2
       = t1 ++ [Call (Image_save stitched_image output_filename) r]
    /\ In (PIL.width stitched_image) (map PIL.width imgs)
    /\ Forall (fun im => (PIL.width im <= PIL.width stitched_image)%N) imgs
    /\ PIL.height stitched_image = Py.sum (map PIL.height imgs)
    /\ forall i img x y,
         imgs !! i = Some img ->
         (x < PIL.width img)%N -> (y < PIL.height img)%N ->
         PIL.getpixel stitched_image x
           (Py.sum (map PIL.height (take i imgs)) + y)%N
         = PIL.getpixel img x y.
Proof.
  intros Hne Hopen.
  destruct (for_list_call Image_open images s imgs s1 t1 Hopen) as (Hlen & Ht & _).
  assert (Himgs : imgs <> []).
  { intros ->. destruct images; [congruence | discriminate]. }
  destruct (stitched_nonempty imgs Himgs) as (st & Hst & Hin & Hle & Hh & Hpx).
  destruct (call_trace (Image_save st output_filename) s1) as [r Hr].
  exists st, r. repeat split; try assumption.
  unfold stitch_images_vertically.
  rewrite (bind_Ret _ _ _ _ _ _ Hopen), Hst. simpl. now rewrite Hr.
Qed.

Lemma stitch_images_vertically_spec_witness :
  exists stitched_image,
    PIL.width stitched_image = 4%N /\ PIL.height stitched_image = 6%N
    /\ PIL.getpixel stitched_image 1 4 = (255, 0, 0)%N.
Proof.
  destruct (stitch_images_vertically_spec
              ["screenshots/screenshot_0.png"; "screenshots/screenshot_1.png"]
              "stitched/survey_screenshot_0.png"
              (Scripted.start [Scripted.image Scripted.shot; Scripted.image Scripted.shot])
              [Scripted.shot; Scripted.shot]
              (Scripted.start [])
              [Call (Image_open "screenshots/screenshot_0.png") (Returned Scripted.shot);
               Call (Image_open "screenshots/screenshot_1.png") (Returned Scripted.shot)])
    as (im & r & _ & _ & _ & Hw & _ & Hh & Hpx).
  - discriminate.
  - reflexivity.
  - exists im. split; [|split].
    + simpl in Hw. destruct Hw as [<- | [<- | []]]; reflexivity.
    + rewrite Hh. reflexivity.
    + apply (Hpx 1%nat Scripted.shot 1%N 1%N); [reflexivity | reflexivity | reflexivity].
Defined.

(** ** The scroll loop *)

Section Scrolling.
Context {W : Type} `{!Driver W}.

Lemma scroll_round_Ret filepath screenshots (s : Store W) shots h s' t :
  scroll_round filepath screenshots s = (Ret (shots, h), s', t) ->
  shots = screenshots ++ [screenshot_name filepath (length screenshots)]
  /\ heap s' = heap s
  /\ exists saved, t = round_events filepath (length screenshots) saved h.
Proof.
  unfold scroll_round, bind, call, ret, round_events, screenshot_name.
  destruct (perform (save_screenshot _) (world s)) as [[b|?] w1]; simpl; [|discriminate].
  destruct (perform execute_script_scrollBy w1) as [[[]|?] w2]; simpl; [|discriminate].
  destruct (perform (sleep 2) w2) as [[[]|?] w3]; simpl; [|discriminate].
  destruct (perform execute_script_pageYOffset w3) as [[z|?] w4]; simpl; [|discriminate].
  intros [= <- <- <- <-]. repeat split. now exists b.
Qed.

Lemma scroll_rounds_S n filepath screenshots (s : Store W) shots1 h s1 t1 :
  scroll_round filepath screenshots s = (Ret (shots1, h), s1, t1) ->
  scroll_rounds (S n) filepath screenshots s
  = match scroll_rounds n filepath shots1 s1 with
    | (Ret r', s2, t2) => (Ret (r'.1, h :: r'.2), s2, t1 ++ (t2 ++ []))
    | (Exc e, s2, t2) => (Exc e, s2, t1 ++ t2)
    | (OutOfFuel, s2, t2) => (OutOfFuel, s2, t1 ++ t2)
    end.
Proof.
  intros Hr. simpl. unfold bind at 1. rewrite Hr. simpl.
  unfold bind. destruct (scroll_rounds n filepath shots1 s1) as [[[r'|e|] s2] t2];
    reflexivity.
Qed.

(** What [n] turns return and leave in the trace. *)
Lemma scroll_rounds_Ret n filepath screenshots (s : Store W) shots hs s' t :
  scroll_rounds n filepath screenshots s = (Ret (shots, hs), s', t) ->
  length hs = n
  /\ shots = screenshots
             ++ map (screenshot_name filepath) (seq (length screenshots) n)
  /\ exists saved,
       length saved = n
       /\ t = rounds_events filepath (length screenshots) saved hs.
Proof.
  revert screenshots s shots hs s' t.
  induction n as [|n IH]; intros screenshots s shots hs s' t.
  - simpl. intros [= <- <- <- <-]. rewrite app_nil_r.
    repeat split. now exists [].
  - intros Hn.
    destruct (scroll_round filepath screenshots s) as [[[[shots1 h]|e|] s1] t1] eqn:Hr.
    + rewrite (scroll_rounds_S _ _ _ _ _ _ _ _ Hr) in Hn.
      destruct (scroll_rounds n filepath shots1 s1) as [[[r'|e|] s2] t2] eqn:Hn';
        [|discriminate|discriminate].
      destruct r' as [shots' hs']. simpl in Hn. injection Hn as <- <- <- <-.
      apply scroll_round_Ret in Hr as (-> & _ & b & ->).
      apply IH in Hn' as (Hlen & -> & saved & Hs & ->).
      rewrite length_app in *. simpl length in *.
      replace (length screenshots + 1)%nat with (S (length screenshots)) in * by lia.
      repeat split.
      * simpl. now rewrite Hlen.
      * rewrite <- app_assoc. reflexivity.
      * exists (b :: saved). split; [simpl; now rewrite Hs|].
        rewrite app_nil_r. reflexivity.
    + simpl in Hn. unfold bind in Hn. rewrite Hr in Hn. discriminate.
    + simpl in Hn. unfold bind in Hn. rewrite Hr in Hn. discriminate.
Qed.

Lemma scroll_loop_S fuel filepath screenshots last (s : Store W) shots1 h s1 t1 :
  scroll_round filepath screenshots s = (Ret (shots1, h), s1, t1) ->
  scroll_loop (S fuel) filepath screenshots last s
  = if h =? last then (Ret shots1, s1, t1 ++ [])
    else ((scroll_loop fuel filepath shots1 h s1).1.1,
          (scroll_loop fuel filepath shots1 h s1).1.2,
          t1 ++ (scroll_loop fuel filepath shots1 h s1).2).
Proof.
  intros Hr. simpl. unfold bind. rewrite Hr.
  destruct (h =? last); [reflexivity|].
  now destruct (scroll_loop fuel filepath shots1 h s1) as [[? ?] ?].
Qed.

(** The loop stops at the first reading that repeats the one before. *)
Lemma scroll_loop_stops n filepath screenshots last (s : Store W)
    shots hs s' t i :
  scroll_rounds n filepath screenshots s = (Ret (shots, hs), s', t) ->
  first_repeat last hs = Some i ->
  exists shots_i s_i t_i,
    scroll_rounds (S i) filepath screenshots s
    = (Ret (shots_i, take (S i) hs), s_i, t_i)
    /\ forall fuel, (i < fuel)%nat ->
         scroll_loop fuel filepath screenshots last s = (Ret shots_i, s_i, t_i).
Proof.
  revert screenshots last s shots hs s' t i.
  induction n as [|n IH]; intros screenshots last s shots hs s' t i Hn Hrep.
  - simpl in Hn. injection Hn as <- <- <- <-. discriminate.
  - destruct (scroll_round filepath screenshots s) as [[[[shots1 h]|e|] s1] t1] eqn:Hr;
      [| simpl in Hn; unfold bind in Hn; rewrite Hr in Hn; discriminate ..].
    rewrite (scroll_rounds_S _ _ _ _ _ _ _ _ Hr) in Hn.
    destruct (scroll_rounds n filepath shots1 s1) as [[[[shots' hs']|e|] s2] t2] eqn:Hn';
      [|discriminate|discriminate].
    simpl in Hn. injection Hn as <- <- <- <-.
    simpl in Hrep. destruct (h =? last) eqn:Hh.
    + injection Hrep as <-.
      exists shots1, s1, (t1 ++ []). split.
      * rewrite (scroll_rounds_S _ _ _ _ _ _ _ _ Hr). simpl. now rewrite take_0.
      * intros [|fuel] Hf; [lia|].
        rewrite (scroll_loop_S _ _ _ _ _ _ _ _ _ Hr), Hh. reflexivity.
    + destruct (first_repeat h hs') as [i'|] eqn:Hrep'; [|discriminate].
      injection Hrep as <-.
      destruct (IH _ _ _ _ _ _ _ _ Hn' Hrep') as (shots_i & s_i & t_i & Hi & Hloop).
      exists shots_i, s_i, (t1 ++ (t_i ++ [])). split.
      * rewrite (scroll_rounds_S _ _ _ _ _ _ _ _ Hr), Hi. reflexivity.
      * intros [|fuel] Hf; [lia|].
        rewrite (scroll_loop_S _ _ _ _ _ _ _ _ _ Hr), Hh.
        rewrite (Hloop fuel) by lia. simpl. now rewrite app_nil_r.
Qed.

(** Whatever the fuel, what the loop returns holds the screenshot of its
    first turn. *)
Lemma scroll_loop_grows fuel filepath screenshots last (s : Store W) l s' t :
  scroll_loop fuel filepath screenshots last s = (Ret l, s', t) ->
  (length screenshots < length l)%nat.
Proof.
  revert screenshots last s l s' t.
  induction fuel as [|fuel IH]; intros screenshots last s l s' t; simpl.
  - discriminate.
  - intros Hl.
    apply run_bind in Hl as [(r & s1 & t1 & t2 & Hr & Hk & ->) | [(e & _ & [=]) | (_ & [=])]].
    destruct r as [shots1 h].
    apply scroll_round_Ret in Hr as (-> & _).
    destruct (h =? last).
    + injection Hk as <- <- <-. rewrite length_app. simpl. lia.
    + apply IH in Hk. rewrite length_app in Hk. simpl in Hk. lia.
Qed.

End Scrolling.

Lemma first_repeat_le (hs : list Z) (last : Z) (i : nat) (h : Z) :
  (last :: hs) !! i = Some h -> hs !! i = Some h ->
  exists i0, first_repeat last hs = Some i0 /\ (i0 <= i)%nat.
Proof.
  revert last i. induction hs as [|x hs IH]; intros last i H1 H2.
  - destruct i; discriminate.
  - simpl. destruct (x =? last) eqn:Hx.
    + exists 0%nat. split; [reflexivity | lia].
    + destruct i as [|i]; simpl in *.
      * injection H1 as ->. injection H2 as ->. rewrite Z.eqb_refl in Hx. discriminate.
      * destruct (IH x i H1 H2) as (i0 & -> & Hle).
        exists (S i0). split; [reflexivity | lia].
Qed.

Lemma first_repeat_spec (hs : list Z) (last : Z) (i : nat) :
  first_repeat last hs = Some i ->
  (exists h, (last :: hs) !! i = Some h /\ hs !! i = Some h)
  /\ forall j, (j < i)%nat -> (last :: hs) !! j <> hs !! j.
Proof.
  revert last i. induction hs as [|x hs IH]; intros last i; simpl.
  - discriminate.
  - destruct (x =? last) eqn:Hx.
    + intros [= <-]. apply Z.eqb_eq in Hx as ->. split.
      * now exists last.
      * intros j Hj. lia.
    + destruct (first_repeat x hs) as [i'|] eqn:Hrep; [|discriminate].
      intros [= <-]. destruct (IH x i' Hrep) as ((h & H1 & H2) & Hlt). split.
      * now exists h.
      * intros [|j] Hj; simpl.
        -- intros [= ->]. rewrite Z.eqb_refl in Hx. discriminate.
        -- apply Hlt. lia.
Qed.

(** C5.  Let scrolling on and on read the positions [hs], and let two
    readings in a row agree, the position before the first reading being
    the top of the page.  Then [take_screenshots_scroll] returns, after a
    number [n] of turns that any fuel from [n] on covers.  Its trace is
    that of [n] turns, each one screenshot, scroll, pause and reading, so
    the first screenshot precedes every scroll; the reading of the last
    turn repeats the position the last screenshot was taken at, and no
    earlier reading does. *)
Theorem take_screenshots_scroll_terminates {W : Type} `{!Driver W}
    (filepath : string) (s : Store W) (k : nat) (shots : list string)
    (hs : list Z) (s_k : Store W) (t_k : list Event) (i : nat) (h : Z) :
  scroll_rounds k filepath [] s = (Ret (shots, hs), s_k, t_k) ->
  (0 :: hs) !! i = Some h -> hs !! i = Some h ->
  exists n saved s',
    (1 <= n <= S i)%nat
    /\ length saved = n
    /\ length (take n hs) = n
    /\ (forall fuel, (n <= fuel)%nat ->
          take_screenshots_scroll fuel filepath s
          = (Ret (map (screenshot_name filepath) (seq 0 n)), s',
             rounds_events filepath 0 saved (take n hs)))
    /\ (exists h', (0 :: hs) !! (n - 1)%nat = Some h'
                   /\ hs !! (n - 1)%nat = Some h')
    /\ forall j, (j < n - 1)%nat -> (0 :: hs) !! j <> hs !! j.
Proof.
  intros Hk H1 H2.
  destruct (first_repeat_le hs 0 i h H1 H2) as (i0 & Hrep & Hle).
  destruct (scroll_loop_stops _ _ _ _ _ _ _ _ _ _ Hk Hrep)
    as (shots_i & s_i & t_i & Hi & Hloop).
  apply scroll_rounds_Ret in Hi as (Hlen & -> & saved & Hsaved & ->).
  destruct (first_repeat_spec hs 0 i0 Hrep) as (Hsame & Hdiff).
  exists (S i0), saved, s_i. simpl length in *.
  replace (S i0 - 1)%nat with i0 by lia.
  split; [lia|]. split; [assumption|]. split; [assumption|].
  split; [|split; assumption].
  intros fuel Hf. unfold take_screenshots_scroll.
  rewrite (Hloop fuel) by lia. reflexivity.
Qed.

Lemma take_screenshots_scroll_terminates_witness :
  exists n saved s',
    (1 <= n <= 3)%nat
    /\ length saved = n
    /\ length (take n [600; 900; 900]) = n
    /\ (forall fuel, (n <= fuel)%nat ->
          take_screenshots_scroll fuel "screenshots/screenshot"
            (Scripted.start
               [Scripted.number 600; Scripted.number 900; Scripted.number 900])
          = (Ret (map (screenshot_name "screenshots/screenshot") (seq 0 n)), s',
             rounds_events "screenshots/screenshot" 0 saved
               (take n [600; 900; 900])))
    /\ (exists h', (0 :: [600; 900; 900]) !! (n - 1)%nat = Some h'
                   /\ [600; 900; 900] !! (n - 1)%nat = Some h')
    /\ forall j, (j < n - 1)%nat ->
         (0 :: [600; 900; 900]) !! j <> [600; 900; 900] !! j.
Proof.
  exact (take_screenshots_scroll_terminates "screenshots/screenshot"
           (Scripted.start
              [Scripted.number 600; Scripted.number 900; Scripted.number 900])
           3
           ["screenshots/screenshot_0.png"; "screenshots/screenshot_1.png";
            "screenshots/screenshot_2.png"]
           [600; 900; 900] (Scripted.start [])
           (rounds_events "screenshots/screenshot" 0 [true; true; true]
              [600; 900; 900])
           2 900 eq_refl eq_refl eq_refl).
Defined.

(** ** The order of the effects *)

Lemma walk_app st t1 t2 :
  walk st (t1 ++ t2)
  = match walk st t1 with
    | Some st1 => walk st1 t2
    | None => None
    end.
Proof.
  revert st. induction t1 as [|ev t1 IH]; intros st; simpl.
  - reflexivity.
  - destruct (step st ev); [apply IH | reflexivity].
Qed.

Section Order.
Context {W : Type} `{!Driver W}.


Lemma follows_ret {A} (a : A) st (P : A -> Stage -> Prop) :
  P a st -> follows (ret (W := W) a) st P.
Proof. intros HP s. apply spec_ret. now exists st. Qed.

Lemma follows_raise {A} e st (P : A -> Stage -> Prop) :
  e <> ValueError unpack_msg -> follows (raise (W := W) e) st P.
Proof. intros He s. apply spec_raise. now exists st. Qed.

Lemma follows_out_of_fuel {A} st (P : A -> Stage -> Prop) :
  follows (out_of_fuel (W := W)) st P.
Proof. intros s. apply spec_out_of_fuel. now exists st. Qed.

Lemma follows_bind {A B} (m : M W A) (k : A -> M W B) st P1 (P : B -> Stage -> Prop) :
  follows m st P1 ->
  (forall a st1, P1 a st1 -> follows (k a) st1 P) ->
  follows (bind m k) st P.
Proof.
  intros Hm Hk s. apply spec_bind. eapply spec_mono; [apply Hm|].
  intros o s1 t1 (st1 & Hw & Ho). destruct o as [a|e|].
  - eapply spec_mono; [apply (Hk a st1 Ho)|].
    intros o' s2 t2 (st2 & Hw2 & Ho2). exists st2.
    rewrite walk_app, Hw. auto.
  - exists st1. auto.
  - exists st1. auto.
Qed.

Lemma follows_mono {A} (m : M W A) st (P P' : A -> Stage -> Prop) :
  follows m st P -> (forall a st', P a st' -> P' a st') -> follows m st P'.
Proof.
  intros Hm HP s. eapply spec_mono; [apply Hm|].
  intros o s' t (st' & Hw & Ho). exists st'. split; [assumption|].
  destruct o; auto.
Qed.

(** An operation the stage admits, leading to [st1] if it returns. *)
Lemma follows_call {A} (op : Op A) st st1 :
  (forall r, step st (Call op r) = unless_raised r st1) ->
  follows (call op) st (fun _ st' => st' = st1).
Proof.
  intros Hstep s. apply spec_call; intros; cbn [walk]; rewrite Hstep; simpl.
  - now exists st1.
  - exists Halted. split; [reflexivity | discriminate].
Qed.

Lemma follows_dumps msgs st :
  follows (dumps (W := W) msgs) st (fun _ st' => st' = st).
Proof. intros s. unfold spec, dumps. simpl. now exists st. Qed.

Lemma follows_new_list st :
  follows (new_list (W := W)) st (fun _ st' => st' = st).
Proof. intros s. unfold spec, new_list. simpl. now exists st. Qed.

Lemma follows_list_append l x st :
  follows (list_append (W := W) l x) st (fun _ st' => st' = st).
Proof. intros s. unfold spec, list_append. simpl. now exists st. Qed.

End Order.

(** The steps of a proof that a function follows the stages. *)
Ltac follow_call := apply follows_call; intros []; reflexivity.

Ltac follow :=
  lazymatch goal with
  | |- follows (bind (call _) _) _ _ =>
      eapply follows_bind; [follow_call | intros ? ? ->]
  | |- follows (bind (dumps _) _) _ _ =>
      eapply follows_bind; [apply follows_dumps | intros ? ? ->]
  | |- follows (bind new_list _) _ _ =>
      eapply follows_bind; [apply follows_new_list | intros ? ? ->]
  | |- follows (bind (list_append _ _) _) _ _ =>
      eapply follows_bind; [apply follows_list_append | intros ? ? ->]
  | |- follows (ret _) _ _ => apply follows_ret
  | |- follows (call _) _ _ => follow_call
  | |- follows (raise _) _ _ => apply follows_raise; discriminate
  end.

Section OrderOfTheScript.
Context {W : Type} `{!Driver W}.

Lemma scroll_round_follows p filepath screenshots :
  follows (scroll_round (W := W) filepath screenshots) (Capturing p)
    (fun r st => st = Capturing p /\ r.1 <> []).
Proof.
  unfold scroll_round. repeat follow. split; [reflexivity|].
  simpl. now destruct screenshots.
Qed.

Lemma scroll_loop_follows p fuel filepath screenshots last :
  follows (scroll_loop (W := W) fuel filepath screenshots last) (Capturing p)
    (fun l st => st = Capturing p /\ l <> []).
Proof.
  revert screenshots last. induction fuel as [|fuel IH]; intros screenshots last; simpl.
  - apply follows_out_of_fuel.
  - eapply follows_bind; [apply scroll_round_follows|].
    intros [shots h] st1 [-> Hne]. destruct (h =? last).
    + now apply follows_ret.
    + apply IH.
Qed.

Lemma open_all_follows p (images : list string) st0 :
  st0 = Capturing p \/ st0 = Stitching p ->
  follows (for_list (W := W) (fun x => call (Image_open x)) images) st0
    (fun imgs st =>
       length imgs = length images
       /\ (st = Stitching p \/ (images = [] /\ st = st0))).
Proof.
  revert st0. induction images as [|x images IH]; intros st0 Hst0; simpl.
  - apply follows_ret. auto.
  - eapply follows_bind.
    { apply (follows_call _ _ (Stitching p)).
      destruct Hst0 as [-> | ->]; intros []; reflexivity. }
    intros im st1 ->.
    eapply follows_bind; [apply (IH (Stitching p)); auto|].
    intros imgs st2 [Hlen Hst2]. apply follows_ret.
    split; [simpl; congruence|]. left. destruct Hst2 as [-> | [_ ->]]; reflexivity.
Qed.

Lemma stitch_images_vertically_follows p (images : list string) :
  images <> [] ->
  follows (stitch_images_vertically (W := W) images (stitched_filename p))
    (Capturing p) (fun _ st => st = Questions p).
Proof.
  intros Hne. unfold stitch_images_vertically.
  eapply follows_bind; [apply (open_all_follows p); auto|].
  intros imgs st1 [Hlen [-> | [-> _]]]; [|congruence].
  assert (Himgs : imgs <> []).
  { intros ->. destruct images; [congruence | discriminate]. }
  destruct (stitched_nonempty imgs Himgs) as (im & -> & _).
  apply follows_call. intros r. simpl. now rewrite String.eqb_refl.
Qed.

Lemma capture_follows fuel p :
  follows (capture (W := W) fuel p) (Capturing p) (fun _ st => st = Questions p).
Proof.
  unfold capture, take_screenshots_scroll.
  eapply follows_bind; [apply scroll_loop_follows|].
  intros l st1 [-> Hne].
  eapply follows_bind; [apply stitch_images_vertically_follows, Hne|].
  intros _ st2 ->. now apply follows_ret.
Qed.

Lemma get_position_follows p (e : WebElement) :
  follows (get_position (W := W) e) (Questions p) (fun _ st => st = Questions p).
Proof. unfold get_position. repeat follow. reflexivity. Qed.

Lemma get_positions_follows p (l : list WebElement) :
  follows (for_list (W := W) get_position l) (Questions p)
    (fun _ st => st = Questions p).
Proof.
  induction l as [|e l IH]; simpl.
  - now apply follows_ret.
  - eapply follows_bind; [apply get_position_follows|].
    intros k st1 ->.
    eapply follows_bind; [apply IH|]. intros ks st2 ->. now apply follows_ret.
Qed.

Lemma gather_follows p content :
  follows (gather (W := W) p content) (Questions p) (fun _ st => st = Questions p).
Proof.
  unfold gather, encode_image. repeat follow.
  eapply follows_bind; [apply get_positions_follows|].
  intros ks st ->. now apply follows_ret.
Qed.

Lemma answer_survey_choice_follows p msgs :
  follows (answer_survey_choice (W := W) msgs) (Questions p)
    (fun _ st => st = Asked p).
Proof.
  unfold answer_survey_choice. repeat follow.
  destruct (Py.int _); [follow; reflexivity|].
  apply follows_raise, int_msg_not_unpack.
Qed.

Lemma answer_survey_other_follows p msgs :
  follows (answer_survey_other (W := W) msgs) (Questions p)
    (fun _ st => st = Asked p).
Proof. unfold answer_survey_other. repeat follow. Qed.

Lemma exchange_follows {A} p (ask : list Message -> M W A) fmt html msgs content :
  (forall msgs', follows (ask msgs') (Questions p) (fun _ st => st = Asked p)) ->
  follows (exchange ask fmt html msgs content) (Questions p)
    (fun _ st => st = Summarised p).
Proof.
  intros Hask. unfold exchange, summarize_answer. follow.
  eapply follows_bind; [apply Hask|]. intros answer st1 ->.
  repeat follow. reflexivity.
Qed.

Lemma branch_cbc_task_follows p e msgs content :
  follows (branch_cbc_task (W := W) e msgs content) (Questions p)
    (fun _ st => st = Questions p).
Proof.
  unfold branch_cbc_task. follow.
  eapply follows_bind;
    [apply exchange_follows, answer_survey_choice_follows|].
  intros [[answer msgs'] c'] st1 ->. follow.
  destruct (Py.index _ _); repeat follow. reflexivity.
Qed.

Lemma branch_select_follows p e msgs content :
  follows (branch_select (W := W) e msgs content) (Questions p)
    (fun _ st => st = Questions p).
Proof.
  unfold branch_select. follow.
  eapply follows_bind;
    [apply exchange_follows, answer_survey_choice_follows|].
  intros [[answer msgs'] c'] st1 ->. repeat follow. reflexivity.
Qed.

Lemma branch_question_numeric_follows p e msgs content :
  follows (branch_question_numeric (W := W) e msgs content) (Questions p)
    (fun _ st => st = Questions p).
Proof.
  unfold branch_question_numeric. follow.
  eapply follows_bind;
    [apply exchange_follows, answer_survey_other_follows|].
  intros [[answer msgs'] c'] st1 ->. repeat follow. reflexivity.
Qed.

Lemma branch_response_column_follows p e msgs content :
  follows (branch_response_column (W := W) e msgs content) (Questions p)
    (fun _ st => st = Questions p).
Proof.
  unfold branch_response_column. follow.
  eapply follows_bind;
    [apply exchange_follows, answer_survey_choice_follows|].
  intros [[answer msgs'] c'] st1 ->. repeat follow. reflexivity.
Qed.

Lemma branch_textarea_follows p e msgs content :
  follows (branch_textarea (W := W) e msgs content) (Questions p)
    (fun _ st => st = Questions p).
Proof.
  unfold branch_textarea. follow.
  eapply follows_bind;
    [apply exchange_follows, answer_survey_other_follows|].
  intros [[answer msgs'] c'] st1 ->. repeat follow. reflexivity.
Qed.

Lemma answer_question_follows p e msgs content :
  follows (answer_question (W := W) e msgs content) (Questions p)
    (fun _ st => st = Questions p).
Proof.
  unfold answer_question.
  follow. case_bool_decide; [apply branch_cbc_task_follows|].
  follow. case_bool_decide; [apply branch_select_follows|].
  follow. case_bool_decide; [apply branch_question_numeric_follows|].
  follow. case_bool_decide; [apply branch_response_column_follows|].
  follow. case_bool_decide; [apply branch_textarea_follows|].
  now apply follows_ret.
Qed.

Lemma for_range_follows {S} p (range : list nat) (body : nat -> S -> M W S) st0 :
  (forall i st, follows (body i st) (Questions p) (fun _ st' => st' = Questions p)) ->
  follows (for_range range body st0) (Questions p) (fun _ st' => st' = Questions p).
Proof.
  intros Hbody. revert st0. induction range as [|i range IH]; intros st0; simpl.
  - now apply follows_ret.
  - eapply follows_bind; [apply Hbody|]. intros st1 ? ->. apply IH.
Qed.

Lemma answer_all_follows p all_questions sorted_elements msgs content :
  follows (answer_all (W := W) all_questions sorted_elements msgs content)
    (Questions p) (fun _ st => st = Questions p).
Proof.
  unfold answer_all. destruct (length all_questions =? 0)%nat.
  - now apply follows_ret.
  - eapply follows_bind.
    + apply for_range_follows. intros i st.
      destruct (sorted_elements !! i); [apply answer_question_follows | follow].
    + intros r st1 ->. now apply follows_ret.
Qed.

Lemma survey_page_follows fuel p msgs :
  follows (survey_page (W := W) fuel p msgs) (Capturing p)
    (fun _ st => st = Dumped p).
Proof.
  unfold survey_page. follow.
  eapply follows_bind; [apply capture_follows|]. intros shots st1 ->.
  eapply follows_bind; [apply gather_follows|]. intros qs st2 ->.
  eapply follows_bind; [apply answer_all_follows|]. intros msgs' st3 ->.
  repeat follow. reflexivity.
Qed.

(** The [try] block: whatever raises in it is caught, and the stage tells
    which way it went. *)
Lemma next_page_follows p :
  follows (next_page (W := W)) (Dumped p)
    (fun n st =>
       match n with
       | inr _ => st = Advanced p
       | inl _ => st = NextFailed p
       end).
Proof.
  intros s. unfold next_page. apply spec_try_except. apply spec_bind.
  apply spec_call; intros.
  - apply spec_call; intros; simpl.
    + now exists (Advanced p).
    + now exists (NextFailed p).
  - simpl. now exists (NextFailed p).
Qed.

Lemma log_error_follows p :
  follows (log (W := W) ERROR (next_button_msg p)) (NextFailed p)
    (fun _ st => st = Finished).
Proof.
  intros s. unfold spec, log. simpl. rewrite String.eqb_refl. now exists Finished.
Qed.

Lemma survey_loop_follows fuel p msgs :
  follows (survey_loop (W := W) fuel p msgs) (Capturing p)
    (fun _ st => st = Finished).
Proof.
  revert p msgs. induction fuel as [|fuel IH]; intros p msgs.
  - apply follows_out_of_fuel.
  - cbn [survey_loop].
    eapply follows_bind; [apply survey_page_follows|].
    intros [shots msgs'] st1 ->.
    eapply follows_bind; [apply next_page_follows|].
    intros [e|[]] st2 ->.
    + eapply follows_bind; [apply log_error_follows|].
      intros _ st3 ->. now apply follows_ret.
    + follow. apply IH.
Qed.

(** The whole survey of one respondent follows the stages from the
    capture of page 0 on. *)
Lemma fill_survey_follows fuel age gender Country_origin ethnicity Country
    student_text work_status :
  follows (fill_survey (W := W) fuel age gender Country_origin ethnicity
             Country student_text work_status)
    (Capturing 0) (fun _ st => st = Finished).
Proof. apply survey_loop_follows. Qed.

End OrderOfTheScript.

(** ** After a failure *)

Lemma step_raised st {A} (op : Op A) what st' :
  step st (Call op (Raised what)) = Some st' ->
  st' = Halted \/ exists p, st' = NextFailed p.
Proof.
  destruct st; simpl; try discriminate; destruct op; simpl; try discriminate;
    repeat match goal with
           | |- context [match ?x with _ => _ end] => destruct x; simpl; try discriminate
           end;
    intros [= <-]; eauto.
Qed.

Lemma walk_Halted t st' : walk Halted t = Some st' -> t = [].
Proof. destruct t as [|[? op r|[] msg] t]; simpl; [reflexivity | discriminate ..]. Qed.

Lemma walk_Finished t st' : walk Finished t = Some st' -> t = [].
Proof. destruct t as [|[? op r|[] msg] t]; simpl; [reflexivity | discriminate ..]. Qed.

Lemma walk_NextFailed p t st' :
  walk (NextFailed p) t = Some st' ->
  t = [] \/ t = [Log ERROR (next_button_msg p)].
Proof.
  destruct t as [|[? op r|[] msg] t]; simpl; [now left | discriminate |].
  destruct (String.eqb msg (next_button_msg p)) eqn:E; [|discriminate].
  apply String.eqb_eq in E as ->. intros Hw. apply walk_Finished in Hw as ->.
  now right.
Qed.

(** In a trace the stages admit, an operation that raised is the last
    one: at most the logging of the error comes after it. *)
Lemma walk_after_raise st t1 {A} (op : Op A) what t2 st' :
  walk st (t1 ++ Call op (Raised what) :: t2) = Some st' ->
  t2 = [] \/ exists p, t2 = [Log ERROR (next_button_msg p)].
Proof.
  rewrite walk_app. destruct (walk st t1) as [st1|]; [|discriminate].
  cbn [walk]. destruct (step st1 (Call op (Raised what))) as [st2|] eqn:E;
    [|discriminate].
  intros Hw. apply step_raised in E as [-> | [p ->]].
  - left. eapply walk_Halted, Hw.
  - apply walk_NextFailed in Hw as [-> | ->]; eauto.
Qed.



Section Rows.
Context {W : Type} `{!Driver W}.



End Rows.

(** C6.  When the wait for the next button raises after a page has been
    processed, the loop logs the error and returns the screenshots of
    that page.  And in any run of [fill_survey] an operation that raised
    is the last operation of the run: nothing is tried again, at most
    the error is logged. *)
Theorem log_and_abort {W : Type} `{!Driver W} :
  (forall fuel p msgs (s : Store W) shots msgs' s1 t1 what w,
      survey_page (S fuel) p msgs s = (Ret (shots, msgs'), s1, t1) ->
      perform (wait_until_find_element 10 (ID "next_button")) (world s1)
      = (Raised what, w) ->
      survey_loop (S fuel) p msgs s
      = (Ret shots, {| world := w; heap := heap s1 |},
         t1 ++ [Call (wait_until_find_element 10 (ID "next_button")) (Raised what);
                Log ERROR (next_button_msg p)]))
  /\ (forall fuel age gender Country_origin ethnicity Country student_text
             work_status (s : Store W) t1 A (op : Op A) what t2,
        (fill_survey fuel age gender Country_origin ethnicity Country
           student_text work_status s).2
        = t1 ++ Call op (Raised what) :: t2 ->
        t2 = [] \/ exists p, t2 = [Log ERROR (next_button_msg p)]).
Proof.
  split.
  - intros fuel p msgs s shots msgs' s1 t1 what w Hpage Hwait.
    cbn [survey_loop]. unfold bind at 1. rewrite Hpage.
    unfold next_page, try_except, bind, call, log, ret. cbn beta iota.
    rewrite Hwait. reflexivity.
  - intros fuel age gender Country_origin ethnicity Country student_text
      work_status s t1 A op what t2 Ht.
    destruct (fill_survey_follows fuel age gender Country_origin
                ethnicity Country student_text work_status s)
      as (st & Hw & _).
    rewrite Ht in Hw. eapply walk_after_raise, Hw.
Qed.

(** C8.  Every run of [take_screenshots_scroll] begins with the saving of
    the first screenshot, before any reading of the position, and what it
    returns is never empty; opening an empty list of files would end
    [stitch_images_vertically] in the [ValueError] of the unpacking, and no
    run of [fill_survey] ends in it. *)
Theorem screenshots_never_empty {W : Type} `{!Driver W} :
  (forall fuel filepath (s : Store W),
      exists r rest,
        (take_screenshots_scroll (S fuel) filepath s).2
        = Call (save_screenshot (screenshot_name filepath 0)) r :: rest)
  /\ (forall fuel filepath (s : Store W) l s' t,
      take_screenshots_scroll fuel filepath s = (Ret l, s', t) -> l <> [])
  /\ (forall output_filename (s : Store W),
        stitch_images_vertically [] output_filename s
        = (Exc (ValueError unpack_msg), s, []))
  /\ (forall fuel age gender Country_origin ethnicity Country student_text
             work_status (s : Store W),
        (fill_survey fuel age gender Country_origin ethnicity Country
           student_text work_status s).1.1
        <> Exc (ValueError unpack_msg)).
Proof.
  split; [|split; [|split]].
  - intros fuel filepath s.
    unfold take_screenshots_scroll. cbn [scroll_loop].
    destruct (bind_trace (scroll_round filepath [])
                (fun r => let '(screenshots, new_height) := r in
                          if new_height =? 0 then ret screenshots
                          else scroll_loop fuel filepath screenshots new_height) s)
      as [rest1 ->].
    unfold scroll_round.
    destruct (bind_trace (call (save_screenshot (filepath +:+ "_" +:+ pretty (length (@nil string)) +:+ ".png")))
                (fun _ => _ <- call execute_script_scrollBy ;;
                          _ <- call (sleep 2) ;;
                          new_height <- call execute_script_pageYOffset ;;
                          ret ([] ++ [filepath +:+ "_" +:+ pretty (length (@nil string)) +:+ ".png"],
                               new_height)) s)
      as [rest2 ->].
    destruct (call_trace (save_screenshot (filepath +:+ "_" +:+ pretty (length (@nil string)) +:+ ".png")) s)
      as [r ->].
    exists r, (rest2 ++ rest1). reflexivity.
  - intros fuel filepath s l s' t Hl. apply scroll_loop_grows in Hl.
    intros ->. simpl in Hl. lia.
  - reflexivity.
  - intros. destruct (fill_survey_follows fuel age gender Country_origin
                        ethnicity Country student_text work_status s)
      as (st & _ & Ho).
    destruct (_.1.1); congruence.
Qed.

Lemma log_and_abort_witness :
  (survey_loop 1 0 Scripted.thread0 (Scripted.start (Scripted.cbc_page "2"))).1.1
  = Ret ["screenshots/screenshot_0.png"]
  /\ ([Log ERROR "Next button not found on page 0."] = []
      \/ exists p, [Log ERROR "Next button not found on page 0."]
                   = [Log ERROR (next_button_msg p)]).
Proof.
  destruct (@log_and_abort _ Scripted.driver) as [H1 H2]. split.
  - rewrite (H1 0%nat 0%nat Scripted.thread0
               (Scripted.start (Scripted.cbc_page "2"))
               ["screenshots/screenshot_0.png"]
               (Scripted.thread0
                  ++ [ {| role := assistant;
                          content := Str "The respondent chose an option." |} ])
               (survey_page 1 0 Scripted.thread0
                  (Scripted.start (Scripted.cbc_page "2"))).1.2
               (survey_page 1 0 Scripted.thread0
                  (Scripted.start (Scripted.cbc_page "2"))).2
               "TimeoutException" []).
    + reflexivity.
    + reflexivity.
    + reflexivity.
  - apply (H2 1%nat "34" "Female" "Germany" "White" "Germany"
              "You are not a student" "Full-Time"
              (Scripted.start (Scripted.cbc_page "2"))
              (removelast (removelast
                 (fill_survey 1 "34" "Female" "Germany" "White" "Germany"
                    "You are not a student" "Full-Time"
                    (Scripted.start (Scripted.cbc_page "2"))).2))
              _ (wait_until_find_element 10 (ID "next_button"))
              "TimeoutException").
    reflexivity.
Defined.

Lemma screenshots_never_empty_witness :
  ["screenshots/screenshot_0.png"] <> [].
Proof.
  destruct (@screenshots_never_empty _ Scripted.driver) as (_ & H1 & _).
  apply (H1 3%nat "screenshots/screenshot"
            (Scripted.start [Scripted.number 0])
            ["screenshots/screenshot_0.png"]
            (Scripted.start [])
            (rounds_events "screenshots/screenshot" 0 [true] [0])).
  reflexivity.
Defined.

(** ** The answer goes into the form as it comes *)

Lemma Py_index_spec {A} (l : list A) (n : Z) :
  let len := Z.of_nat (length l) in
  (Py.index l (n - 1) = None <-> n < 1 - len \/ len < n)
  /\ (1 <= n <= len -> Py.index l (n - 1) = l !! Z.to_nat (n - 1))
  /\ (1 - len <= n <= 0 -> Py.index l (n - 1) = l !! Z.to_nat (len + n - 1)).
Proof.
  intros len. unfold Py.index. fold len.
  destruct (0 <=? n - 1) eqn:E1.
  - apply Z.leb_le in E1. split; [|split].
    + rewrite lookup_ge_None. subst len. lia.
    + reflexivity.
    + lia.
  - apply Z.leb_gt in E1. destruct (0 <=? len + (n - 1)) eqn:E2.
    + apply Z.leb_le in E2. split; [|split].
      * rewrite lookup_ge_None. subst len. lia.
      * lia.
      * intros _. f_equal. f_equal. lia.
    + apply Z.leb_gt in E2. split; [|split].
      * split; [lia | reflexivity].
      * lia.
      * lia.
Qed.

(** Settles what is left of a run once it has been followed to its end:
    the projections of the trace are computed, and what the run has
    learnt about the reply is used. *)
Ltac settle :=
  repeat first
    [ progress simpl
    | progress unfold ended_by_library, written, answer_of
    | match goal with
      | H : bool_decide _ = _ |- _ => rewrite H; clear H
      | H : ?x = _ |- context [match ?x with _ => _ end] => rewrite H
      | H : ?x = _ |- context [option_map _ ?x] => rewrite H
      end
    | split
    | reflexivity
    | eassumption
    | lia
    | eexists ].

Section Branches.
Context {W : Type} `{!Driver W}.

Lemma branch_cbc_task_clicks element msgs content (s : Store W) :
  spec (branch_cbc_task element msgs content) s (fun o _ t =>
    queries t = []
    /\ match answers t, summaries t with
       | [reply], [_] =>
           exists n, Py.int reply = Some n
             /\ match fetches t with
                | [(e, by_, r)] =>
                    e = element /\ by_ = CLASS_NAME "task_select_button"
                    /\ match r with
                       | Returned buttons =>
                           match Py.index buttons (n - 1) with
                           | Some button => injections t = [Clicked button]
                           | None => injections t = [] /\ o = Exc IndexError
                           end
                       | Raised what =>
                           injections t = [] /\ o = Exc (LibraryError what)
                       end
                | _ => False
                end
       | [reply], [] =>
           fetches t = [] /\ injections t = []
           /\ match Py.int reply with
              | Some _ => ended_by_library o t
              | None => o = Exc (ValueError (int_msg reply))
              end
       | [], [] => fetches t = [] /\ injections t = [] /\ ended_by_library o t
       | _, _ => False
       end).
Proof.
  unfold branch_cbc_task, exchange, answer_survey_choice, summarize_answer.
  wp; settle.
Qed.

Lemma branch_select_selects element msgs content (s : Store W) :
  spec (branch_select element msgs content) s (fun o _ t =>
    queries t = [] /\ fetches t = [] /\ finds t = []
    /\ match answers t, summaries t with
       | [reply], [_] =>
           exists n, Py.int reply = Some n
             /\ injections t = [Selected element (Py.str n)]
       | [reply], [] =>
           injections t = []
           /\ match Py.int reply with
              | Some _ => ended_by_library o t
              | None => o = Exc (ValueError (int_msg reply))
              end
       | [], [] => injections t = [] /\ ended_by_library o t
       | _, _ => False
       end).
Proof.
  unfold branch_select, exchange, answer_survey_choice, summarize_answer.
  wp; settle.
Qed.

End Branches.

Section Dispatch.
Context {W : Type} `{!Driver W}.

Lemma answer_question_dispatch element msgs content (s : Store W) :
  spec (answer_question element msgs content) s (fun o _ t =>
    (length (answer_requests t) <= 1)%nat
    /\ take (length (queries t)) question_queries = map fst (queries t)
    /\ match taken element t with
       | None =>
           readings t = [] /\ answer_requests t = [] /\ injections t = []
           /\ match o with
              | Ret _ => map fst (queries t) = question_queries
              | Exc _ => ended_by_library o t
              | OutOfFuel => False
              end
       | Some b =>
           match answers t with
           | [] => injections t = [] /\ ended_by_library o t
           | [reply] =>
               match answer_of b reply with
               | None =>
                   o = Exc (ValueError (int_msg reply))
                   /\ summary_requests t = [] /\ injections t = []
               | Some _ =>
                   match summaries t with
                   | [] => injections t = [] /\ ended_by_library o t
                   | [_] => written b element reply o t
                   | _ => False
                   end
               end
           | _ => False
           end
       end).
Proof.
  unfold answer_question, branch_cbc_task, branch_select,
    branch_question_numeric, branch_response_column, branch_textarea,
    exchange, answer_survey_choice, answer_survey_other, summarize_answer.
  wp; unfold taken; settle.
Qed.

End Dispatch.

(** C1, as amended.  In the [cbc_task] branch, once the reply has been
    parsed to [n] and the summary is back, the buttons of the element are
    fetched, in every run and whatever [n] is, and the button at Python
    index [n - 1] is clicked with nothing asked of the page in between; an
    absent index ends the run in [IndexError] with nothing clicked.  In
    the [select] branch [select_by_value(str(n))] is called once the
    summary is back, and neither the page nor the element is asked for
    anything.  Before that, nothing is fetched and nothing written: the
    run is still under way or was ended by an operation that raised or by
    [int()].  The index is absent exactly when [n] exceeds the number of
    buttons or lies below [1 -] that number: for [n] from 1 to the number
    of buttons the n-th button is clicked, and for [n] from [1 -] that
    number to 0 the index is negative and counts from the end. *)
Theorem answer_injected_unchecked {W : Type} `{!Driver W} :
  (forall element msgs content (s : Store W),
      let '(o, _, t) := branch_cbc_task element msgs content s in
      queries t = []
      /\ match answers t, summaries t with
         | [reply], [_] =>
             exists n, Py.int reply = Some n
               /\ match fetches t with
                  | [(e, by_, r)] =>
                      e = element /\ by_ = CLASS_NAME "task_select_button"
                      /\ match r with
                         | Returned buttons =>
                             match Py.index buttons (n - 1) with
                             | Some button => injections t = [Clicked button]
                             | None => injections t = [] /\ o = Exc IndexError
                             end
                         | Raised what =>
                             injections t = [] /\ o = Exc (LibraryError what)
                         end
                  | _ => False
                  end
         | [reply], [] =>
             fetches t = [] /\ injections t = []
             /\ match Py.int reply with
                | Some _ => ended_by_library o t
                | None => o = Exc (ValueError (int_msg reply))
                end
         | [], [] => fetches t = [] /\ injections t = [] /\ ended_by_library o t
         | _, _ => False
         end)
  /\ (forall element msgs content (s : Store W),
        let '(o, _, t) := branch_select element msgs content s in
        queries t = [] /\ fetches t = [] /\ finds t = []
        /\ match answers t, summaries t with
           | [reply], [_] =>
               exists n, Py.int reply = Some n
                 /\ injections t = [Selected element (Py.str n)]
           | [reply], [] =>
               injections t = []
               /\ match Py.int reply with
                  | Some _ => ended_by_library o t
                  | None => o = Exc (ValueError (int_msg reply))
                  end
           | [], [] => injections t = [] /\ ended_by_library o t
           | _, _ => False
           end)
  /\ (forall (buttons : list WebElement) (n : Z),
        let len := Z.of_nat (length buttons) in
        (Py.index buttons (n - 1) = None <-> n < 1 - len \/ len < n)
        /\ (1 <= n <= len ->
            Py.index buttons (n - 1) = buttons !! Z.to_nat (n - 1))
        /\ (1 - len <= n <= 0 ->
            Py.index buttons (n - 1) = buttons !! Z.to_nat (len + n - 1))).
Proof.
  split; [|split].
  - intros element msgs content s.
    pose proof (branch_cbc_task_clicks element msgs content s) as H.
    unfold spec in H.
    now destruct (branch_cbc_task element msgs content s) as [[o s'] t].
  - intros element msgs content s.
    pose proof (branch_select_selects element msgs content s) as H.
    unfold spec in H.
    now destruct (branch_select element msgs content s) as [[o s'] t].
  - intros buttons n. apply Py_index_spec.
Qed.

Lemma answer_injected_unchecked_witness :
  Py.index ["b1"; "b2"; "b3"] (2 - 1) = ["b1"; "b2"; "b3"] !! Z.to_nat (2 - 1)
  /\ Py.index ["b1"; "b2"; "b3"] (-1 - 1)
     = ["b1"; "b2"; "b3"] !! Z.to_nat (3 + -1 - 1).
Proof.
  destruct (@answer_injected_unchecked _ Scripted.driver) as (_ & _ & H).
  destruct (H ["b1"; "b2"; "b3"] 2) as (_ & H1 & _).
  destruct (H ["b1"; "b2"; "b3"] (-1)) as (_ & _ & H2).
  split.
  - apply H1. simpl. lia.
  - apply H2. simpl. lia.
Defined.

(** Against C1 as it stands: on a page whose question has three buttons
    the reply [0] names none of them; the page is processed to its end
    all the same, no exception is raised, and the last button is
    clicked. *)
Lemma reply_zero_clicks_last_button :
  let run := survey_page 1 0 Scripted.thread0
               (Scripted.start (Scripted.cbc_page "0")) in
  answers run.2 = ["0"]
  /\ Py.int "0" = Some 0
  /\ children run.2 = [["b1"; "b2"; "b3"]]
  /\ ~ (1 <= 0 <= Z.of_nat (length ["b1"; "b2"; "b3"]))
  /\ Py.index ["b1"; "b2"; "b3"] (0 - 1) = Some "b3"
  /\ injections run.2 = [Clicked "b3"]
  /\ run.1.1
     = Ret (["screenshots/screenshot_0.png"],
            Scripted.thread0
              ++ [ {| role := assistant;
                      content := Str "The respondent chose an option." |} ]).
Proof.
  cbv zeta. repeat split; try reflexivity. simpl. lia.
Qed.



(** ** The order of the questions *)

Lemma tuple_le_spec (a b : Z * Z) :
  Py.tuple_le a b = true <-> a.1 < b.1 \/ (a.1 = b.1 /\ a.2 <= b.2).
Proof.
  unfold Py.tuple_le.
  rewrite orb_true_iff, andb_true_iff, Z.ltb_lt, Z.eqb_eq, Z.leb_le.
  reflexivity.
Qed.


Lemma tuple_le_total (a b : Z * Z) :
  Py.tuple_le a b = false -> Py.tuple_le b a = true.
Proof.
  intros Hf. apply tuple_le_spec.
  destruct (Py.tuple_le a b) eqn:E; [discriminate|].
  assert (Hn : ~ (a.1 < b.1 \/ (a.1 = b.1 /\ a.2 <= b.2))).
  { rewrite <- tuple_le_spec. congruence. }
  lia.
Qed.

Lemma tuple_le_trans (a b c : Z * Z) :
  Py.tuple_le a b = true -> Py.tuple_le b c = true -> Py.tuple_le a c = true.
Proof. rewrite !tuple_le_spec. lia. Qed.

Section Sorted.
Context {A : Type}.
Implicit Types (x y : (Z * Z) * A) (l : list ((Z * Z) * A)).

Lemma insert_by_perm x l : Permutation (Py.insert_by x l) (x :: l).
Proof.
  induction l as [|y l IH]; simpl.
  - reflexivity.
  - destruct (Py.tuple_le x.1 y.1).
    + reflexivity.
    + rewrite IH. apply perm_swap.
Qed.

Lemma sorted_perm l : Permutation (Py.sorted l) l.
Proof.
  induction l as [|x l IH]; simpl.
  - reflexivity.
  - rewrite insert_by_perm. now constructor.
Qed.

Lemma insert_by_sorted x l :
  StronglySorted key_le l -> StronglySorted key_le (Py.insert_by x l).
Proof.
  induction l as [|y l IH]; simpl; intros Hs.
  - repeat constructor.
  - inversion Hs as [|? ? Hs' Hall]; subst.
    destruct (Py.tuple_le x.1 y.1) eqn:E.
    + constructor; [assumption|]. constructor; [exact E|].
      eapply Forall_impl; [exact Hall|].
      intros z Hz. unfold key_le in *. eapply tuple_le_trans; eassumption.
    + constructor; [now apply IH|].
      eapply Permutation_Forall; [symmetry; apply insert_by_perm|].
      constructor; [|assumption]. now apply tuple_le_total.
Qed.

Lemma sorted_sorted l : StronglySorted key_le (Py.sorted l).
Proof.
  induction l as [|x l IH]; simpl.
  - constructor.
  - now apply insert_by_sorted.
Qed.



End Sorted.

Lemma zip_snd_length {A B} (ks : list A) (l : list B) :
  length ks = length l -> map snd (zip ks l) = l.
Proof.
  revert l. induction ks as [|k ks IH]; intros [|x l]; simpl; try discriminate.
  - reflexivity.
  - intros [= Hlen]. now rewrite IH.
Qed.

Section Gathering.
Context {W : Type} `{!Driver W}.

Lemma get_positions_spec (l : list WebElement) (s : Store W) :
  spec (for_list get_position l) s (fun o s' t =>
    match o with
    | Ret keys =>
        heap s' = heap s
        /\ exists locs,
             keys = map position_key locs
             /\ length locs = length l
             /\ t = zip_with (fun e loc => Call (location e) (Returned loc)) l locs
    | _ => heap s' = heap s
    end).
Proof.
  revert s. induction l as [|e l IH]; intros s; simpl.
  - apply spec_ret. split; [reflexivity|]. now exists [].
  - unfold get_position at 1. wp; try reflexivity.
    eapply spec_mono; [apply IH|]. intros o s' t Ho. destruct o as [keys| |]; try exact Ho.
    destruct Ho as (Hh & locs & -> & Hlen & ->).
    wp. split; [exact Hh|]. exists (a :: locs). simpl. rewrite Hlen, app_nil_r.
    repeat split.
Qed.

(** How [gather] ends when it returns: the locations are asked for in the
    order of [all_questions], and [sorted_elements] is that list sorted by
    what came back. *)
Lemma gather_spec p content (s : Store W) :
  spec (gather p content) s (fun o _ t =>
    match o with
    | Ret (all_questions, sorted_elements) =>
        exists locs t0,
          length locs = length all_questions
          /\ t = t0 ++ zip_with (fun e loc => Call (location e) (Returned loc))
                        all_questions locs
          /\ sorted_elements
             = map snd (Py.sorted (zip (map position_key locs) all_questions))
    | _ => True
    end).
Proof.
  unfold gather, encode_image. wp; try exact I.
  eapply spec_mono; [apply get_positions_spec|].
  intros o s' t Ho. destruct o as [keys| |]; try exact I.
  destruct Ho as (_ & locs & -> & Hlen & ->). wp.
  exists locs. eexists. split; [exact Hlen|]. split; [|reflexivity].
  rewrite app_nil_r.
  repeat (rewrite app_comm_cons || rewrite app_assoc). reflexivity.
Qed.



End Gathering.



(** ** The thread and the content buffer *)

Lemma silent_requests_dumps (t : list Event) :
  Forall silent t -> answer_requests t = [] /\ dumped t = [].
Proof.
  unfold answer_requests, dumped.
  induction 1 as [|ev t [H1 H2] _ [IH1 IH2]]; [easy|].
  cbn [omap list_omap]. now rewrite H1, H2, IH1, IH2.
Qed.

Lemma answer_requests_app t1 t2 :
  answer_requests (t1 ++ t2) = answer_requests t1 ++ answer_requests t2.
Proof. apply omap_app. Qed.

Lemma dumped_app t1 t2 : dumped (t1 ++ t2) = dumped t1 ++ dumped t2.
Proof. apply omap_app. Qed.

Section Quiet.
Context {W : Type} `{!Driver W}.


Lemma quiet_ret {A} (a : A) : quiet (ret (W := W) a).
Proof. intros s. apply spec_ret. auto. Qed.

Lemma quiet_raise {A} e : quiet (raise (W := W) (A := A) e).
Proof. intros s. apply spec_raise. auto. Qed.

Lemma quiet_out_of_fuel {A} : quiet (out_of_fuel (W := W) (A := A)).
Proof. intros s. apply spec_out_of_fuel. auto. Qed.

Lemma quiet_call {A} (op : Op A) :
  (forall r, silent (Call op r)) -> quiet (call (W := W) op).
Proof. intros Hop s. apply spec_call; intros; simpl; auto. Qed.

Lemma quiet_bind {A B} (m : M W A) (k : A -> M W B) :
  quiet m -> (forall a, quiet (k a)) -> quiet (bind m k).
Proof.
  intros Hm Hk s. apply spec_bind. eapply spec_mono; [apply Hm|].
  intros o s1 t1 [Hh Ht]. destruct o as [a| |]; auto.
  eapply spec_mono; [apply Hk|]. intros o' s2 t2 [Hh' Ht']. split.
  - congruence.
  - apply Forall_app. auto.
Qed.

Lemma quiet_for_list {A B} (f : A -> M W B) (l : list A) :
  (forall x, quiet (f x)) -> quiet (for_list f l).
Proof.
  intros Hf. induction l as [|x l IH]; simpl.
  - apply quiet_ret.
  - apply quiet_bind; [apply Hf|]. intros y.
    apply quiet_bind; [apply IH|]. intros ys. apply quiet_ret.
Qed.

End Quiet.

Ltac quiet_step :=
  lazymatch goal with
  | |- quiet (bind _ _) => apply quiet_bind; [|intros ?]
  | |- quiet (ret _) => apply quiet_ret
  | |- quiet (raise _) => apply quiet_raise
  | |- quiet out_of_fuel => apply quiet_out_of_fuel
  | |- quiet (call _) => apply quiet_call; intros ?; split; reflexivity
  | |- quiet (match ?x with _ => _ end) => destruct x
  end.

Section QuietCapture.
Context {W : Type} `{!Driver W}.

Lemma scroll_loop_quiet fuel filepath screenshots last :
  quiet (scroll_loop (W := W) fuel filepath screenshots last).
Proof.
  revert screenshots last. induction fuel as [|fuel IH]; intros screenshots last; simpl.
  - apply quiet_out_of_fuel.
  - unfold scroll_round. repeat quiet_step. apply IH.
Qed.

Lemma capture_quiet fuel p : quiet (capture (W := W) fuel p).
Proof.
  unfold capture, take_screenshots_scroll, stitch_images_vertically.
  quiet_step; [apply scroll_loop_quiet|].
  quiet_step; [|repeat quiet_step].
  quiet_step; [apply quiet_for_list; intros x; quiet_step|].
  repeat quiet_step.
Qed.

Lemma next_page_quiet : quiet (next_page (W := W)).
Proof.
  intros s. unfold next_page. apply spec_try_except.
  wp; simpl; (split; [reflexivity|]); repeat constructor.
Qed.

End QuietCapture.

Section QuestionThread.
Context {W : Type} `{!Driver W}.

Lemma to_json_question (h : list (list Part)) (msgs : list Message) c x parts :
  h !! c = Some parts ->
  map (to_json (alter (fun c0 => c0 ++ [x]) c h))
    (msgs ++ [ {| role := user; content := Ref c |} ])
  = map (to_json (alter (fun c0 => c0 ++ [x]) c h)) msgs
    ++ [ {| jrole := user; jcontent := JList (parts ++ [x]) |} ].
Proof.
  intros Hc. rewrite map_app. simpl. unfold to_json at 2. simpl.
  now rewrite list_lookup_alter_eq, Hc.
Qed.

(** What answering one question does to the thread and to the content
    buffer, whose cell holds [parts] when the question's turn comes. *)
Lemma answer_question_thread element msgs content (s : Store W) :
  spec (answer_question element msgs content) s (fun o s' t =>
    dumped t = []
    /\ forall parts, heap s !! content = Some parts ->
         (answer_requests t = [] /\ heap s' = heap s
          /\ match o with Ret r => r = (msgs, content) | _ => True end)
         \/ exists q req,
              answer_requests t = [req]
              /\ messages req
                 = map (to_json (alter (fun c0 => c0 ++ [question_text q])
                                   content (heap s))) msgs
                   ++ [ {| jrole := user;
                           jcontent := JList (parts ++ [question_text q]) |} ]
              /\ match o with
                 | Ret r =>
                     (exists summary,
                         r.1 = msgs ++ [ {| role := assistant;
                                            content := Str summary |} ])
                     /\ r.2 = length (heap s)
                     /\ heap s'
                        = alter (fun c0 => c0 ++ [question_text q])
                            content (heap s) ++ [[]]
                 | _ => True
                 end).
Proof.
  unfold answer_question, branch_cbc_task, branch_select,
    branch_question_numeric, branch_response_column, branch_textarea,
    exchange, answer_survey_choice, answer_survey_other, summarize_answer.
  wp; (split; [reflexivity|]); intros parts Hparts.
  all: try (left; repeat split; reflexivity).
  all: right; eexists _, _; (split; [reflexivity|]); simpl;
    (split; [apply to_json_question, Hparts|]); try exact I.
  all: rewrite removelast_last, length_alter; eauto.
Qed.

End QuestionThread.

Section PageThread.
Context {W : Type} `{!Driver W}.

(** A loop that keeps [R] between its turns: [R] relates the loop's
    variables, the store and the trace since [tacc]; [E] is what is left
    when the loop does not return. *)
Lemma for_range_spec {S} (range : list nat) (body : nat -> S -> M W S)
    (R : S -> Store W -> list Event -> Prop) (E : Store W -> list Event -> Prop) :
  (forall i st s tacc, R st s tacc ->
     spec (body i st) s (fun o s' t =>
       match o with
       | Ret st' => R st' s' (tacc ++ t)
       | _ => E s' (tacc ++ t)
       end)) ->
  forall st s tacc, R st s tacc ->
    spec (for_range range body st) s (fun o s' t =>
      match o with
      | Ret st' => R st' s' (tacc ++ t)
      | _ => E s' (tacc ++ t)
      end).
Proof.
  intros Hbody. induction range as [|i range IH]; intros st s tacc HR; simpl.
  - apply spec_ret. now rewrite app_nil_r.
  - apply spec_bind. eapply spec_mono; [apply (Hbody i st s tacc HR)|].
    intros o s1 t1 Ho. destruct o as [st1| |]; try exact Ho.
    eapply spec_mono; [apply (IH st1 s1 (tacc ++ t1) Ho)|].
    intros o' s2 t2 Ho'. now rewrite app_assoc.
Qed.

Lemma gather_thread p content (s : Store W) :
  spec (gather p content) s (fun o s' t =>
    answer_requests t = [] /\ dumped t = []
    /\ match o with
       | Ret _ =>
           exists b,
             In (Call (read_b64encode (stitched_filename p)) (Returned b)) t
             /\ heap s'
                = alter (fun c0 => c0 ++ [image_url (data_url b)]) content (heap s)
       | _ => True
       end).
Proof.
  unfold gather, encode_image. wp; try (repeat split; reflexivity).
  eapply spec_mono;
    [apply (quiet_for_list get_position); intros x; unfold get_position;
     repeat quiet_step|].
  intros o s' t [Hh Ht]. apply silent_requests_dumps in Ht as [Hr Hd].
  destruct o as [keys| |]; wp.
  all: repeat (rewrite answer_requests_app || rewrite dumped_app);
    rewrite ?Hr, ?Hd; (split; [reflexivity|]); (split; [reflexivity|]); try exact I.
  eexists. split.
  - simpl. do 5 right. left. reflexivity.
  - exact Hh.
Qed.

End PageThread.

(** ** What the dumps hold *)

Lemma thread_ok_mono bound bound' (h h' : list (list Part)) msgs :
  thread_ok bound h msgs ->
  (bound <= bound')%nat ->
  (forall l, (l < bound)%nat -> h' !! l = h !! l) ->
  thread_ok bound' h' msgs.
Proof.
  unfold thread_ok. intros Hok Hle Hsame.
  eapply Forall_impl; [exact Hok|]. intros m Hm. cbn beta in *.
  destruct (content m) as [|l]; [exact I|].
  destruct Hm as [Hl [url Hurl]]. split; [lia|]. exists url. now rewrite Hsame.
Qed.

Lemma thread_ok_clean bound (h : list (list Part)) msgs :
  thread_ok bound h msgs -> clean (map (to_json h) msgs).
Proof.
  unfold thread_ok, clean. intros Hok. apply Forall_map.
  eapply Forall_impl; [exact Hok|]. intros m Hm. cbn beta in Hm.
  unfold carries_question, to_json. simpl.
  destruct (role m); try reflexivity.
  destruct (content m) as [|l]; [reflexivity|].
  destruct Hm as [_ [url ->]]. reflexivity.
Qed.

Section Dumps.
Context {W : Type} `{!Driver W}.

(** The question loop keeps the thread in order: it only adds summaries,
    and the buffer it writes to is younger than every list the thread
    holds. *)
Lemma answer_all_clean url (all_questions sorted_elements : list WebElement)
    msgs content (s : Store W) :
  heap s !! content = Some [image_url url] ->
  thread_ok content (heap s) msgs ->
  spec (answer_all all_questions sorted_elements msgs content) s
    (fun o s' t =>
       dumped t = []
       /\ match o with
          | Ret msgs' => thread_ok (length (heap s')) (heap s') msgs'
          | _ => True
          end).
Proof.
  intros Hc Hok. unfold answer_all. destruct (length all_questions =? 0)%nat.
  - apply spec_ret. split; [reflexivity|].
    apply Forall_app. split.
    + eapply thread_ok_mono; [exact Hok | | auto].
      apply lookup_lt_Some in Hc. lia.
    + constructor; [|constructor]. simpl. split; [|eauto].
      now apply lookup_lt_Some in Hc.
  - apply spec_bind.
    pose (R := fun (st : list Message * nat) (s' : Store W) (tacc : list Event) =>
                 dumped tacc = []
                 /\ (st.2 < length (heap s'))%nat
                 /\ thread_ok st.2 (heap s') st.1).
    pose (E := fun (_ : Store W) (tacc : list Event) => dumped tacc = []).
    eapply spec_mono.
    + apply (for_range_spec _ _ R E) with (tacc := []).
      2: { unfold R. simpl. split; [reflexivity|]. split; [|exact Hok].
           now apply lookup_lt_Some in Hc. }
      clear s Hc Hok. intros i [msgs' c'] s tacc (Hd & Hlt & Hok).
      simpl in Hlt, Hok. simpl.
      destruct (sorted_elements !! i) as [element|].
      * eapply spec_mono; [apply answer_question_thread|].
        intros o s' t [Hdt Hq].
        assert (Hd' : dumped (tacc ++ t) = []) by now rewrite dumped_app, Hd, Hdt.
        destruct (lookup_lt_is_Some_2 (heap s) c' Hlt) as [cur Hcur].
        destruct (Hq cur Hcur) as [(_ & Hh & Ho) | (q & req & _ & _ & Ho)].
        -- destruct o as [r| |]; try exact Hd'.
           subst r. unfold R. simpl. rewrite Hh. auto.
        -- destruct o as [[msgs'' c'']| |]; try exact Hd'.
           destruct Ho as ((summary & Hm) & Hc'' & Hheap). simpl in Hm, Hc''.
           subst msgs'' c''. unfold R. simpl. rewrite Hheap.
           split; [exact Hd'|]. split.
           ++ rewrite length_app, length_alter. simpl. lia.
           ++ apply Forall_app. split; [|repeat constructor].
              eapply thread_ok_mono; [exact Hok | lia |].
              intros l Hl. rewrite lookup_app_l by (rewrite length_alter; lia).
              apply list_lookup_alter_ne. lia.
      * apply spec_raise. unfold E. now rewrite app_nil_r.
    + intros o s' t Ho. simpl in Ho. destruct o as [[msgs' c']| |]; try (split; [exact Ho | exact I]).
      destruct Ho as (Hd & Hlt & Hok'). simpl in Hlt, Hok'.
      apply spec_ret. rewrite app_nil_r. split; [exact Hd|].
      eapply thread_ok_mono; [exact Hok' | lia | auto].
Qed.

Lemma survey_page_clean fuel p msgs (s : Store W) :
  thread_ok (length (heap s)) (heap s) msgs ->
  spec (survey_page fuel p msgs) s (fun o s' t =>
    Forall clean (dumped t)
    /\ match o with
       | Ret r => thread_ok (length (heap s')) (heap s') r.2
       | _ => True
       end).
Proof.
  intros Hok. unfold survey_page. apply spec_bind, spec_new_list.
  apply spec_bind. eapply spec_mono; [apply capture_quiet|].
  intros o1 s1 t1 [Hh1 Ht1]. apply silent_requests_dumps in Ht1 as [_ Hd1].
  simpl in Hh1.
  destruct o1 as [shots| |]; [|simpl; rewrite Hd1; split; [constructor | exact I] ..].
  apply spec_bind. eapply spec_mono; [apply gather_thread|].
  intros o2 s2 t2 (_ & Hd2 & Ho2).
  destruct o2 as [qs| |];
    [|simpl; rewrite dumped_app, Hd1, Hd2; split; [constructor | exact I] ..].
  destruct Ho2 as (b & _ & Hh2).
  assert (Hcell : heap s2 !! length (heap s) = Some [image_url (data_url b)]).
  { rewrite Hh2, Hh1. rewrite list_lookup_alter_eq.
    now rewrite list_lookup_middle. }
  assert (Hok2 : thread_ok (length (heap s)) (heap s2) msgs).
  { eapply thread_ok_mono; [exact Hok | lia |].
    intros l Hl. rewrite Hh2, Hh1.
    rewrite list_lookup_alter_ne by lia. now apply lookup_app_l. }
  apply spec_bind.
  eapply spec_mono; [apply (answer_all_clean _ _ _ _ _ _ Hcell Hok2)|].
  intros o3 s3 t3 (Hd3 & Ho3).
  destruct o3 as [msgs'| |];
    [|simpl; rewrite !dumped_app, Hd1, Hd2, Hd3; split; [constructor | exact I] ..].
  apply thread_ok_clean in Ho3 as Hclean.
  wp; simpl; rewrite !dumped_app, Hd1, Hd2, Hd3; simpl.
  - split; [repeat constructor; exact Hclean | exact Ho3].
  - split; [repeat constructor; exact Hclean | exact I].
Qed.

Lemma survey_loop_clean fuel p msgs (s : Store W) :
  thread_ok (length (heap s)) (heap s) msgs ->
  spec (survey_loop fuel p msgs) s (fun _ _ t => Forall clean (dumped t)).
Proof.
  revert p msgs s. induction fuel as [|fuel IH]; intros p msgs s Hok.
  - apply spec_out_of_fuel. constructor.
  - cbn [survey_loop]. apply spec_bind.
    eapply spec_mono; [apply (survey_page_clean _ _ _ _ Hok)|].
    intros o1 s1 t1 [Hc1 Ho1].
    destruct o1 as [[shots msgs']| |]; try exact Hc1.
    simpl in Ho1. apply spec_bind.
    eapply spec_mono; [apply next_page_quiet|].
    intros o2 s2 t2 [Hh2 Ht2]. apply silent_requests_dumps in Ht2 as [_ Hd2].
    assert (Hc12 : Forall clean (dumped (t1 ++ t2)))
      by (rewrite dumped_app, Hd2, app_nil_r; exact Hc1).
    destruct o2 as [[e|[]]| |]; try exact Hc12.
    + wp. rewrite !dumped_app, Hd2. simpl. now rewrite app_nil_r.
    + wp.
      * eapply spec_mono; [apply IH; simpl; rewrite Hh2; exact Ho1|].
        intros o3 s3 t3 Hc3. rewrite !dumped_app, Hd2. simpl.
        apply Forall_app. auto.
      * rewrite !dumped_app, Hd2. simpl. now rewrite app_nil_r.
Qed.

End Dumps.

(** * Further properties *)

(** ** File names *)

Lemma length_append (a b : string) :
  String.length (a +:+ b) = (String.length a + String.length b)%nat.
Proof. induction a as [|x a IH]; simpl; [reflexivity | now rewrite IH]. Qed.

Lemma append_inj_r (a b c : string) : a +:+ c = b +:+ c -> a = b.
Proof.
  revert b. induction a as [|x a IH]; intros [|y b]; simpl.
  - reflexivity.
  - intros Hc. apply (f_equal String.length) in Hc. simpl in Hc.
    rewrite !length_append in Hc. simpl in Hc. lia.
  - intros Hc. apply (f_equal String.length) in Hc. simpl in Hc.
    rewrite !length_append in Hc. simpl in Hc. lia.
  - intros [= -> Hc]. f_equal. now apply IH.
Qed.

Lemma screenshot_name_inj filepath i j :
  screenshot_name filepath i = screenshot_name filepath j -> i = j.
Proof.
  unfold screenshot_name. intros Hn.
  apply String.app_inj in Hn. apply (String.app_inj "_") in Hn.
  apply append_inj_r in Hn. now apply pretty_nat_inj in Hn.
Qed.

Lemma stitched_filename_inj p q :
  stitched_filename p = stitched_filename q -> p = q.
Proof.
  unfold stitched_filename. intros Hn.
  apply String.app_inj in Hn. apply append_inj_r in Hn.
  now apply pretty_nat_inj in Hn.
Qed.

Lemma screenshot_names_NoDup filepath i n :
  NoDup (map (screenshot_name filepath) (seq i n)).
Proof.
  apply NoDup_fmap_2; [|apply NoDup_seq].
  intros x y. apply screenshot_name_inj.
Qed.

(** X1.  The screenshots of a page are saved under pairwise different
    names, the stitched images of different pages under different names,
    and no stitched image under the name of a screenshot: a page's
    stitching never overwrites what it reads. *)
Theorem file_names_distinct :
  (forall i j, screenshot_name screenshots_path i
               = screenshot_name screenshots_path j -> i = j)
  /\ (forall p q, stitched_filename p = stitched_filename q -> p = q)
  /\ (forall i p, screenshot_name screenshots_path i <> stitched_filename p).
Proof.
  split; [|split].
  - intros i j. apply screenshot_name_inj.
  - apply stitched_filename_inj.
  - intros i p. unfold screenshot_name, stitched_filename, screenshots_path.
    simpl. discriminate.
Qed.

Lemma file_names_distinct_witness : 3%nat = 3%nat /\ 1%nat = 1%nat.
Proof.
  destruct file_names_distinct as (H1 & H2 & _). split.
  - apply (H1 3%nat 3%nat). reflexivity.
  - apply (H2 1%nat 1%nat). reflexivity.
Defined.

(** ** The scroll loop, whenever it returns and when it cannot *)

Section ScrollingOn.
Context {W : Type} `{!Driver W}.

Lemma scroll_loop_returns fuel filepath screenshots last (s : Store W) l s' t :
  scroll_loop fuel filepath screenshots last s = (Ret l, s', t) ->
  exists n saved hs,
    (1 <= n <= fuel)%nat
    /\ length saved = n /\ length hs = n
    /\ l = screenshots
           ++ map (screenshot_name filepath) (seq (length screenshots) n)
    /\ t = rounds_events filepath (length screenshots) saved hs
    /\ first_repeat last hs = Some (n - 1)%nat.
Proof.
  revert screenshots last s l s' t.
  induction fuel as [|fuel IH]; intros screenshots last s l s' t; simpl.
  - discriminate.
  - intros Hl.
    apply run_bind in Hl as [(r & s1 & t1 & t2 & Hr & Hk & ->) | [(e & _ & [=]) | (_ & [=])]].
    destruct r as [shots1 h].
    apply scroll_round_Ret in Hr as (-> & _ & b & ->).
    destruct (h =? last) eqn:Hh.
    + injection Hk as <- <- <-.
      exists 1%nat, [b], [h]. simpl. rewrite Hh.
      repeat split; lia.
    + apply IH in Hk as (n & saved & hs & Hn & Hsaved & Hhs & -> & -> & Hrep).
      exists (S n), (b :: saved), (h :: hs).
      rewrite length_app in *. simpl length in *.
      replace (length screenshots + 1)%nat with (S (length screenshots)) in * by lia.
      repeat split; try lia.
      * simpl. now rewrite <- app_assoc.
      * simpl. rewrite Hh, Hrep. simpl. f_equal. lia.
Qed.

Lemma scroll_loop_runs_out k filepath screenshots last (s : Store W)
    shots hs s' t :
  scroll_rounds k filepath screenshots s = (Ret (shots, hs), s', t) ->
  first_repeat last hs = None ->
  scroll_loop k filepath screenshots last s = (OutOfFuel, s', t).
Proof.
  revert screenshots last s shots hs s' t.
  induction k as [|k IH]; intros screenshots last s shots hs s' t Hk Hrep.
  - simpl in Hk. injection Hk as <- <- <- <-. reflexivity.
  - destruct (scroll_round filepath screenshots s) as [[[[shots1 h]|e|] s1] t1] eqn:Hr;
      [| simpl in Hk; unfold bind in Hk; rewrite Hr in Hk; discriminate ..].
    rewrite (scroll_rounds_S _ _ _ _ _ _ _ _ Hr) in Hk.
    destruct (scroll_rounds k filepath shots1 s1) as [[[[shots' hs']|e|] s2] t2] eqn:Hk';
      [|discriminate|discriminate].
    simpl in Hk. injection Hk as <- <- <- <-.
    simpl in Hrep. destruct (h =? last) eqn:Hh; [discriminate|].
    destruct (first_repeat h hs') eqn:Hrep'; [discriminate|].
    rewrite (scroll_loop_S _ _ _ _ _ _ _ _ _ Hr), Hh.
    rewrite (IH _ _ _ _ _ _ _ Hk' Hrep'). simpl. now rewrite app_nil_r.
Qed.

End ScrollingOn.

(** X2.  Whenever [take_screenshots_scroll] returns, it has made some
    number [n >= 1] of turns, each a screenshot, a scroll, a pause and a
    reading; it returns the [n] names [filepath_0.png] ... in order, all
    different, one per [save_screenshot] call whether or not that call
    reported success; and the last reading is the first one to repeat the
    reading before it (0 before the first). *)
Theorem take_screenshots_scroll_returns {W : Type} `{!Driver W}
    (fuel : nat) (filepath : string) (s : Store W)
    (l : list string) (s' : Store W) (t : list Event) :
  take_screenshots_scroll fuel filepath s = (Ret l, s', t) ->
  exists n saved hs,
    (1 <= n <= fuel)%nat
    /\ length saved = n /\ length hs = n
    /\ l = map (screenshot_name filepath) (seq 0 n)
    /\ NoDup l
    /\ t = rounds_events filepath 0 saved hs
    /\ first_repeat 0 hs = Some (n - 1)%nat.
Proof.
  intros Hl. apply scroll_loop_returns in Hl
    as (n & saved & hs & Hn & Hsaved & Hhs & -> & -> & Hrep).
  exists n, saved, hs. simpl. repeat split; try assumption; try lia.
  apply screenshot_names_NoDup.
Qed.

Lemma take_screenshots_scroll_returns_witness :
  exists n saved hs,
    (1 <= n <= 7)%nat
    /\ length saved = n /\ length hs = n
    /\ ["screenshots/screenshot_0.png"; "screenshots/screenshot_1.png";
        "screenshots/screenshot_2.png"]
       = map (screenshot_name "screenshots/screenshot") (seq 0 n)
    /\ NoDup ["screenshots/screenshot_0.png"; "screenshots/screenshot_1.png";
              "screenshots/screenshot_2.png"]
    /\ rounds_events "screenshots/screenshot" 0 [true; true; true] [600; 900; 900]
       = rounds_events "screenshots/screenshot" 0 saved hs
    /\ first_repeat 0 hs = Some (n - 1)%nat.
Proof.
  exact (take_screenshots_scroll_returns 7 "screenshots/screenshot"
           (Scripted.start
              [Scripted.number 600; Scripted.number 900; Scripted.number 900])
           ["screenshots/screenshot_0.png"; "screenshots/screenshot_1.png";
            "screenshots/screenshot_2.png"]
           (Scripted.start [])
           (rounds_events "screenshots/screenshot" 0 [true; true; true]
              [600; 900; 900])
           eq_refl).
Defined.

(** X3.  On a page where scrolling on and on reads a new position every
    time, none equal to the one before (0 before the first),
    [take_screenshots_scroll] does not return: however many turns [k] it is
    given, it has made all [k] and is still in the loop. *)
Theorem take_screenshots_scroll_runs_on {W : Type} `{!Driver W}
    (k : nat) (filepath : string) (s : Store W)
    (shots : list string) (hs : list Z) (s' : Store W) (t : list Event) :
  scroll_rounds k filepath [] s = (Ret (shots, hs), s', t) ->
  first_repeat 0 hs = None ->
  take_screenshots_scroll k filepath s = (OutOfFuel, s', t)
  /\ length hs = k
  /\ exists saved, length saved = k /\ t = rounds_events filepath 0 saved hs.
Proof.
  intros Hk Hrep. split.
  - unfold take_screenshots_scroll. eapply scroll_loop_runs_out; eassumption.
  - apply scroll_rounds_Ret in Hk as (Hlen & _ & saved & Hsaved & Ht).
    split; [exact Hlen|]. now exists saved.
Qed.

Lemma take_screenshots_scroll_runs_on_witness :
  take_screenshots_scroll 3 "screenshots/screenshot"
    (Scripted.start
       [Scripted.number 100; Scripted.number 200; Scripted.number 300])
  = (OutOfFuel, Scripted.start [],
     rounds_events "screenshots/screenshot" 0 [true; true; true] [100; 200; 300])
  /\ length [100; 200; 300] = 3%nat
  /\ exists saved,
       length saved = 3%nat
       /\ rounds_events "screenshots/screenshot" 0 [true; true; true]
            [100; 200; 300]
          = rounds_events "screenshots/screenshot" 0 saved [100; 200; 300].
Proof.
  exact (take_screenshots_scroll_runs_on 3 "screenshots/screenshot"
           (Scripted.start
              [Scripted.number 100; Scripted.number 200; Scripted.number 300])
           ["screenshots/screenshot_0.png"; "screenshots/screenshot_1.png";
            "screenshots/screenshot_2.png"]
           [100; 200; 300] (Scripted.start [])
           (rounds_events "screenshots/screenshot" 0 [true; true; true]
              [100; 200; 300])
           eq_refl eq_refl).
Defined.

(** ** Stitching: the background, and files that do not open *)

Lemma paste_all_outside imgs canvas y0 i img x y :
  imgs !! i = Some img ->
  (PIL.width img <= x)%N -> (y < PIL.height img)%N ->
  PIL.getpixel (paste_all imgs canvas y0).1 x
    (y0 + Py.sum (map PIL.height (take i imgs)) + y)%N
  = PIL.getpixel canvas x
      (y0 + Py.sum (map PIL.height (take i imgs)) + y)%N.
Proof.
  revert canvas y0 i. induction imgs as [|im imgs IH]; intros canvas y0 i Hi Hx Hy.
  - destruct i; discriminate.
  - rewrite paste_all_cons. destruct i as [|i]; simpl in Hi.
    + injection Hi as ->. simpl take. simpl map.
      rewrite paste_all_above by (unfold Py.sum; simpl; lia).
      simpl.
      replace (x <? 0 + PIL.width img)%N with false
        by (symmetry; apply N.ltb_ge; lia).
      now rewrite andb_false_r.
    + simpl take. simpl map. rewrite Py_sum_cons.
      specialize (IH (PIL.paste canvas im (0%N, y0)) (y0 + PIL.height im)%N
                     i Hi Hx Hy).
      replace (y0 + (PIL.height im + Py.sum (map PIL.height (take i imgs))) + y)%N
        with (y0 + PIL.height im + Py.sum (map PIL.height (take i imgs)) + y)%N
        by lia.
      rewrite IH. simpl.
      replace (y0 + PIL.height im + Py.sum (map PIL.height (take i imgs)) + y
               <? y0 + PIL.height im)%N with false
        by (symmetry; apply N.ltb_ge; lia).
      now rewrite andb_false_r.
Qed.

(** X4.  In the stitched image, the part of each image's band to the right
    of the image is black: a screenshot narrower than the widest one is
    set against the left edge and never stretched or centred. *)
Theorem stitched_background_black (imgs : list PIL.Image)
    (stitched_image : PIL.Image) (i : nat) (img : PIL.Image) (x y : N) :
  stitched imgs = inr stitched_image ->
  imgs !! i = Some img ->
  (PIL.width img <= x)%N -> (y < PIL.height img)%N ->
  PIL.getpixel stitched_image x
    (Py.sum (map PIL.height (take i imgs)) + y)%N
  = black.
Proof.
  intros Hst Hi Hx Hy. unfold stitched in Hst.
  destruct imgs as [|im imgs']; [discriminate|].
  destruct (Py.max (map PIL.width (im :: imgs'))) as [max_width|]; [|discriminate].
  injection Hst as <-.
  pose proof (paste_all_outside (im :: imgs')
                (PIL.new max_width (Py.sum (map PIL.height (im :: imgs'))))
                0%N i img x y Hi Hx Hy) as Hout.
  rewrite !N.add_0_l in Hout. exact Hout.
Qed.

Lemma stitched_background_black_witness :
  exists stitched_image,
    stitched [Scripted.shot;
              {| PIL.width := 2; PIL.height := 1;
                 PIL.getpixel := fun _ _ => (0, 255, 0)%N |}]
    = inr stitched_image
    /\ PIL.getpixel stitched_image 3 3 = black.
Proof.
  eexists. split; [reflexivity|].
  apply (stitched_background_black
           [Scripted.shot;
            {| PIL.width := 2; PIL.height := 1;
               PIL.getpixel := fun _ _ => (0, 255, 0)%N |}]
           _ 1%nat
           {| PIL.width := 2; PIL.height := 1;
              PIL.getpixel := fun _ _ => (0, 255, 0)%N |}
           3%N 0%N); [reflexivity | reflexivity | simpl; lia | simpl; lia].
Defined.

Section OpeningFiles.
Context {W : Type} `{!Driver W}.

(** A list comprehension over one operation stops at the first call that
    raises. *)
Lemma for_list_call_run {A B} (op : A -> Op B) (l : list A) (s : Store W) :
  spec (for_list (fun x => call (op x)) l) s (fun o _ t =>
    (exists ys,
        o = Ret ys /\ length ys = length l
        /\ t = zip_with (fun x y => Call (op x) (Returned y)) l ys)
    \/ exists k x ys what,
         o = Exc (LibraryError what)
         /\ l !! k = Some x /\ length ys = k
         /\ t = zip_with (fun x y => Call (op x) (Returned y)) (take k l) ys
                ++ [Call (op x) (Raised what)]).
Proof.
  revert s. induction l as [|x l IH]; intros s; simpl.
  - apply spec_ret. left. now exists [].
  - apply spec_bind, spec_call; intros.
    + apply spec_bind. eapply spec_mono; [apply IH|].
      intros o s' t [(ys & -> & Hlen & ->) | (k & x' & ys & what & -> & Hk & Hlen & ->)].
      * apply spec_ret. left. exists (a :: ys). simpl. rewrite app_nil_r.
        repeat split. now rewrite Hlen.
      * right. exists (S k), x', (a :: ys), what. simpl.
        repeat split; try assumption. now rewrite Hlen.
    + right. exists 0%nat, x, [], what. repeat split.
Qed.

End OpeningFiles.

(** X5.  [stitch_images_vertically] opens the files in the order of the
    list and stops at the first that does not open: the later files are
    not opened, nothing is saved, and the exception of the opening is the
    outcome.  The only saving is that of the stitched image, after every
    file has opened; with no file at all the outcome is the [ValueError]
    of the unpacking and nothing has been done. *)
Theorem stitch_images_vertically_runs {W : Type} `{!Driver W}
    (images : list string) (output_filename : string) (s : Store W) :
  let '(o, _, t) := stitch_images_vertically images output_filename s in
  (exists k x imgs what,
      images !! k = Some x /\ length imgs = k
      /\ t = zip_with (fun x im => Call (Image_open x) (Returned im))
               (take k images) imgs
             ++ [Call (Image_open x) (Raised what)]
      /\ o = Exc (LibraryError what))
  \/ (exists imgs stitched_image r,
        images <> [] /\ length imgs = length images
        /\ stitched imgs = inr stitched_image
        /\ t = zip_with (fun x im => Call (Image_open x) (Returned im))
                 images imgs
               ++ [Call (Image_save stitched_image output_filename) r]
        /\ o = match r with
               | Returned _ => Ret tt
               | Raised what => Exc (LibraryError what)
               end)
  \/ (images = [] /\ t = [] /\ o = Exc (ValueError unpack_msg)).
Proof.
  pose proof (for_list_call_run Image_open images s) as Hopen.
  unfold spec in Hopen. unfold stitch_images_vertically, bind.
  destruct (for_list (fun x => call (Image_open x)) images s) as [[o1 s1] t1].
  simpl in Hopen.
  destruct Hopen as [(imgs & -> & Hlen & ->) | (k & x & imgs & what & -> & Hk & Hlen & ->)].
  - destruct images as [|x images].
    + destruct imgs; [|discriminate]. right. right. simpl. auto.
    + destruct imgs as [|im imgs]; [discriminate|].
      destruct (stitched_nonempty (im :: imgs)) as (st & Hst & _); [discriminate|].
      rewrite Hst. unfold call.
      destruct (perform (Image_save st output_filename) (world s1)) as [[[]|what] w].
      * right. left. exists (im :: imgs), st, (Returned tt).
        repeat split; [discriminate | exact Hlen | exact Hst].
      * right. left. exists (im :: imgs), st, (Raised what).
        repeat split; [discriminate | exact Hlen | exact Hst].
  - left. exists k, x, imgs, what. repeat split; assumption.
Qed.

(** ** Questions already in order *)

Lemma insert_by_first {A} (x : (Z * Z) * A) (l : list ((Z * Z) * A)) :
  Forall (key_le x) l -> Py.insert_by x l = x :: l.
Proof.
  destruct l as [|y l]; simpl; [reflexivity|].
  intros Hall. inversion Hall as [|? ? Hxy _]; subst.
  unfold key_le in Hxy. now rewrite Hxy.
Qed.

(** X6.  [sorted] leaves a list alone that is already ascending in the
    key: questions detected in the order of their positions are answered
    in the order of detection; and sorting twice is sorting once. *)
Theorem sorted_keeps_sorted {A : Type} (l : list ((Z * Z) * A)) :
  (StronglySorted key_le l -> Py.sorted l = l)
  /\ Py.sorted (Py.sorted l) = Py.sorted l.
Proof.
  assert (Hfix : forall l' : list ((Z * Z) * A),
             StronglySorted key_le l' -> Py.sorted l' = l').
  { induction l' as [|x l' IH]; intros Hs; simpl; [reflexivity|].
    inversion Hs as [|? ? Hs' Hall]; subst.
    rewrite (IH Hs'). now apply insert_by_first. }
  split; [apply Hfix|]. apply Hfix, sorted_sorted.
Qed.

Lemma sorted_keeps_sorted_witness :
  Py.sorted [ ((50, 10), "q1"); ((200, 10), "q2"); ((200, 10), "q3") ]
  = [ ((50, 10), "q1"); ((200, 10), "q2"); ((200, 10), "q3") ].
Proof.
  destruct (sorted_keeps_sorted
              [ ((50, 10), "q1"); ((200, 10), "q2"); ((200, 10), "q3") ])
    as [Hfix _].
  apply Hfix. repeat constructor.
Defined.

(** ** How the page loop ends *)

Lemma step_to_Finished st ev :
  step st ev = Some Finished ->
  exists p, st = NextFailed p /\ ev = Log ERROR (next_button_msg p).
Proof.
  destruct ev as [A op r|[] msg]; simpl.
  - destruct st; try discriminate; destruct op; simpl;
      unfold unless_raised, in_try; try discriminate;
      repeat match goal with
             | |- context [match ?x with _ => _ end] =>
                 destruct x; simpl; try discriminate
             end.
  - destruct st; try discriminate.
    destruct (String.eqb msg (next_button_msg p)) eqn:E; [|discriminate].
    apply String.eqb_eq in E as ->. intros _. now exists p.
Qed.

Lemma step_to_NextFailed st ev p :
  step st ev = Some (NextFailed p) ->
  next_step_failed ev /\ (st = Dumped p \/ st = NextFound p).
Proof.
  destruct ev as [A op r|[] msg]; simpl.
  - destruct st; try discriminate; destruct op; simpl;
      unfold unless_raised, in_try; try discriminate;
      repeat match goal with
             | |- context [match ?x with _ => _ end] =>
                 destruct x eqn:?; simpl; try discriminate
             end;
      intros [= <-]; (split; [|auto]).
    + now apply String.eqb_eq.
    + exact I.
  - destruct st; try discriminate.
    destruct (String.eqb msg (next_button_msg p0)); discriminate.
Qed.

(** One step and the dumps: only the step into [Dumped] is a dump. *)
Lemma step_dumps st ev st' :
  step st ev = Some st' -> st' <> Halted -> st' <> Finished ->
  (length (dumped [ev]) + dumps_behind st = dumps_behind st')%nat.
Proof.
  destruct ev as [A op r|[] msg]; simpl.
  - destruct st; try discriminate; destruct op; simpl;
      unfold unless_raised, in_try; try discriminate;
      repeat match goal with
             | |- context [match ?x with _ => _ end] =>
                 destruct x eqn:?; simpl; try discriminate
             end;
      intros [= <-]; intros; simpl; congruence || lia.
  - destruct st; try discriminate.
    destruct (String.eqb msg (next_button_msg p)); [|discriminate].
    intros [= <-]. congruence.
Qed.

Lemma walk_dumps st t st' :
  walk st t = Some st' -> st' <> Halted -> st' <> Finished ->
  (length (dumped t) + dumps_behind st = dumps_behind st')%nat.
Proof.
  revert st. induction t as [|ev t IH]; intros st; cbn [walk].
  - intros [= ->]. reflexivity.
  - destruct (step st ev) as [st1|] eqn:E; [|discriminate].
    intros Hw H1 H2.
    assert (Hst1 : st1 <> Halted /\ st1 <> Finished).
    { split; intros ->.
      - apply walk_Halted in Hw as Ht. subst t. simpl in Hw. congruence.
      - apply walk_Finished in Hw as Ht. subst t. simpl in Hw. congruence. }
    destruct Hst1 as [H3 H4].
    pose proof (step_dumps _ _ _ E H3 H4) as Hs.
    pose proof (IH _ Hw H1 H2) as Hr.
    change (ev :: t) with ([ev] ++ t). rewrite dumped_app, length_app. lia.
Qed.

(** A walk that ends in [Finished] ends with the failure of the next step
    and the logging of it. *)
Lemma walk_to_Finished st t :
  walk st t = Some Finished ->
  st <> Finished -> (forall p, st <> NextFailed p) ->
  exists p t' ev st0,
    t = t' ++ [ev; Log ERROR (next_button_msg p)]
    /\ next_step_failed ev
    /\ walk st t' = Some st0
    /\ (st0 = Dumped p \/ st0 = NextFound p).
Proof.
  revert st. induction t as [|ev t IH]; intros st; cbn [walk].
  - intros [= ->] H. congruence.
  - destruct (step st ev) as [st1|] eqn:E; [|discriminate].
    intros Hw Hst1 Hst2.
    assert (Hcases : st1 = Finished \/ (exists p, st1 = NextFailed p)
                     \/ (st1 <> Finished /\ forall p, st1 <> NextFailed p)).
    { destruct st1; eauto; right; right; split; congruence. }
    destruct Hcases as [-> | [[p ->] | [Hne1 Hne2]]].
    + apply step_to_Finished in E as (p & -> & _). now destruct (Hst2 p).
    + apply step_to_NextFailed in E as [Hev Hst].
      apply walk_NextFailed in Hw as Ht.
      destruct Ht as [-> | ->]; [simpl in Hw; discriminate|].
      exists p, [], ev, st. repeat split; assumption.
    + destruct (IH st1 Hw Hne1 Hne2) as (p & t' & ev' & st0 & -> & Hev & Hw' & Hst0).
      exists p, (ev :: t'), ev', st0. cbn [walk]. rewrite E.
      repeat split; assumption.
Qed.

Lemma next_step_failed_no_dump ev : next_step_failed ev -> dump_of ev = None.
Proof.
  destruct ev as [A op r|]; simpl; [|tauto].
  destruct r; [tauto|]. destruct op; simpl; tauto.
Qed.

(** X7.  [fill_survey] returns in one way only: the wait for the next
    button, or the click on it, raised, and the error was logged.  The
    page number in the logged message counts the pages dumped before the
    last one: a survey filled to its last page still ends with this
    error. *)
Theorem fill_survey_returns_through_failure {W : Type} `{!Driver W}
    (fuel : nat)
    (age gender Country_origin ethnicity Country student_text work_status : string)
    (s : Store W) (shots : list string) (s' : Store W) (t : list Event) :
  fill_survey fuel age gender Country_origin ethnicity Country student_text
    work_status s = (Ret shots, s', t) ->
  exists p t' ev,
    t = t' ++ [ev; Log ERROR (next_button_msg p)]
    /\ next_step_failed ev
    /\ length (dumped t) = S p.
Proof.
  intros Hrun.
  pose proof (fill_survey_follows fuel age gender Country_origin ethnicity
                Country student_text work_status s) as Hf.
  apply (spec_run _ _ _ _ _ _ Hf) in Hrun as (st & Hw & ->).
  apply walk_to_Finished in Hw as (p & t' & ev & st0 & -> & Hev & Hw' & Hst0);
    [|discriminate|discriminate].
  exists p, t', ev. split; [reflexivity|]. split; [exact Hev|].
  rewrite dumped_app. unfold dumped at 2. cbn [omap list_omap].
  rewrite (next_step_failed_no_dump _ Hev). simpl. rewrite app_nil_r.
  assert (Hd : (length (dumped t') + dumps_behind (Capturing 0)
                = dumps_behind st0)%nat).
  { apply walk_dumps; [exact Hw'| |]; destruct Hst0 as [-> | ->]; discriminate. }
  simpl in Hd. destruct Hst0 as [-> | ->]; simpl in Hd; lia.
Qed.

Lemma fill_survey_returns_through_failure_witness :
  exists p t' ev,
    (fill_survey 2 "34" "Female" "Germany" "White" "Germany"
       "You are not a student" "Full-Time"
       (Scripted.start (Scripted.cbc_page "2"))).2
    = t' ++ [ev; Log ERROR (next_button_msg p)]
    /\ next_step_failed ev
    /\ length (dumped (fill_survey 2 "34" "Female" "Germany" "White" "Germany"
                         "You are not a student" "Full-Time"
                         (Scripted.start (Scripted.cbc_page "2"))).2) = S p.
Proof.
  exact (fill_survey_returns_through_failure 2 "34" "Female" "Germany" "White"
           "Germany" "You are not a student" "Full-Time"
           (Scripted.start (Scripted.cbc_page "2"))
           ["screenshots/screenshot_0.png"]
           (fill_survey 2 "34" "Female" "Germany" "White" "Germany"
              "You are not a student" "Full-Time"
              (Scripted.start (Scripted.cbc_page "2"))).1.2
           (fill_survey 2 "34" "Female" "Germany" "White" "Germany"
              "You are not a student" "Full-Time"
              (Scripted.start (Scripted.cbc_page "2"))).2
           eq_refl).
Defined.

(** ** The loop over the rows *)

Lemma count_app f t1 t2 : count f (t1 ++ t2) = (count f t1 + count f t2)%nat.
Proof. induction t1 as [|ev t1 IH]; simpl; [reflexivity | rewrite IH; lia]. Qed.

Lemma count_none f t :
  Forall (fun ev => f ev = false) t -> count f t = 0%nat.
Proof. induction 1 as [|ev t Hev _ IH]; simpl; [reflexivity | now rewrite Hev, IH]. Qed.

Lemma step_no_browser_op st ev st' :
  step st ev = Some st' -> browser_op ev = false.
Proof.
  destruct ev as [A op r|[] msg]; simpl; [|reflexivity].
  destruct op; try reflexivity; destruct st; discriminate.
Qed.

Lemma walk_no_browser_op st t st' :
  walk st t = Some st' -> Forall (fun ev => browser_op ev = false) t.
Proof.
  revert st. induction t as [|ev t IH]; intros st; cbn [walk].
  - constructor.
  - destruct (step st ev) as [st1|] eqn:E; [|discriminate].
    intros Hw. constructor; [eapply step_no_browser_op, E | eapply IH, Hw].
Qed.

Lemma browser_op_counts t :
  Forall (fun ev => browser_op ev = false) t ->
  count started t = 0%nat /\ count closed t = 0%nat /\ count quit_called t = 0%nat.
Proof.
  intros Hall. repeat split; apply count_none; eapply Forall_impl; try exact Hall;
    intros [A op r|]; simpl; try reflexivity;
    destruct op; simpl; try reflexivity; try discriminate; destruct r; reflexivity.
Qed.

Section RowCounts.
Context {W : Type} `{!Driver W}.

Lemma survey_row_counts fuel row (s : Store W) :
  spec (survey_row fuel row) s (fun o _ t =>
    match o with
    | Ret _ => count started t = 1%nat /\ count closed t = 1%nat
    | _ =>
        ((count started t <= 1)%nat /\ count closed t = 0%nat
         /\ (count quit_called t = 0%nat
             \/ exists t' what, t = t' ++ [Call quit (Raised what)]))
        \/ (count started t = 1%nat /\ count closed t = 1%nat
            /\ exists t' what,
                 t = t' ++ [Call quit (Returned tt);
                            Call (sleep 3) (Raised what)]
                 /\ o = Exc (LibraryError what))
    end).
Proof.
  unfold survey_row.
  apply spec_bind, spec_call; intros; [|simpl; auto].
  apply spec_bind, spec_call; intros; [|simpl; auto].
  apply spec_bind, spec_call; intros; [|simpl; auto].
  apply spec_bind, spec_call; intros; [|simpl; auto].
  apply spec_bind. eapply spec_mono; [apply fill_survey_follows|].
  intros o s' t (st' & Hw & _).
  apply walk_no_browser_op, browser_op_counts in Hw as (Hs & Hc & Hq).
  destruct o as [l|e|].
  - apply spec_bind, spec_call; intros.
    + apply spec_call; intros; rewrite !count_app, ?Hs, ?Hc, ?Hq; simpl.
      * split; lia.
      * right. split; [lia|]. split; [lia|]. destruct a3.
        eexists (_ :: _ :: _ :: _ :: t), what. split; reflexivity.
    + rewrite !count_app, ?Hs, ?Hc, ?Hq. simpl.
      left. split; [lia|]. split; [lia|]. right.
      eexists (_ :: _ :: _ :: _ :: t), what. reflexivity.
  - rewrite !count_app, ?Hs, ?Hc, ?Hq. simpl. auto.
  - rewrite !count_app, ?Hs, ?Hc, ?Hq. simpl. auto.
Qed.

Lemma survey_rows_counts fuel data (s : Store W) :
  spec (survey_rows fuel data) s (fun o _ t =>
    (count closed t <= count started t)%nat
    /\ (count started t <= length data)%nat
    /\ match o with
       | Ret _ => count closed t = length data
       | _ =>
           (count closed t < length data)%nat
           \/ exists t' what,
                t = t' ++ [Call quit (Returned tt); Call (sleep 3) (Raised what)]
                /\ o = Exc (LibraryError what)
       end).
Proof.
  revert s. induction data as [|row data IH]; intros s; simpl.
  - apply spec_ret. simpl. lia.
  - apply spec_bind. eapply spec_mono; [apply survey_row_counts|].
    intros o s1 t1 Ho. destruct o as [[]|e|].
    + destruct Ho as [Hs Hc]. eapply spec_mono; [apply IH|].
      intros o' s2 t2 (H1 & H2 & H3). rewrite !count_app, Hs, Hc.
      destruct o'; (split; [lia|]); (split; [lia|]); try lia.
      * destruct H3 as [H3 | (t' & what & -> & Ho)]; [left; lia|].
        right. exists (t1 ++ t'), what. now rewrite <- app_assoc.
      * destruct H3 as [H3 | (t' & what & -> & Ho)]; [left; lia|].
        right. exists (t1 ++ t'), what. now rewrite <- app_assoc.
    + destruct Ho as [(Hs & Hc & _) | (Hs & Hc & Hend)];
        (split; [lia|]); (split; [lia|]); [left; lia | now right].
    + destruct Ho as [(Hs & Hc & _) | (Hs & Hc & Hend)];
        (split; [lia|]); (split; [lia|]); [left; lia | now right].
Qed.

End RowCounts.

(** X8.  When the survey of one respondent ends in an exception, the loop
    over the rows ends in it too and the respondents after are not
    started.  The browser of that respondent is then not closed, and
    [quit] not even called unless it is the call that raised; the one
    exception is the pause of three seconds after [quit], which leaves the
    browser closed if it is the pause that raises. *)
Theorem exception_stops_the_batch {W : Type} `{!Driver W}
    (fuel : nat) (row : Row) (data : list Row) (s : Store W)
    (e : Exn) (s' : Store W) (t : list Event) :
  survey_row fuel row s = (Exc e, s', t) ->
  survey_rows fuel (row :: data) s = (Exc e, s', t)
  /\ ((count closed t = 0%nat
       /\ (count quit_called t = 0%nat
           \/ exists t' what, t = t' ++ [Call quit (Raised what)]))
      \/ (count closed t = 1%nat
          /\ exists t' what,
               t = t' ++ [Call quit (Returned tt); Call (sleep 3) (Raised what)]
               /\ e = LibraryError what)).
Proof.
  intros Hrow. split.
  - cbn [survey_rows]. unfold bind. now rewrite Hrow.
  - pose proof (survey_row_counts fuel row s) as H.
    apply (spec_run _ _ _ _ _ _ H) in Hrow
      as [(_ & Hopen) | (_ & Hc & t' & what & Ht & He)].
    + now left.
    + right. split; [exact Hc|]. exists t', what. split; [exact Ht|].
      now injection He.
Qed.

Lemma exception_stops_the_batch_witness :
  (survey_rows 2
     [ {| Age := "34"; Sex := "Female"; Country_of_birth := "Germany";
          Ethnicity := "White"; Country_of_residence := "Germany";
          Student_status := "No"; Employment_status := "Full-Time" |};
       {| Age := "21"; Sex := "Male"; Country_of_birth := "Germany";
          Ethnicity := "White"; Country_of_residence := "Germany";
          Student_status := "Yes"; Employment_status := "Part-Time" |} ]
     (Scripted.start (Scripted.cbc_page "Option 2"))).1.1
  = Exc (ValueError "invalid literal for int() with base 10: 'Option 2'").
Proof.
  pose (row := {| Age := "34"; Sex := "Female"; Country_of_birth := "Germany";
                  Ethnicity := "White"; Country_of_residence := "Germany";
                  Student_status := "No"; Employment_status := "Full-Time" |}).
  pose (s := Scripted.start (Scripted.cbc_page "Option 2")).
  assert (Hrow : survey_row 2 row s
                 = (Exc (ValueError
                           "invalid literal for int() with base 10: 'Option 2'"),
                    (survey_row 2 row s).1.2, (survey_row 2 row s).2))
    by reflexivity.
  destruct (exception_stops_the_batch 2 row
              [ {| Age := "21"; Sex := "Male"; Country_of_birth := "Germany";
                   Ethnicity := "White"; Country_of_residence := "Germany";
                   Student_status := "Yes"; Employment_status := "Part-Time" |} ]
              s _ _ _ Hrow) as [Hrows _].
  fold row s. now rewrite Hrows.
Defined.

(** X9.  In any run of the loop over the rows no more browsers are started
    than there are rows and none is closed that was not started.  When
    the loop returns, every row's browser was closed; when it does not,
    fewer browsers were closed than there are rows, unless what ended the
    run is the pause of three seconds after a [quit] that returned. *)
Theorem one_browser_per_row {W : Type} `{!Driver W}
    (fuel : nat) (data : list Row) (s : Store W) :
  let '(o, _, t) := survey_rows fuel data s in
  (count closed t <= count started t)%nat
  /\ (count started t <= length data)%nat
  /\ match o with
     | Ret _ => count closed t = length data
     | _ =>
         (count closed t < length data)%nat
         \/ exists t' what,
              t = t' ++ [Call quit (Returned tt); Call (sleep 3) (Raised what)]
              /\ o = Exc (LibraryError what)
     end.
Proof.
  pose proof (survey_rows_counts fuel data s) as H. unfold spec in H.
  now destruct (survey_rows fuel data s) as [[o s'] t].
Qed.

(** ** What the script touches and what it sends *)

Section Emits.
Context {W : Type} `{!Driver W}.
Variable P : Event -> Prop.

Lemma emits_ret {A} (a : A) (R : A -> Prop) : R a -> emits P (ret (W := W) a) R.
Proof. intros HR s. apply spec_ret. auto. Qed.

Lemma emits_raise {A} e (R : A -> Prop) : emits P (raise (W := W) e) R.
Proof. intros s. apply spec_raise. auto. Qed.

Lemma emits_out_of_fuel {A} (R : A -> Prop) : emits P (out_of_fuel (W := W)) R.
Proof. intros s. apply spec_out_of_fuel. auto. Qed.

Lemma emits_call {A} (op : Op A) :
  (forall r, P (Call op r)) -> emits P (call (W := W) op) (fun _ => True).
Proof. intros Hop s. apply spec_call; intros; simpl; auto. Qed.

Lemma emits_bind {A B} (m : M W A) (k : A -> M W B) R1 (R : B -> Prop) :
  emits P m R1 -> (forall a, R1 a -> emits P (k a) R) -> emits P (bind m k) R.
Proof.
  intros Hm Hk s. apply spec_bind. eapply spec_mono; [apply Hm|].
  intros o s1 t1 [Ht Ho]. destruct o as [a| |]; auto.
  eapply spec_mono; [apply (Hk a Ho)|]. intros o' s2 t2 [Ht' Ho']. split.
  - apply Forall_app. auto.
  - exact Ho'.
Qed.

Lemma emits_mono {A} (m : M W A) (R R' : A -> Prop) :
  emits P m R -> (forall a, R a -> R' a) -> emits P m R'.
Proof.
  intros Hm HR s. eapply spec_mono; [apply Hm|].
  intros o s' t [Ht Ho]. split; [exact Ht|]. destruct o; auto.
Qed.

Lemma emits_try_except {A} (m : M W A) R :
  emits P m R -> emits P (try_except m) (fun _ => True).
Proof.
  intros Hm s. apply spec_try_except. eapply spec_mono; [apply Hm|].
  intros o s' t [Ht _]. destruct o; auto.
Qed.

Lemma emits_dumps msgs : emits P (dumps (W := W) msgs) (fun _ => True).
Proof. intros s. apply spec_dumps. auto. Qed.

Lemma emits_new_list : emits P (new_list (W := W)) (fun _ => True).
Proof. intros s. apply spec_new_list. auto. Qed.

Lemma emits_list_append l x : emits P (list_append (W := W) l x) (fun _ => True).
Proof. intros s. apply spec_list_append. auto. Qed.

Lemma emits_log level msg :
  P (Log level msg) -> emits P (log (W := W) level msg) (fun _ => True).
Proof. intros Hl s. apply spec_log. auto. Qed.

Lemma emits_for_list {A B} (f : A -> M W B) (l : list A) (Q : A -> Prop) :
  (forall x, Q x -> emits P (f x) (fun _ => True)) ->
  Forall Q l -> emits P (for_list f l) (fun _ => True).
Proof.
  intros Hf. induction 1 as [|x l Hx _ IH]; simpl.
  - now apply emits_ret.
  - eapply emits_bind; [apply (Hf x Hx)|]. intros y _.
    eapply emits_bind; [apply IH|]. intros ys _. now apply emits_ret.
Qed.

Lemma emits_for_range {S} (range : list nat) (body : nat -> S -> M W S) st :
  (forall i st', emits P (body i st') (fun _ => True)) ->
  emits P (for_range range body st) (fun _ => True).
Proof.
  intros Hbody. revert st. induction range as [|i range IH]; intros st; simpl.
  - now apply emits_ret.
  - eapply emits_bind; [apply Hbody|]. intros st' _. apply IH.
Qed.

End Emits.

(** The steps of a proof that a function emits disciplined events. *)
Ltac emit_call :=
  apply emits_call; intros ?; split; simpl; repeat split; eauto.

Ltac emit :=
  lazymatch goal with
  | |- emits _ (bind (call _) _) _ =>
      eapply emits_bind; [emit_call | intros ? _]
  | |- emits _ (bind (dumps _) _) _ =>
      eapply emits_bind; [apply emits_dumps | intros ? _]
  | |- emits _ (bind new_list _) _ =>
      eapply emits_bind; [apply emits_new_list | intros ? _]
  | |- emits _ (bind (list_append _ _) _) _ =>
      eapply emits_bind; [apply emits_list_append | intros ? _]
  | |- emits _ (bind (bind _ _) _) _ =>
      eapply (emits_bind _ _ _ (fun _ => True)); [|intros ? _]
  | |- emits _ (ret _) _ => apply emits_ret; try exact I
  | |- emits _ (raise _) _ => apply emits_raise
  | |- emits _ (call _) _ => emit_call
  | |- emits _ (match ?x with _ => _ end) _ => destruct x
  end.

Section Discipline.
Context {W : Type} `{!Driver W}.

Lemma scroll_loop_disciplined fuel screenshots last :
  screenshot_names screenshots ->
  emits (W := W) disciplined (scroll_loop fuel screenshots_path screenshots last)
    screenshot_names.
Proof.
  revert screenshots last. induction fuel as [|fuel IH]; intros screenshots last Hs; simpl.
  - apply emits_out_of_fuel.
  - unfold scroll_round.
    eapply emits_bind.
    { eapply emits_bind; [emit_call | intros ? _]. repeat emit.
      instantiate (1 := fun r => screenshot_names r.1). simpl.
      apply Forall_app. split; [exact Hs|]. repeat constructor. now eexists. }
    intros [shots h] Hshots. simpl in Hshots. destruct (h =? last).
    + now apply emits_ret.
    + now apply IH.
Qed.

Lemma capture_disciplined fuel p :
  emits (W := W) disciplined (capture fuel p) (fun _ => True).
Proof.
  unfold capture, take_screenshots_scroll, stitch_images_vertically.
  eapply emits_bind; [apply scroll_loop_disciplined; constructor|].
  intros l Hl.
  eapply (emits_bind _ _ _ (fun _ => True)); [|intros; now apply emits_ret].
  eapply (emits_bind _ _ _ (fun _ => True)).
  - apply (emits_for_list _ _ _ (fun f => exists i, f = screenshot_name screenshots_path i));
      [|exact Hl].
    intros x Hx. emit_call.
  - intros imgs _. destruct (stitched imgs); [apply emits_raise|].
    emit_call.
Qed.

Lemma gather_disciplined p content :
  emits (W := W) disciplined (gather p content) (fun _ => True).
Proof.
  unfold gather, encode_image. repeat emit.
  eapply (emits_bind _ _ _ (fun _ => True)); [|intros; now apply emits_ret].
  apply (emits_for_list _ _ _ (fun _ => True)); [|apply Forall_true; auto].
  intros x _. unfold get_position. repeat emit.
Qed.

Lemma answer_question_disciplined element msgs content :
  emits (W := W) disciplined (answer_question element msgs content) (fun _ => True).
Proof.
  unfold answer_question, branch_cbc_task, branch_select,
    branch_question_numeric, branch_response_column, branch_textarea,
    exchange, answer_survey_choice, answer_survey_other, summarize_answer.
  repeat (emit || (cbn beta iota zeta)).
Qed.

Lemma survey_page_disciplined fuel p msgs :
  emits (W := W) disciplined (survey_page fuel p msgs) (fun _ => True).
Proof.
  unfold survey_page. emit.
  eapply emits_bind; [apply capture_disciplined|]. intros shots _.
  eapply emits_bind; [apply gather_disciplined|]. intros qs _.
  eapply (emits_bind _ _ _ (fun _ => True)).
  { unfold answer_all. destruct (length qs.1 =? 0)%nat; [now apply emits_ret|].
    eapply (emits_bind _ _ _ (fun _ => True)); [|intros; now apply emits_ret].
    apply emits_for_range. intros i st.
    destruct (qs.2 !! i); [apply answer_question_disciplined | apply emits_raise]. }
  intros msgs' _. repeat emit.
Qed.

Lemma survey_loop_disciplined fuel p msgs :
  emits (W := W) disciplined (survey_loop fuel p msgs) (fun _ => True).
Proof.
  revert p msgs. induction fuel as [|fuel IH]; intros p msgs.
  - apply emits_out_of_fuel.
  - cbn [survey_loop].
    eapply emits_bind; [apply survey_page_disciplined|]. intros [shots msgs'] _.
    eapply (emits_bind _ _ _ (fun _ => True)).
    { unfold next_page. eapply emits_try_except. repeat emit. }
    intros [e|[]] _.
    + eapply emits_bind; [apply emits_log; split; exact I|].
      intros; now apply emits_ret.
    + emit. apply IH.
Qed.

End Discipline.

(** X10.  In any run of [fill_survey], screenshots are saved and opened only
    under names [screenshots/screenshot_i.png], stitched images are saved
    and read back only under names [stitched/survey_screenshot_p.png], and
    the thread is dumped only to [messages.json]: every page's dump
    replaces the one before, and no other file is named. *)
Theorem files_touched {W : Type} `{!Driver W}
    (fuel : nat)
    (age gender Country_origin ethnicity Country student_text work_status : string)
    (s : Store W) :
  Forall file_ok
    (fill_survey fuel age gender Country_origin ethnicity Country student_text
       work_status s).2.
Proof.
  destruct (survey_loop_disciplined fuel 0
              [ {| role := system;
                   content := Str (system_prompt age gender Country_origin
                                     ethnicity Country student_text work_status) |} ]
              s) as [Hall _].
  eapply Forall_impl; [exact Hall|]. now intros ev [Hf _].
Qed.

(** X11.  In any run of [fill_survey], a request for an answer goes to
    gpt-4o with [top_p] and [temperature] at 0.5, and a request for a
    summary goes to gpt-4o-mini with the client's defaults and exactly two
    messages, both plain strings: the summariser is never sent the thread
    or an image. *)
Theorem requests_made {W : Type} `{!Driver W}
    (fuel : nat)
    (age gender Country_origin ethnicity Country student_text work_status : string)
    (s : Store W) :
  Forall request_ok
    (fill_survey fuel age gender Country_origin ethnicity Country student_text
       work_status s).2.
Proof.
  destruct (survey_loop_disciplined fuel 0
              [ {| role := system;
                   content := Str (system_prompt age gender Country_origin
                                     ethnicity Country student_text work_status) |} ]
              s) as [Hall _].
  eapply Forall_impl; [exact Hall|]. now intros ev [_ Hr].
Qed.

(** ** What is gathered, and pages without questions *)

Lemma queries_app t1 t2 : queries (t1 ++ t2) = queries t1 ++ queries t2.
Proof. apply omap_app. Qed.

Lemma injections_app t1 t2 : injections (t1 ++ t2) = injections t1 ++ injections t2.
Proof. apply omap_app. Qed.

Lemma mute_queries_injections (t : list Event) :
  Forall mute t -> queries t = [] /\ injections t = [].
Proof.
  unfold queries, injections.
  induction 1 as [|ev t [H1 H2] _ [IH1 IH2]]; [easy|].
  cbn [omap list_omap]. now rewrite H1, H2, IH1, IH2.
Qed.

Section Gathered.
Context {W : Type} `{!Driver W}.

Lemma scroll_loop_mute fuel filepath screenshots last :
  emits (W := W) mute (scroll_loop fuel filepath screenshots last) (fun _ => True).
Proof.
  revert screenshots last. induction fuel as [|fuel IH]; intros screenshots last; simpl.
  - apply emits_out_of_fuel.
  - unfold scroll_round.
    eapply (emits_bind _ _ _ (fun _ => True)); [repeat emit|].
    intros [shots h] _. destruct (h =? last); [now apply emits_ret | apply IH].
Qed.

Lemma capture_mute fuel p : emits (W := W) mute (capture fuel p) (fun _ => True).
Proof.
  unfold capture, take_screenshots_scroll, stitch_images_vertically.
  eapply emits_bind; [apply scroll_loop_mute|]. intros l _.
  eapply (emits_bind _ _ _ (fun _ => True)); [|intros; now apply emits_ret].
  eapply (emits_bind _ _ _ (fun _ => True)).
  - apply (emits_for_list _ _ _ (fun _ => True)); [|apply Forall_true; auto].
    intros x _. emit_call.
  - intros imgs _. destruct (stitched imgs); [apply emits_raise | emit_call].
Qed.

Lemma get_positions_mute (l : list WebElement) :
  emits (W := W) mute (for_list get_position l) (fun _ => True).
Proof.
  apply (emits_for_list _ _ _ (fun _ => True)); [|apply Forall_true; auto].
  intros x _. unfold get_position. repeat emit.
Qed.

(** What [gather] asked the page and what it made of the answers. *)
Lemma gather_questions p content (s : Store W) :
  spec (gather p content) s (fun o _ t =>
    injections t = []
    /\ match o with
       | Ret qs =>
           map fst (queries t) = question_queries
           /\ qs.1 = concat (map snd (queries t))
       | _ => True
       end).
Proof.
  unfold gather, encode_image. wp; try (split; [reflexivity | exact I]).
  eapply spec_mono; [apply get_positions_mute|].
  intros o s' t [Ht _]. apply mute_queries_injections in Ht as [Hq Hi].
  destruct o as [keys| |]; wp.
  all: repeat (rewrite queries_app || rewrite injections_app);
    rewrite ?Hq, ?Hi; simpl; (split; [reflexivity|]); try exact I.
  split; [reflexivity|]. now rewrite !app_nil_r.
Qed.

End Gathered.

(** X12.  [all_questions] is the five lists the five queries returned, one
    after the other in the order of the queries, with nothing removed: an
    element that two queries return is in it twice, and is therefore in
    [sorted_elements] twice and answered twice. *)
Theorem gather_keeps_duplicates {W : Type} `{!Driver W}
    (p content : nat) (s : Store W)
    (all_questions sorted_elements : list WebElement)
    (s' : Store W) (t : list Event) :
  gather p content s = (Ret (all_questions, sorted_elements), s', t) ->
  map fst (queries t) = question_queries
  /\ all_questions = concat (map snd (queries t))
  /\ Permutation sorted_elements all_questions.
Proof.
  intros Hg.
  pose proof (gather_questions p content s) as Hq.
  apply (spec_run _ _ _ _ _ _ Hq) in Hg as Hq'. destruct Hq' as (_ & Hby & Hall).
  pose proof (gather_spec p content s) as Hs.
  apply (spec_run _ _ _ _ _ _ Hs) in Hg as (locs & t0 & Hlen & _ & ->).
  split; [exact Hby|]. split; [exact Hall|].
  rewrite (sorted_perm (zip (map position_key locs) all_questions)).
  rewrite zip_snd_length; [reflexivity | now rewrite length_map].
Qed.

Lemma gather_keeps_duplicates_witness :
  let s := {| world := [ Scripted.elements []; Scripted.elements ["d1"];
                         Scripted.elements []; Scripted.elements ["d1"];
                         Scripted.elements [];
                         Scripted.str "iVBORw0KGgo=";
                         Scripted.position 10 50; Scripted.position 10 50 ];
              heap := [[]] |} in
  map fst (queries (gather 0 0 s).2) = question_queries
  /\ ["d1"; "d1"] = concat (map snd (queries (gather 0 0 s).2))
  /\ Permutation ["d1"; "d1"] ["d1"; "d1"].
Proof.
  intros s.
  assert (Hg : gather 0 0 s
               = (Ret (["d1"; "d1"], ["d1"; "d1"]), (gather 0 0 s).1.2,
                  (gather 0 0 s).2)) by reflexivity.
  exact (gather_keeps_duplicates 0 0 s _ _ _ _ Hg).
Defined.

Lemma concat_nothing {A B} (qs : list (A * list B)) :
  Forall (fun q => q.2 = []) qs -> concat (map snd qs) = [].
Proof. induction 1 as [|q qs Hq _ IH]; simpl; [reflexivity | now rewrite Hq, IH]. Qed.

(** X13.  On a page where every query for questions comes back empty, no
    request is made and nothing is written into the form; the thread gets
    one more message, a user message whose content is the page's content
    list, and that list holds the page's stitched image and nothing else.
    The thread so extended is what is dumped. *)
Theorem page_without_questions {W : Type} `{!Driver W}
    (fuel p : nat) (msgs : list Message) (s : Store W)
    (shots : list string) (msgs' : list Message)
    (s' : Store W) (t : list Event) :
  survey_page fuel p msgs s = (Ret (shots, msgs'), s', t) ->
  Forall (fun q => q.2 = []) (queries t) ->
  msgs' = msgs ++ [image_message (length (heap s))]
  /\ (exists b,
        In (Call (read_b64encode (stitched_filename p)) (Returned b)) t
        /\ heap s' !! length (heap s) = Some [image_url (data_url b)])
  /\ answer_requests t = []
  /\ injections t = []
  /\ dumped t = [map (to_json (heap s')) msgs'].
Proof.
  intros Hrun Hempty. unfold survey_page in Hrun.
  apply run_bind in Hrun
    as [(c & s0 & t0 & tr & Hnew & Hrun & ->) | [(e & _ & [=]) | (_ & [=])]].
  unfold new_list in Hnew. injection Hnew as <- <- <-.
  apply run_bind in Hrun
    as [(shots0 & s1 & t1 & tr1 & Hcap & Hrun & ->) | [(e & _ & [=]) | (_ & [=])]].
  apply run_bind in Hrun
    as [(qs & s2 & t2 & tr2 & Hg & Hrun & ->) | [(e & _ & [=]) | (_ & [=])]].
  apply run_bind in Hrun
    as [(msgs1 & s3 & t3 & tr3 & Ha & Hrun & ->) | [(e & _ & [=]) | (_ & [=])]].
  apply run_bind in Hrun
    as [(payload & s4 & t4 & tr4 & Hd & Hrun & ->) | [(e & _ & [=]) | (_ & [=])]].
  unfold dumps in Hd. injection Hd as <- <- <-.
  apply run_bind in Hrun
    as [([] & s5 & t5 & tr5 & Hj & Hrun & ->) | [(e & _ & [=]) | (_ & [=])]].
  injection Hrun as <- <- <- <-.
  apply run_call in Hj as (Hh5 & r & _ & -> & Hr).
  destruct r as [[]|]; [clear Hr | discriminate].
  pose proof (spec_run _ _ _ _ _ _ (capture_quiet fuel p _) Hcap) as [Hh1 Hsil].
  apply silent_requests_dumps in Hsil as [Hr1 Hd1].
  pose proof (spec_run _ _ _ _ _ _ (capture_mute fuel p _) Hcap) as [Hmute _].
  apply mute_queries_injections in Hmute as [Hq1 Hi1].
  pose proof (spec_run _ _ _ _ _ _ (gather_thread p _ _) Hg)
    as (Hr2 & Hd2 & b & Hin & Hh2).
  pose proof (spec_run _ _ _ _ _ _ (gather_questions p _ _) Hg)
    as (Hi2 & _ & Hall).
  simpl in Hh1, Hh2.
  assert (Hnone : qs.1 = []).
  { rewrite Hall. apply concat_nothing.
    simpl in Hempty. rewrite !queries_app, Hq1 in Hempty. simpl in Hempty.
    now apply Forall_app in Hempty as [Hempty _]. }
  unfold answer_all in Ha. rewrite Hnone in Ha. simpl in Ha.
  injection Ha as <- <- <-.
  assert (Hcell : heap s2 !! length (heap s) = Some [image_url (data_url b)]).
  { rewrite Hh2, Hh1. rewrite list_lookup_alter_eq.
    now rewrite list_lookup_middle. }
  split; [reflexivity|]. split.
  { exists b. split.
    - simpl. apply in_or_app. right. apply in_or_app. now left.
    - now rewrite Hh5. }
  simpl.
  rewrite !answer_requests_app, !injections_app, !dumped_app,
    Hr1, Hr2, Hd1, Hd2, Hi1, Hi2. simpl.
  repeat split. now rewrite Hh5.
Qed.

Lemma page_without_questions_witness :
  let s := Scripted.start
             [ Scripted.number 0; Scripted.image Scripted.shot;
               Scripted.elements []; Scripted.elements []; Scripted.elements [];
               Scripted.elements []; Scripted.elements [];
               Scripted.str "iVBORw0KGgo=" ] in
  let run := survey_page 1 0 Scripted.thread0 s in
  Scripted.thread0 ++ [image_message 0]
  = Scripted.thread0 ++ [image_message (length (heap s))]
  /\ (exists b,
        In (Call (read_b64encode (stitched_filename 0)) (Returned b)) run.2
        /\ heap run.1.2 !! length (heap s) = Some [image_url (data_url b)])
  /\ answer_requests run.2 = []
  /\ injections run.2 = []
  /\ dumped run.2
     = [map (to_json (heap run.1.2)) (Scripted.thread0 ++ [image_message 0])].
Proof.
  intros s run.
  assert (Hrun : survey_page 1 0 Scripted.thread0 s
                 = (Ret (["screenshots/screenshot_0.png"],
                         Scripted.thread0 ++ [image_message 0]),
                    run.1.2, run.2)) by reflexivity.
  apply (page_without_questions 1 0 Scripted.thread0 s _ _ _ _ Hrun).
  repeat constructor.
Defined.

(** ** What every request and every dump carries *)

Section ThreadInvariant.
Context {W : Type} `{!Driver W}.

(** A property [I] of the thread that survives the appending of any message
    but a system message, and a property [J] of JSON threads that the
    serialisation of a thread with [I] has, and keeps when such a message
    is added. *)
Variable I : list Message -> Prop.
Variable J : list JMessage -> Prop.
Hypothesis I_snoc : forall msgs m, I msgs -> role m <> system -> I (msgs ++ [m]).
Hypothesis I_json : forall h msgs, I msgs -> J (map (to_json h) msgs).
Hypothesis J_snoc : forall payload q, J payload -> jrole q <> system -> J (payload ++ [q]).

Lemma answer_all_carries (all_questions sorted_elements : list WebElement)
    msgs content (s : Store W) :
  (content < length (heap s))%nat ->
  I msgs ->
  spec (answer_all all_questions sorted_elements msgs content) s
    (fun o s' t =>
       Forall J (map messages (answer_requests t))
       /\ dumped t = []
       /\ match o with Ret msgs' => I msgs' | _ => True end).
Proof.
  intros Hc HI. unfold answer_all. destruct (length all_questions =? 0)%nat.
  - apply spec_ret. split; [constructor|]. split; [reflexivity|].
    now apply I_snoc.
  - apply spec_bind.
    pose (R := fun (st : list Message * nat) (s' : Store W) (tacc : list Event) =>
                 Forall J (map messages (answer_requests tacc))
                 /\ dumped tacc = []
                 /\ (st.2 < length (heap s'))%nat
                 /\ I st.1).
    pose (E := fun (_ : Store W) (tacc : list Event) =>
                 Forall J (map messages (answer_requests tacc))
                 /\ dumped tacc = []).
    eapply spec_mono.
    + apply (for_range_spec _ _ R E) with (tacc := []).
      2: { unfold R. simpl. repeat split; [constructor | assumption ..]. }
      clear s Hc HI. intros i [msgs' c'] s tacc (Hreq & Hd & Hlt & HI).
      simpl in Hlt, HI. simpl.
      destruct (sorted_elements !! i) as [element|].
      * eapply spec_mono; [apply answer_question_thread|].
        intros o s' t [Hdt Hq].
        assert (Hd' : dumped (tacc ++ t) = []) by now rewrite dumped_app, Hd, Hdt.
        destruct (lookup_lt_is_Some_2 (heap s) c' Hlt) as [cur Hcur].
        destruct (Hq cur Hcur) as [(Hnone & Hh & Ho) | (q & req & Hone & Hmsgs & Ho)].
        -- assert (Hreq' : Forall J (map messages (answer_requests (tacc ++ t)))).
           { now rewrite answer_requests_app, Hnone, app_nil_r. }
           destruct o as [r| |]; try (split; assumption).
           subst r. unfold R. simpl. rewrite Hh. auto.
        -- assert (Hreq' : Forall J (map messages (answer_requests (tacc ++ t)))).
           { rewrite answer_requests_app, Hone, map_app. apply Forall_app.
             split; [exact Hreq|]. simpl. constructor; [|constructor].
             rewrite Hmsgs. apply J_snoc; [now apply I_json | discriminate]. }
           destruct o as [[msgs'' c'']| |]; try (split; assumption).
           destruct Ho as ((summary & Hm) & Hc'' & Hheap). simpl in Hm, Hc''.
           subst msgs'' c''. unfold R. simpl. rewrite Hheap.
           split; [exact Hreq'|]. split; [exact Hd'|]. split.
           ++ rewrite length_app, length_alter. simpl. lia.
           ++ apply I_snoc; [exact HI | discriminate].
      * apply spec_raise. unfold E. now rewrite app_nil_r.
    + intros o s' t Ho. simpl in Ho.
      destruct o as [[msgs' c']| |];
        try (destruct Ho as [H1 H2]; split; [exact H1 | split; [exact H2 | exact Logic.I]]).
      destruct Ho as (Hreq & Hd & _ & HI'). simpl in HI'.
      apply spec_ret. rewrite app_nil_r. auto.
Qed.

Lemma survey_page_carries fuel p msgs (s : Store W) :
  I msgs ->
  spec (survey_page fuel p msgs) s (fun o _ t =>
    Forall J (map messages (answer_requests t))
    /\ Forall J (dumped t)
    /\ match o with Ret r => I r.2 | _ => True end).
Proof.
  intros HI. unfold survey_page. apply spec_bind, spec_new_list.
  apply spec_bind. eapply spec_mono; [apply capture_quiet|].
  intros o1 s1 t1 [Hh1 Ht1]. apply silent_requests_dumps in Ht1 as [Hr1 Hd1].
  simpl in Hh1.
  destruct o1 as [shots| |];
    [|simpl; rewrite Hr1, Hd1; repeat split; constructor ..].
  apply spec_bind. eapply spec_mono; [apply gather_thread|].
  intros o2 s2 t2 (Hr2 & Hd2 & Ho2).
  destruct o2 as [qs| |];
    [|simpl; rewrite answer_requests_app, dumped_app, Hr1, Hr2, Hd1, Hd2;
      repeat split; constructor ..].
  destruct Ho2 as (b & _ & Hh2).
  assert (Hlt : (length (heap s) < length (heap s2))%nat).
  { rewrite Hh2, length_alter, Hh1, length_app. simpl. lia. }
  apply spec_bind.
  eapply spec_mono; [apply (answer_all_carries _ _ _ _ _ Hlt HI)|].
  intros o3 s3 t3 (Hr3 & Hd3 & Ho3).
  assert (Hreqs : forall t4, answer_requests t4 = [] ->
            Forall J (map messages
                        (answer_requests ([] ++ t1 ++ t2 ++ t3 ++ t4)))).
  { intros t4 Hr4. simpl.
    rewrite !answer_requests_app, Hr1, Hr2, Hr4. simpl. now rewrite app_nil_r. }
  assert (Hdumps : forall t4, dumped ([] ++ t1 ++ t2 ++ t3 ++ t4) = dumped t4).
  { intros t4. simpl. now rewrite !dumped_app, Hd1, Hd2, Hd3. }
  destruct o3 as [msgs'| |].
  - wp.
    + split; [apply (Hreqs ([] ++ [_] ++ [])); reflexivity|].
      rewrite (Hdumps ([] ++ [_] ++ [])). simpl.
      split; [|exact Ho3]. constructor; [|constructor]. now apply I_json.
    + split; [apply (Hreqs ([] ++ [_])); reflexivity|].
      rewrite (Hdumps ([] ++ [_])). simpl.
      split; [|exact Logic.I]. constructor; [|constructor]. now apply I_json.
  - specialize (Hreqs [] eq_refl). specialize (Hdumps []).
    rewrite !app_nil_r in *. simpl in *. rewrite Hdumps.
    repeat split; [exact Hreqs | constructor].
  - specialize (Hreqs [] eq_refl). specialize (Hdumps []).
    rewrite !app_nil_r in *. simpl in *. rewrite Hdumps.
    repeat split; [exact Hreqs | constructor].
Qed.

Lemma survey_loop_carries fuel p msgs (s : Store W) :
  I msgs ->
  spec (survey_loop fuel p msgs) s (fun _ _ t =>
    Forall J (map messages (answer_requests t)) /\ Forall J (dumped t)).
Proof.
  revert p msgs s. induction fuel as [|fuel IH]; intros p msgs s HI.
  - apply spec_out_of_fuel. split; constructor.
  - cbn [survey_loop]. apply spec_bind.
    eapply spec_mono; [apply (survey_page_carries _ _ _ _ HI)|].
    intros o1 s1 t1 (Hr1 & Hd1 & Ho1).
    destruct o1 as [[shots msgs']| |]; try (split; assumption).
    simpl in Ho1. apply spec_bind.
    eapply spec_mono; [apply next_page_quiet|].
    intros o2 s2 t2 [_ Ht2]. apply silent_requests_dumps in Ht2 as [Hr2 Hd2].
    assert (H12 : Forall J (map messages (answer_requests (t1 ++ t2)))
                  /\ Forall J (dumped (t1 ++ t2))).
    { rewrite answer_requests_app, dumped_app, Hr2, Hd2, !app_nil_r. auto. }
    destruct o2 as [[e|[]]| |]; try exact H12.
    + wp. rewrite !answer_requests_app, !dumped_app, Hr2, Hd2. simpl.
      now rewrite !app_nil_r.
    + wp.
      * eapply spec_mono; [apply (IH _ _ _ Ho1)|].
        intros o3 s3 t3 [Hr3 Hd3].
        rewrite !answer_requests_app, !dumped_app, Hr2, Hd2. simpl.
        rewrite map_app. split; apply Forall_app; auto.
      * rewrite !answer_requests_app, !dumped_app, Hr2, Hd2. simpl.
        now rewrite !app_nil_r.
Qed.

End ThreadInvariant.

Lemma thread_opens_snoc sys msgs m :
  thread_opens_with sys msgs -> role m <> system ->
  thread_opens_with sys (msgs ++ [m]).
Proof.
  intros (rest & -> & Hrest) Hm. exists (rest ++ [m]). split; [reflexivity|].
  apply Forall_app. split; [exact Hrest | now constructor].
Qed.

Lemma opens_snoc sys payload q :
  opens_with sys payload -> jrole q <> system -> opens_with sys (payload ++ [q]).
Proof.
  intros (rest & -> & Hrest) Hq. exists (rest ++ [q]). split; [reflexivity|].
  apply Forall_app. split; [exact Hrest | now constructor].
Qed.

Lemma thread_opens_json h sys msgs :
  thread_opens_with sys msgs -> opens_with (to_json h sys) (map (to_json h) msgs).
Proof.
  intros (rest & -> & Hrest). exists (map (to_json h) rest). split; [reflexivity|].
  apply Forall_map. eapply Forall_impl; [exact Hrest|]. now intros m Hm.
Qed.

(** X14.  In any run of [fill_survey], the messages of every request for an
    answer, and every dump of the thread, open with the system message
    that describes the respondent and hold no other system message: the
    persona is sent with every question, first and once. *)
Theorem system_message_first_and_once {W : Type} `{!Driver W}
    (fuel : nat)
    (age gender Country_origin ethnicity Country student_text work_status : string)
    (s : Store W) :
  let t := (fill_survey fuel age gender Country_origin ethnicity Country
              student_text work_status s).2 in
  let sys := system_json age gender Country_origin ethnicity Country
               student_text work_status in
  Forall (opens_with sys) (map messages (answer_requests t))
  /\ Forall (opens_with sys) (dumped t).
Proof.
  intros t sys. subst t.
  set (sysm := system_message age gender Country_origin ethnicity Country
                 student_text work_status).
  apply (survey_loop_carries (thread_opens_with sysm) (opens_with sys)).
  - apply thread_opens_snoc.
  - intros h msgs Hm. apply (thread_opens_json h) in Hm. exact Hm.
  - apply opens_snoc.
  - exists []. split; [reflexivity | constructor].
Qed.

(** ** Reading the reply as a number *)

Lemma digit_pretty_N_char (d : N) :
  (d < 10)%N -> Py.digit (pretty_N_char d) = Some (Z.of_N d).
Proof.
  intros Hd.
  assert (d = 0 \/ d = 1 \/ d = 2 \/ d = 3 \/ d = 4 \/ d = 5 \/ d = 6
          \/ d = 7 \/ d = 8 \/ d = 9)%N as Hcases by lia.
  repeat (destruct Hcases as [->|Hcases]; [reflexivity|]).
  now subst d.
Qed.

Lemma space_not_digit (c : Ascii.ascii) :
  Py.isspace c = true -> Py.digit c = None /\ Py.is_underscore c = false.
Proof.
  destruct c as [[] [] [] [] [] [] [] []]; vm_compute; intros H;
    try discriminate H; split; reflexivity.
Qed.

Lemma more_digits_space acc cnt ws :
  Py.all_space ws = true -> Py.more_digits acc cnt ws = Some (acc, cnt, ws).
Proof.
  destruct ws as [|c ws]; [reflexivity|]. simpl. intros H.
  apply andb_prop in H as [H _].
  destruct (space_not_digit c H) as [-> ->]. reflexivity.
Qed.

Lemma lstrip_space ws s :
  Py.all_space ws = true -> Py.lstrip (ws +:+ s) = Py.lstrip s.
Proof.
  induction ws as [|c ws IH]; [reflexivity|]. simpl. intros H.
  apply andb_prop in H as [-> H]. now apply IH.
Qed.

Lemma parse_lstrip ws s :
  Py.all_space ws = true -> Py.parse (ws +:+ s) = Py.parse s.
Proof. intros H. unfold Py.parse. now rewrite lstrip_space. Qed.

(** The decimal of a positive number, read back digit by digit. *)
Lemma digits_pretty_N_go (x : N) : forall s t,
  (0 < x)%N ->
  exists k,
    String.length (pretty_N_go x s) = (S k + String.length s)%nat
    /\ Py.digits (pretty_N_go x s +:+ t)
       = Py.more_digits (Z.of_N x) (S k) (s +:+ t).
Proof.
  induction (N.lt_wf_0 x) as [x _ IH]. intros s t Hx.
  rewrite pretty_N_go_step by exact Hx.
  assert (Hd : (x `mod` 10 < 10)%N) by (apply N.mod_lt; lia).
  pose proof (digit_pretty_N_char _ Hd) as Hdigit.
  destruct (N.eq_dec (x `div` 10) 0) as [H0|Hpos].
  - rewrite H0, pretty_N_go_0. exists 0%nat. split; [reflexivity|].
    simpl. rewrite Hdigit.
    replace (x `mod` 10)%N with x; [reflexivity|].
    pose proof (N.div_mod x 10 ltac:(lia)) as Hdm. rewrite H0 in Hdm. lia.
  - assert (Hlt : (x `div` 10 < x)%N) by (apply N.div_lt; lia).
    assert (Hq : (0 < x `div` 10)%N) by now apply N.neq_0_lt_0.
    destruct (IH _ Hlt (String (pretty_N_char (x `mod` 10)) s) t Hq)
      as (k & Hlen & Hdig).
    exists (S k). split; [rewrite Hlen; simpl; lia|].
    rewrite Hdig. simpl. rewrite Hdigit. f_equal.
    pose proof (N.div_mod x 10 ltac:(lia)) as Hdm. lia.
Qed.

Lemma digits_pretty_N (x : N) ws :
  Py.all_space ws = true ->
  Py.digits (pretty x +:+ ws)
  = Some (Z.of_N x, String.length (pretty x), ws).
Proof.
  intros Hws. unfold pretty, pretty_N. destruct (decide (x = 0%N)) as [->|Hx].
  - simpl. now rewrite more_digits_space.
  - destruct (digits_pretty_N_go x "" ws ltac:(lia)) as (k & Hlen & Hdig).
    rewrite Hdig, Hlen. simpl. rewrite Nat.add_0_r.
    now apply more_digits_space.
Qed.

(** What [int()] makes of a string the digits of which have been read. *)
Lemma parse_of_digits body v cnt rest :
  Py.digits body = Some (v, cnt, rest) ->
  Py.all_space rest = true ->
  (cnt <= Py.int_max_str_digits)%nat ->
  Py.parse body = Py.value v /\ Py.parse ("-" +:+ body) = Py.value (- v).
Proof.
  intros Hdig Hrest Hcnt. apply Nat.ltb_ge in Hcnt.
  destruct body as [|c body]; [discriminate Hdig|].
  assert (Hc : Py.digit c <> None).
  { simpl in Hdig. now destruct (Py.digit c). }
  assert (Hint : Py.parse (String c body)
                 = match Py.digits (String c body) with
                   | Some (v, cnt, rest) =>
                       if (Py.int_max_str_digits <? cnt)%nat
                       then Py.exceeds_limit cnt
                       else if Py.all_space rest then Py.value v
                            else Py.invalid_literal
                   | None => Py.invalid_literal
                   end
                 /\ Py.parse ("-" +:+ String c body)
                    = match Py.digits (String c body) with
                      | Some (v, cnt, rest) =>
                          if (Py.int_max_str_digits <? cnt)%nat
                          then Py.exceeds_limit cnt
                          else if Py.all_space rest then Py.value (- v)
                               else Py.invalid_literal
                      | None => Py.invalid_literal
                      end).
  { clear Hdig.
    destruct c as [[] [] [] [] [] [] [] []];
      try (exfalso; apply Hc; reflexivity); split; reflexivity. }
  destruct Hint as [-> ->]. rewrite Hdig, Hrest, Hcnt. auto.
Qed.

(** [int(str(n))] is [n], white space around it or not, for any [n] within
    the limit on digits. *)
Lemma int_str (n : Z) ws1 ws2 :
  Py.all_space ws1 = true -> Py.all_space ws2 = true ->
  (String.length (Py.str (Z.abs n)) <= Py.int_max_str_digits)%nat ->
  Py.int (ws1 +:+ Py.str n +:+ ws2) = Some n.
Proof.
  intros H1 H2 Hlen.
  assert (Hval : forall body, Py.parse body = Py.value n -> Py.int body = Some n)
    by (intros body Hb; unfold Py.int; now rewrite Hb).
  apply Hval. rewrite parse_lstrip by exact H1.
  unfold Py.str, pretty, pretty_Z in *. destruct n as [|p|p]; cbn [Z.abs] in Hlen.
  - now destruct (parse_of_digits _ _ _ _ (digits_pretty_N 0 ws2 H2) H2 Hlen).
  - now destruct (parse_of_digits _ _ _ _ (digits_pretty_N (N.pos p) ws2 H2) H2 Hlen).
  - destruct (parse_of_digits _ _ _ _ (digits_pretty_N (N.pos p) ws2 H2) H2 Hlen)
      as [_ Hneg].
    exact Hneg.
Qed.

Lemma answer_survey_choice_reads {W : Type} `{!Driver W}
    (msgs : list Message) (s : Store W) :
  spec (answer_survey_choice msgs) s (fun o _ t =>
    forall reply, answers t = [reply] ->
      o = match Py.int reply with
          | Some n => Ret n
          | None => Exc (ValueError (int_msg reply))
          end).
Proof.
  unfold answer_survey_choice. wp; intros;
    match goal with
    | Hr : answers _ = [_] |- _ =>
        simpl in Hr; first [discriminate Hr | injection Hr as <-]
    end;
    match goal with H : Py.int _ = _ |- _ => now rewrite H end.
Qed.

(** X15.  [answer_survey_choice] reads back what [str] prints: when the
    service replies with the decimal of an integer [n] as Python writes it,
    with white space before or after it or none, the function returns [n];
    [n] may be negative and must stay within the interpreter's limit of
    4300 digits. *)
Theorem answer_survey_choice_reads_decimal {W : Type} `{!Driver W}
    (msgs : list Message) (s : Store W) (n : Z) (ws1 ws2 : string) :
  Py.all_space ws1 = true -> Py.all_space ws2 = true ->
  (String.length (Py.str (Z.abs n)) <= Py.int_max_str_digits)%nat ->
  Py.int (ws1 +:+ Py.str n +:+ ws2) = Some n
  /\ (answers (answer_survey_choice msgs s).2 = [ws1 +:+ Py.str n +:+ ws2] ->
      (answer_survey_choice msgs s).1.1 = Ret n).
Proof.
  intros H1 H2 Hlen. pose proof (int_str n ws1 ws2 H1 H2 Hlen) as Hint.
  split; [exact Hint|]. intros Ha.
  pose proof (answer_survey_choice_reads msgs s) as Hspec. unfold spec in Hspec.
  destruct (answer_survey_choice msgs s) as [[o s'] t]. simpl in *.
  rewrite (Hspec _ Ha), Hint. reflexivity.
Qed.

Lemma answer_survey_choice_reads_decimal_witness :
  let reply := " " +:+ Py.str (-3) +:+ Py.LF in
  let s := Scripted.start [Scripted.str reply] in
  Py.int reply = Some (-3)
  /\ (answer_survey_choice Scripted.thread0 s).1.1 = Ret (-3).
Proof.
  intros reply s.
  assert (H1 : Py.all_space " " = true) by reflexivity.
  assert (H2 : Py.all_space Py.LF = true) by reflexivity.
  assert (Hlen : (String.length (Py.str (Z.abs (-3)))
                  <= Py.int_max_str_digits)%nat)
    by (vm_compute; lia).
  destruct (answer_survey_choice_reads_decimal Scripted.thread0 s (-3)
              " " Py.LF H1 H2 Hlen) as [Hint Hrun].
  split; [exact Hint | apply Hrun; reflexivity].
Defined.

(** ** What every request of a page carries *)

Lemma readings_app t1 t2 : readings (t1 ++ t2) = readings t1 ++ readings t2.
Proof. apply omap_app. Qed.

Lemma summaries_app t1 t2 : summaries (t1 ++ t2) = summaries t1 ++ summaries t2.
Proof. apply omap_app. Qed.

Lemma plain_projections (t : list Event) :
  Forall plain t ->
  readings t = [] /\ answer_requests t = [] /\ summaries t = [] /\ dumped t = [].
Proof.
  unfold readings, answer_requests, summaries, dumped.
  induction 1 as [|ev t (H1 & H2 & _ & H4 & H5) _ (IH1 & IH2 & IH4 & IH5)];
    [easy|].
  cbn [omap list_omap]. now rewrite H1, H2, H4, H5, IH1, IH2, IH4, IH5.
Qed.

Lemma image_urls_app l1 l2 : image_urls (l1 ++ l2) = image_urls l1 ++ image_urls l2.
Proof. unfold image_urls. now rewrite map_app, concat_app. Qed.

Lemma image_urls_summaries l : image_urls (map summary_json l) = [].
Proof. induction l as [|x l IH]; [reflexivity | exact IH]. Qed.

Lemma image_urls_page_request thread url page_summaries i html_question :
  image_urls (page_request thread url page_summaries i html_question)
  = image_urls thread ++ (if (i =? 0)%nat then [url] else []).
Proof.
  unfold page_request. rewrite !image_urls_app, image_urls_summaries.
  now destruct (i =? 0)%nat.
Qed.

(** The thread serialises as it did when every list it refers to is as it
    was. *)
Lemma to_json_old bound (h h' : list (list Part)) msgs :
  thread_ok bound h msgs ->
  (forall l, (l < bound)%nat -> h' !! l = h !! l) ->
  map (to_json h') msgs = map (to_json h) msgs.
Proof.
  unfold thread_ok. intros Hok Hsame. apply map_ext_Forall.
  eapply Forall_impl; [exact Hok|]. intros m Hm. cbn beta in Hm.
  unfold to_json. destruct (content m) as [|l]; [reflexivity|].
  destruct Hm as [Hl _]. now rewrite (Hsame l Hl).
Qed.

Section Plain.
Context {W : Type} `{!Driver W}.

Lemma spec_both {A} (m : M W A) s (Q1 Q2 : Outcome A -> Store W -> list Event -> Prop) :
  spec m s Q1 -> spec m s Q2 -> spec m s (fun o s' t => Q1 o s' t /\ Q2 o s' t).
Proof. unfold spec. auto. Qed.

Lemma scroll_loop_plain fuel filepath screenshots last :
  emits (W := W) plain (scroll_loop fuel filepath screenshots last) (fun _ => True).
Proof.
  revert screenshots last. induction fuel as [|fuel IH]; intros screenshots last; simpl.
  - apply emits_out_of_fuel.
  - unfold scroll_round.
    eapply (emits_bind _ _ _ (fun _ => True)); [repeat emit|].
    intros [shots h] _. destruct (h =? last); [now apply emits_ret | apply IH].
Qed.

Lemma capture_plain fuel p : emits (W := W) plain (capture fuel p) (fun _ => True).
Proof.
  unfold capture, take_screenshots_scroll, stitch_images_vertically.
  eapply (emits_bind _ _ _ (fun _ => True)); [apply scroll_loop_plain|].
  intros l _.
  eapply (emits_bind _ _ _ (fun _ => True)); [|intros; now apply emits_ret].
  eapply (emits_bind _ _ _ (fun _ => True)).
  - apply (emits_for_list _ _ _ (fun _ => True)); [|apply Forall_true; auto].
    intros x _. emit_call.
  - intros imgs _. destruct (stitched imgs); [apply emits_raise | emit_call].
Qed.

Lemma gather_plain p content :
  emits (W := W) plain (gather p content) (fun _ => True).
Proof.
  unfold gather, encode_image. repeat emit.
  eapply (emits_bind _ _ _ (fun _ => True)); [|intros; now apply emits_ret].
  apply (emits_for_list _ _ _ (fun _ => True)); [|apply Forall_true; auto].
  intros x _. unfold get_position. repeat emit.
Qed.

End Plain.

Section Exchange.
Context {W : Type} `{!Driver W}.

(** What answering one question reads, sends and leaves, from the query
    that decides its branch to the thread it returns. *)
Lemma answer_question_exchange element msgs content (s : Store W) :
  spec (answer_question element msgs content) s (fun o s' t =>
    dumped t = []
    /\ match taken element t with
       | None =>
           readings t = [] /\ answer_requests t = [] /\ summary_requests t = []
           /\ summaries t = [] /\ heap s' = heap s
           /\ match o with
              | Ret r => r = (msgs, content)
                         /\ map fst (queries t) = question_queries
              | _ => True
              end
       | Some b =>
           match readings t with
           | [] =>
               answer_requests t = [] /\ summary_requests t = []
               /\ summaries t = [] /\ heap s' = heap s
               /\ ended_by_library o t
           | [(e, name, html_question)] =>
               let h := alter (fun c0 => c0 ++ [question_text html_question])
                          content (heap s) in
               e = element /\ name = attribute_of b
               /\ map messages (answer_requests t)
                  = [ map (to_json h)
                        (msgs ++ [ {| role := user; content := Ref content |} ]) ]
               /\ (length (summaries t) <= 1)%nat
               /\ match o with
                  | Ret r =>
                      exists reply answer summary,
                        answers t = [reply]
                        /\ answer_of b reply = Some answer
                        /\ map messages (summary_requests t)
                           = [summary_messages html_question answer]
                        /\ summaries t = [summary]
                        /\ r = (msgs ++ [summary_message summary],
                                length (heap s))
                        /\ heap s' = h ++ [[]]
                  | _ => True
                  end
           | _ => False
           end
       end).
Proof.
  unfold answer_question, branch_cbc_task, branch_select,
    branch_question_numeric, branch_response_column, branch_textarea,
    exchange, answer_survey_choice, answer_survey_other, summarize_answer.
  wp; unfold taken; settle.
  all: rewrite ?removelast_last, ?length_alter; settle.
Qed.

End Exchange.

Section PageRequests.
Context {W : Type} `{!Driver W}.

(** The request a question is asked with, when the thread has grown by
    the summaries [done] since the page began and the buffer holds
    [parts]. *)
Lemma question_request (h0 h : list (list Part)) msgs c url done later html_question :
  thread_ok (length h0) h0 msgs ->
  (forall l, (l < length h0)%nat -> h !! l = h0 !! l) ->
  (length h0 <= c)%nat ->
  h !! c = Some (if (length done =? 0)%nat then [image_url url] else []) ->
  map (to_json (alter (fun c0 => c0 ++ [question_text html_question]) c h))
    ((msgs ++ map summary_message done)
     ++ [ {| role := user; content := Ref c |} ])
  = page_request (map (to_json h0) msgs) url (done ++ later) (length done)
      html_question.
Proof.
  intros Hok Hsame Hc Hcell. unfold page_request.
  rewrite take_app_length, !map_app. rewrite <- app_assoc. f_equal; [|f_equal].
  - apply (to_json_old _ _ _ _ Hok). intros l Hl.
    rewrite list_lookup_alter_ne by lia. now apply Hsame.
  - rewrite map_map. reflexivity.
  - simpl. unfold to_json, question_json. simpl.
    now rewrite list_lookup_alter_eq, Hcell.
Qed.

Lemma answer_all_requests (h0 : list (list Part)) url
    (all_questions sorted_elements : list WebElement) msgs c (s : Store W) :
  thread_ok (length h0) h0 msgs ->
  (forall l, (l < length h0)%nat -> heap s !! l = h0 !! l) ->
  (length h0 <= c)%nat ->
  heap s !! c = Some [image_url url] ->
  spec (answer_all all_questions sorted_elements msgs c) s (fun _ _ t =>
    map messages (answer_requests t)
    = imap (page_request (map (to_json h0) msgs) url (summaries t))
        (map snd (readings t))
    /\ dumped t = []).
Proof.
  intros Hok Hsame Hc Hcell. unfold answer_all.
  destruct (length all_questions =? 0)%nat; [now apply spec_ret|].
  apply spec_bind.
  set (J := map (to_json h0) msgs).
  pose (E := fun (_ : Store W) (tacc : list Event) =>
               map messages (answer_requests tacc)
               = imap (page_request J url (summaries tacc))
                   (map snd (readings tacc))
               /\ dumped tacc = []).
  pose (R := fun (st : list Message * nat) (s' : Store W) (tacc : list Event) =>
               E s' tacc
               /\ length (summaries tacc) = length (readings tacc)
               /\ st.1 = msgs ++ map summary_message (summaries tacc)
               /\ (forall l, (l < length h0)%nat -> heap s' !! l = h0 !! l)
               /\ (length h0 <= st.2)%nat
               /\ heap s' !! st.2
                  = Some (if (length (summaries tacc) =? 0)%nat
                          then [image_url url] else [])).
  eapply spec_mono.
  - apply (for_range_spec _ _ R E) with (tacc := []).
    2: { unfold R, E. simpl. repeat split; try reflexivity; try assumption.
         now rewrite app_nil_r. }
    clear s Hsame Hc Hcell. intros i [msgs' c'] s tacc HR.
    destruct HR as ([Hreq Hd] & Hlen & Hmsgs & Hsame & Hc & Hcell).
    simpl in Hmsgs, Hc, Hcell. subst msgs'. simpl.
    destruct (sorted_elements !! i) as [element|];
      [|apply spec_raise; unfold E; now rewrite app_nil_r].
    eapply spec_mono; [apply answer_question_exchange|].
    intros o s' t [Hdt Hrun].
    assert (Hd' : dumped (tacc ++ t) = []) by now rewrite dumped_app, Hd, Hdt.
    assert (Hstill : readings t = [] -> answer_requests t = [] ->
                     summaries t = [] -> E s' (tacc ++ t)).
    { intros H1 H2 H3. unfold E.
      rewrite answer_requests_app, readings_app, summaries_app, H1, H2, H3,
        !app_nil_r. auto. }
    destruct (taken element t) as [b|].
    + destruct (readings t) as [|[[e name] html_question] [|]] eqn:Hread;
        try contradiction.
      * destruct Hrun as (H2 & _ & H3 & _ & what & -> & _).
        now apply Hstill.
      * destruct Hrun as (_ & _ & Hone & Hle & Ho).
        assert (Hnew : E s' (tacc ++ t)).
        { unfold E. split; [|exact Hd'].
          rewrite answer_requests_app, readings_app, summaries_app, Hread.
          rewrite !map_app, Hone, Hreq, imap_app. simpl. f_equal.
          - apply imap_ext. intros j x Hj. apply lookup_lt_Some in Hj.
            rewrite length_map in Hj. unfold page_request.
            rewrite take_app_le by lia. reflexivity.
          - rewrite length_map, Nat.add_0_r, <- Hlen. f_equal.
            now apply question_request. }
        destruct o as [r| |]; try exact Hnew.
        destruct Ho as (reply & answer & summary & _ & _ & _ & Hsum & -> & Hheap).
        unfold R. simpl. split; [exact Hnew|].
        rewrite summaries_app, readings_app, Hread, Hsum, !length_app. simpl.
        split; [lia|]. split; [now rewrite map_app, app_assoc|].
        rewrite Hheap. split; [|split].
        -- intros l Hl. apply lookup_lt_Some in Hcell as Hlt.
           rewrite lookup_app_l by (rewrite length_alter; lia).
           rewrite list_lookup_alter_ne by lia. now apply Hsame.
        -- apply lookup_lt_Some in Hcell. lia.
        -- replace (length (summaries tacc) + 1 =? 0)%nat with false
             by (symmetry; apply Nat.eqb_neq; lia).
           rewrite <- (length_alter (fun c0 => c0 ++ [question_text html_question])
                         (heap s) c').
           apply list_lookup_middle. reflexivity.
    + destruct Hrun as (H1 & H2 & _ & H3 & Hheap & Ho).
      pose proof (Hstill H1 H2 H3) as Hnew.
      destruct o as [r| |]; try exact Hnew.
      destruct Ho as [-> _]. unfold R. simpl.
      rewrite summaries_app, readings_app, H1, H3, !app_nil_r, Hheap.
      auto 10.
  - intros o s' t Ho. simpl in Ho.
    destruct o as [st| |]; try exact Ho.
    apply spec_ret. rewrite app_nil_r. apply Ho.
Qed.

End PageRequests.

Section Pages.
Context {W : Type} `{!Driver W}.

Lemma survey_page_requests fuel p msgs (s : Store W) :
  thread_ok (length (heap s)) (heap s) msgs ->
  spec (survey_page fuel p msgs) s (fun _ _ t =>
    (readings t = [] /\ answer_requests t = [])
    \/ exists b,
         In (Call (read_b64encode (stitched_filename p)) (Returned b)) t
         /\ map messages (answer_requests t)
            = imap (page_request (map (to_json (heap s)) msgs) (data_url b)
                      (summaries t))
                (map snd (readings t))).
Proof.
  intros Hok. unfold survey_page. apply spec_bind, spec_new_list.
  apply spec_bind.
  eapply spec_mono; [apply spec_both; [apply capture_quiet | apply capture_plain]|].
  intros o1 s1 t1 [[Hh1 _] [Hp1 _]].
  apply plain_projections in Hp1 as (Hr1 & Hq1 & Hs1 & _). simpl in Hh1.
  destruct o1 as [shots| |]; [|now left ..].
  apply spec_bind.
  eapply spec_mono; [apply spec_both; [apply gather_thread | apply gather_plain]|].
  intros o2 s2 t2 [(_ & _ & Ho2) [Hp2 _]].
  apply plain_projections in Hp2 as (Hr2 & Hq2 & Hs2 & _).
  assert (Hnone : readings ([] ++ t1 ++ t2) = []
                  /\ answer_requests ([] ++ t1 ++ t2) = []).
  { simpl. now rewrite readings_app, answer_requests_app, Hr1, Hr2, Hq1, Hq2. }
  destruct o2 as [qs| |]; [|left; exact Hnone ..].
  destruct Ho2 as (b & Hin & Hh2).
  assert (Hcell : heap s2 !! length (heap s) = Some [image_url (data_url b)]).
  { rewrite Hh2, Hh1. rewrite list_lookup_alter_eq.
    now rewrite list_lookup_middle. }
  assert (Hsame : forall l, (l < length (heap s))%nat -> heap s2 !! l = heap s !! l).
  { intros l Hl. rewrite Hh2, Hh1.
    rewrite list_lookup_alter_ne by lia. now apply lookup_app_l. }
  apply spec_bind.
  eapply spec_mono;
    [apply (answer_all_requests (heap s) (data_url b) _ _ msgs _ s2 Hok Hsame
              (Nat.le_refl _) Hcell)|].
  intros o3 s3 t3 [Hreq _].
  assert (Hall : forall t4, readings t4 = [] -> answer_requests t4 = [] ->
            summaries t4 = [] ->
            exists b0,
              In (Call (read_b64encode (stitched_filename p)) (Returned b0))
                ([] ++ t1 ++ t2 ++ t3 ++ t4)
              /\ map messages (answer_requests ([] ++ t1 ++ t2 ++ t3 ++ t4))
                 = imap (page_request (map (to_json (heap s)) msgs) (data_url b0)
                           (summaries ([] ++ t1 ++ t2 ++ t3 ++ t4)))
                     (map snd (readings ([] ++ t1 ++ t2 ++ t3 ++ t4)))).
  { intros t4 H1 H2 H3. exists b. split.
    - simpl. apply in_or_app. right. apply in_or_app. now left.
    - simpl. rewrite !answer_requests_app, !readings_app, !summaries_app.
      rewrite Hr1, Hr2, Hq1, Hq2, Hs1, Hs2, H1, H2, H3. simpl.
      now rewrite !app_nil_r. }
  destruct o3 as [msgs'| |].
  - wp; right.
    + apply (Hall ([] ++ [Call (json_dump _ "messages.json") (Returned a)] ++ []));
        reflexivity.
    + apply (Hall ([] ++ [Call (json_dump _ "messages.json") (Raised what)]));
        reflexivity.
  - right. specialize (Hall [] eq_refl eq_refl eq_refl).
    now rewrite !app_nil_r in Hall.
  - right. specialize (Hall [] eq_refl eq_refl eq_refl).
    now rewrite !app_nil_r in Hall.
Qed.

End Pages.

(** C9, as amended.  On a page that begins with a thread whose lists are
    older than the page's buffer and hold one image each, as is the thread
    of every page of a survey, the [i]-th request for an answer consists
    of the thread as it serialised when the page began, the summaries of
    the [i] answers given on the page before, and the question, in a user
    message that holds the page's stitched image before the text when
    [i] is 0, and the text alone otherwise.  So the images a request
    carries are those of the thread, one for each earlier page that had
    no question, and for the first request of the page its own besides;
    a request is made for each question whose HTML was read.  The page
    leaves a thread of the same kind. *)
Theorem screenshot_only_in_first_request {W : Type} `{!Driver W}
    (fuel p : nat) (msgs : list Message) (s : Store W) :
  thread_ok (length (heap s)) (heap s) msgs ->
  let '(o, s', t) := survey_page fuel p msgs s in
  let thread := map (to_json (heap s)) msgs in
  ((readings t = [] /\ answer_requests t = [])
   \/ exists b,
        In (Call (read_b64encode (stitched_filename p)) (Returned b)) t
        /\ map messages (answer_requests t)
           = imap (page_request thread (data_url b) (summaries t))
               (map snd (readings t))
        /\ forall i req,
             answer_requests t !! i = Some req ->
             image_urls (messages req)
             = image_urls thread
               ++ (if (i =? 0)%nat then [data_url b] else []))
  /\ match o with
     | Ret r => thread_ok (length (heap s')) (heap s') r.2
     | _ => True
     end.
Proof.
  intros Hok.
  pose proof (survey_page_requests fuel p msgs s Hok) as Hreq.
  pose proof (survey_page_clean fuel p msgs s Hok) as Hclean.
  unfold spec in Hreq, Hclean.
  destruct (survey_page fuel p msgs s) as [[o s'] t]. simpl in *.
  split; [|apply Hclean].
  destruct Hreq as [Hnone | (b & Hin & Heq)]; [now left|].
  right. exists b. split; [exact Hin|]. split; [exact Heq|].
  intros i req Hi.
  assert (Hm : map messages (answer_requests t) !! i = Some (messages req))
    by now rewrite list_lookup_fmap, Hi.
  rewrite Heq, list_lookup_imap in Hm.
  destruct (map snd (readings t) !! i) as [html_question|]; [|discriminate].
  injection Hm as <-. apply image_urls_page_request.
Qed.

Lemma screenshot_only_in_first_request_witness :
  let s := Scripted.start two_question_page in
  thread_ok (length (heap s)) (heap s) Scripted.thread0
  /\ let '(o, s', t) := survey_page 1 0 Scripted.thread0 s in
     let thread := map (to_json (heap s)) Scripted.thread0 in
     ((readings t = [] /\ answer_requests t = [])
      \/ exists b,
           In (Call (read_b64encode (stitched_filename 0)) (Returned b)) t
           /\ map messages (answer_requests t)
              = imap (page_request thread (data_url b) (summaries t))
                  (map snd (readings t))
           /\ forall i req,
                answer_requests t !! i = Some req ->
                image_urls (messages req)
                = image_urls thread
                  ++ (if (i =? 0)%nat then [data_url b] else []))
     /\ match o with
        | Ret r => thread_ok (length (heap s')) (heap s') r.2
        | _ => True
        end.
Proof.
  intros s.
  assert (Hok : thread_ok (length (heap s)) (heap s) Scripted.thread0)
    by (repeat constructor).
  split; [exact Hok|].
  exact (screenshot_only_in_first_request 1 0 Scripted.thread0 s Hok).
Defined.

(** Against C9 as it stands: a page without questions leaves its image in
    the thread for good, and on the page after it, which has two
    questions, the second request carries that image: it is not text
    only. *)
Lemma later_question_sent_with_an_image :
  let run := survey_loop 3 0 Scripted.thread0
               (Scripted.start (welcome_page ++ two_question_page)) in
  length (dumped run.2) = 2%nat
  /\ map snd (readings run.2) = ["<textarea></textarea>"; "<select></select>"]
  /\ map image_urls (map messages (answer_requests run.2))
     = [ ["data:image/jpeg;base64,V2VsY29tZQ==";
          "data:image/jpeg;base64,iVBORw0KGgo="];
         ["data:image/jpeg;base64,V2VsY29tZQ=="] ].
Proof. cbv zeta. repeat split; reflexivity. Qed.

(** C10, as amended.  A question that returns has gone one of two ways.
    Either none of the five queries returned its element: all five were
    made, no request was, and the thread is as it was.  Or a branch took
    it: the element was read, one request for an answer was made, whose
    messages are the thread followed by the user message that refers to
    the content buffer, the question's text appended to it; the reply was
    made an answer, one request for a summary was made, of the question
    read and that answer; and the thread returned is the thread as it
    was, without the question, followed by one assistant message that
    holds the summary the summariser returned.  The user message
    serialises to what the buffer held followed by the question.  And no
    dump of [messages.json] in any run of [fill_survey] holds a user
    message with a text part. *)
Theorem thread_grows_by_one_answer {W : Type} `{!Driver W} :
  (forall element msgs content (s : Store W),
      let '(o, _, t) := answer_question element msgs content s in
      match o with
      | Ret r =>
          match taken element t with
          | None =>
              map fst (queries t) = question_queries
              /\ answer_requests t = [] /\ r = (msgs, content)
          | Some b =>
              exists html_question reply answer summary,
                readings t = [(element, attribute_of b, html_question)]
                /\ map messages (answer_requests t)
                   = [ map (to_json
                              (alter (fun c0 => c0 ++ [question_text html_question])
                                 content (heap s)))
                         (msgs ++ [ {| role := user; content := Ref content |} ]) ]
                /\ answers t = [reply]
                /\ answer_of b reply = Some answer
                /\ map messages (summary_requests t)
                   = [summary_messages html_question answer]
                /\ summaries t = [summary]
                /\ r.1 = msgs ++ [summary_message summary]
          end
      | _ => (length (answer_requests t) <= 1)%nat
      end)
  /\ (forall (h : list (list Part)) msgs content parts html_question,
        h !! content = Some parts ->
        map (to_json (alter (fun c0 => c0 ++ [question_text html_question])
                        content h))
          (msgs ++ [ {| role := user; content := Ref content |} ])
        = map (to_json (alter (fun c0 => c0 ++ [question_text html_question])
                          content h)) msgs
          ++ [question_json parts html_question])
  /\ (forall fuel age gender Country_origin ethnicity Country student_text
             work_status (s : Store W),
        Forall clean
          (dumped (fill_survey fuel age gender Country_origin ethnicity
                     Country student_text work_status s).2)).
Proof.
  split; [|split].
  - intros element msgs content s.
    pose proof (answer_question_exchange element msgs content s) as H.
    pose proof (answer_question_dispatch element msgs content s) as [Hle _].
    unfold spec in H, Hle.
    destruct (answer_question element msgs content s) as [[o s'] t].
    simpl in H, Hle. destruct H as [_ H]. destruct o as [r| |]; try exact Hle.
    destruct (taken element t) as [b|].
    + destruct (readings t) as [|[[e name] html_question] [|]]; try contradiction.
      * destruct H as (_ & _ & _ & _ & what & [=] & _).
      * destruct H as (-> & -> & Hreq & _ & reply & answer & summary
                       & Ha & Hans & Hsreq & Hsum & -> & _).
        now exists html_question, reply, answer, summary.
    + destruct H as (_ & Hreq & _ & _ & _ & Hr & Hq). auto.
  - intros h msgs content parts html_question Hparts.
    now apply to_json_question.
  - intros. apply survey_loop_clean. repeat constructor.
Qed.

Lemma thread_grows_by_one_answer_witness :
  let h := [[image_url (data_url "iVBORw0KGgo=")]] in
  h !! 0%nat = Some [image_url (data_url "iVBORw0KGgo=")]
  /\ map (to_json (alter (fun c0 => c0 ++ [question_text "<div>Which one?</div>"])
                     0%nat h))
       (Scripted.thread0 ++ [ {| role := user; content := Ref 0 |} ])
     = map (to_json (alter (fun c0 => c0 ++ [question_text "<div>Which one?</div>"])
                       0%nat h)) Scripted.thread0
       ++ [question_json [image_url (data_url "iVBORw0KGgo=")]
             "<div>Which one?</div>"].
Proof.
  intros h.
  assert (Hcell : h !! 0%nat = Some [image_url (data_url "iVBORw0KGgo=")])
    by reflexivity.
  split; [exact Hcell|].
  destruct (@thread_grows_by_one_answer _ Scripted.driver) as (_ & H & _).
  exact (H h Scripted.thread0 0%nat _ "<div>Which one?</div>" Hcell).
Defined.

(** Against C10 as it stands: a question whose element no query returns
    any more when its turn comes is processed, and the thread is changed
    by no entry; on the page of that question the thread that is dumped
    is the thread the page began with. *)
Lemma question_without_branch_adds_nothing :
  let s := {| world := [ Scripted.elements []; Scripted.elements [];
                         Scripted.elements []; Scripted.elements [];
                         Scripted.elements [] ];
              heap := [[image_url (data_url "iVBORw0KGgo=")]] |} in
  let run := answer_question "q1" Scripted.thread0 0 s in
  let page := survey_page 1 0 Scripted.thread0
                (Scripted.start Scripted.vanishing_page) in
  run.1.1 = Ret (Scripted.thread0, 0%nat)
  /\ map fst (queries run.2) = question_queries
  /\ answer_requests run.2 = []
  /\ page.1.1 = Ret (["screenshots/screenshot_0.png"], Scripted.thread0)
  /\ dumped page.2 = [map (to_json (heap page.1.2)) Scripted.thread0].
Proof. cbv zeta. repeat split; reflexivity. Qed.

(** ** Question after question *)

Section Segments.
Context {W : Type} `{!Driver W}.




End Segments.


